(** * perfsession/symbolize.go: symbolization of sampled instruction pointers

    A shallow embedding of [perfsession/symbolize.go] and the properties
    of its range tables, line tables, per-session memo table and address
    lookup.

    Conventions of the embedding:
    - a Go [uint64] is a [Z] in [0, 2^64); every arithmetic operation of
      the source is followed by its wrap-around [u64];
    - a Go slice that may be [nil] is an [option (list _)]: [None] is the
      nil slice, [Some []] the empty non-nil slice ([make(_, 0)]);
    - slice indices and lengths are [nat];
    - a pointer into a slice ([&s.functab[i]]) is the index [i] together
      with the slice after the in-place update;
    - [log.Fatal] and run-time panics end the process: they are the
      [Abort] outcome, which no caller can observe or recover from. *)

From Stdlib Require Import ZArith Lia Bool Ascii String.
From stdpp Require Import gmap strings list sorting.

Local Open Scope Z_scope.

(** ** Machine integers *)

Definition maxUint64 : Z := 2 ^ 64 - 1.

(** Wrap-around of [uint64] arithmetic. *)
Definition u64 (z : Z) : Z := z mod 2 ^ 64.

(** ** Data model *)

(** [type funcRange struct]. *)
Record funcRange := mkFuncRange {
  name : string;
  lowpc : Z;
  highpc : Z;
  demangled : bool
}.

(** The fields of [dwarf.LineEntry] the package reads or compares;
    [le_File] stands for the [*LineFile] ([None] is the nil pointer). *)
Record LineEntry := mkLineEntry {
  Address : Z;
  le_File : option string;
  le_Line : Z;
  le_Column : Z;
  EndSequence : bool
}.

(** The zero value [dwarf.LineEntry{}]. *)
Definition LineEntry_zero : LineEntry := mkLineEntry 0 None 0 0 false.

(** [type symbolicExtra struct]. *)
Record symbolicExtra := mkSymbolicExtra {
  functab : option (list funcRange);
  linetab : option (list LineEntry);
  isReloc : bool
}.

(** The fields of [Mmap] that symbolization reads. *)
Record Mmap := mkMmap {
  Filename : string;
  Addr : Z;
  FileOffset : Z
}.

(** [type Symbolic struct]. *)
Record Symbolic := mkSymbolic {
  FuncName : string;
  Line : LineEntry
}.

(** ** [sort.Search]

    [for i < j { h := int(uint(i+j) >> 1); if !f(h) { i = h + 1 } else
    { j = h } }; return i].  The loop runs at most [n] times from
    [(0, n)], so [n] is enough fuel ([Search_loop_fuel_irrelevant]). *)
Fixpoint Search_loop (fuel : nat) (f : nat -> bool) (i j : nat) : nat :=
  match fuel with
  | O => i
  | S fuel' =>
      if (i <? j)%nat then
        let h := ((i + j) / 2)%nat in
        if negb (f h) then Search_loop fuel' f (h + 1)%nat j
        else Search_loop fuel' f i h
      else i
  end.

Definition Search (n : nat) (f : nat -> bool) : nat := Search_loop n f 0%nat n.

(** ** Address lookup *)

(** What [findIP] leaves behind: the table after the in-place demangling,
    the two returned pointers as indices, and the index of the range
    whose name was passed to [demangle.Filter] by this call, if any. *)
Record findIPResult := mkFindIPResult {
  fr_table : symbolicExtra;
  fr_f : option nat;
  fr_l : option nat;
  fr_filtered : option nat
}.

(** The predicate closures handed to [sort.Search]. *)
Definition functab_pred (tab : list funcRange) (ip : Z) (i : nat) : bool :=
  match tab !! i with
  | Some r => ip <? highpc r
  | None => false
  end.

Definition linetab_pred (tab : list LineEntry) (ip : Z) (i : nat) : bool :=
  match tab !! i with
  | Some l => ip <? Address l
  | None => false
  end.

Section Lookup.

(** [demangle.Filter], an opaque transform on names. *)
Variable demangle_Filter : string -> string.

(** The first block of [findIP]: returns the (possibly reassigned)
    local [ip], the table, [f] and the [Filter] call. *)
Definition findIP_func (s : symbolicExtra) (mmap : Mmap) (ip : Z)
  : Z * option (list funcRange) * option nat * option nat :=
  match functab s with
  | None => (ip, None, None, None)
  | Some tab =>
      let ip := if isReloc s
                then u64 (u64 (ip - Addr mmap) + FileOffset mmap)
                else ip in
      let i := Search (length tab) (functab_pred tab ip) in
      match tab !! i with
      | Some r =>
          if (lowpc r <=? ip) && (ip <? highpc r) then
            if negb (demangled r) then
              let r' := mkFuncRange (demangle_Filter (name r))
                                    (lowpc r) (highpc r) true in
              (ip, Some (<[i := r']> tab), Some i, Some i)
            else (ip, Some tab, Some i, None)
          else (ip, Some tab, None, None)
      | None => (ip, Some tab, None, None)
      end
  end.

(** The second block of [findIP], run on whatever [ip] now holds. *)
Definition findIP_line (s : symbolicExtra) (ip : Z) : option nat :=
  match linetab s with
  | None => None
  | Some lt =>
      let i := Search (length lt) (linetab_pred lt ip) in
      if (i =? 0)%nat then None
      else match lt !! (i - 1)%nat with
           | Some l => if negb (EndSequence l) then Some (i - 1)%nat else None
           | None => None
           end
  end.

(** [func (s *symbolicExtra) findIP(mmap *Mmap, ip uint64)]. *)
Definition findIP (s : symbolicExtra) (mmap : Mmap) (ip : Z) : findIPResult :=
  let '(ip', tab', f, c) := findIP_func s mmap ip in
  let l := findIP_line s ip' in
  mkFindIPResult (mkSymbolicExtra tab' (linetab s) (isReloc s)) f l c.

(** Dereferencing the returned pointers. *)
Definition fr_func (r : findIPResult) : option funcRange :=
  match fr_f r, functab (fr_table r) with
  | Some i, Some tab => tab !! i
  | _, _ => None
  end.

Definition fr_line (r : findIPResult) : option LineEntry :=
  match fr_l r, linetab (fr_table r) with
  | Some i, Some lt => lt !! i
  | _, _ => None
  end.

End Lookup.

(** ** Outcomes

    A Go call either returns or ends the process ([log.Fatal] calls
    [os.Exit(1)]; an out-of-range slice expression panics).  A returned
    [(value, error)] pair is a [result]. *)

Definition error := string.

Inductive result (A : Type) : Type :=
| Val (a : A)
| Err (e : error).
Arguments Val {A} a.
Arguments Err {A} e.

Inductive abort : Type :=
| LogFatal (msg : string)
| Panic (msg : string).

Inductive outcome (A : Type) : Type :=
| Ok (a : A)
| Abort (why : abort).
Arguments Ok {A} a.
Arguments Abort {A} why.

Definition obind {A B} (m : outcome A) (k : A -> outcome B) : outcome B :=
  match m with
  | Ok a => k a
  | Abort w => Abort w
  end.

Notation "'let*' x ':=' m 'in' k" := (obind m (fun x => k))
  (at level 10, x pattern, m at level 200, k at level 200).

(** ** Range tables: ordering and gap filling *)

(** [funcRangeSorter.Less]. *)
Definition Less (a b : funcRange) : bool := lowpc a <? lowpc b.

(** What [sort.Sort] guarantees of its result: no later element is
    [Less] than an earlier one. *)
Definition sorted_by_lowpc (tab : list funcRange) : Prop :=
  StronglySorted (fun a b => lowpc a <= lowpc b) tab.

Definition set_highpc (r : funcRange) (h : Z) : funcRange :=
  mkFuncRange (name r) (lowpc r) h (demangled r).

(** One iteration of the loop of [setFuncHighPCs] on the slice of length
    [n], updating it in place. *)
Definition setFuncHighPCs_step (n : nat) (functab : list funcRange) (i : nat)
  : list funcRange :=
  match functab !! i with
  | Some r =>
      if highpc r =? lowpc r then
        if (i =? n - 1)%nat then
          <[i := set_highpc r (u64 (highpc r + 1))]> functab
        else
          match functab !! (i + 1)%nat with
          | Some r' => <[i := set_highpc r (lowpc r')]> functab
          | None => functab
          end
      else functab
  | None => functab
  end.

(** [func setFuncHighPCs(functab []funcRange)]: [for i := range functab]. *)
Definition setFuncHighPCs (functab : list funcRange) : list funcRange :=
  fold_left (setFuncHighPCs_step (length functab))
            (seq 0 (length functab)) functab.

(** ** DWARF data, as the [debug/dwarf] reader presents it

    The [.debug_info] section is the flat sequence of entries the reader
    decodes: an entry says whether children follow, and a null entry
    (tag 0) closes a list of children.  [ItemBad] is a place where
    decoding fails.  A compilation unit carries the outcome of
    [LineReader] on it. *)

Inductive Tag : Type :=
| TagNull
| TagCompileUnit
| TagSubprogram
| TagModule
| TagNamespace
| TagOther (code : Z).

(** The dynamic type of [ent.Val(dwarf.AttrHighpc)]. *)
Inductive highpcVal : Type :=
| HighpcAddr (v : Z)      (* uint64 *)
| HighpcOffset (v : Z)    (* int64 *)
| HighpcOther.            (* absent, or any other class *)

(** [dwarff.LineReader(ent)] and the entries [lr.Next] then yields, up
    to [io.EOF] ([None]) or a decoding error. *)
Inductive lineProgram : Type :=
| LineReaderErr (e : error)
| LineReaderNil
| LineReaderOk (entries : list LineEntry) (stop : option error).

Record Entry := mkEntry {
  e_Tag : Tag;
  e_Children : bool;
  e_LinkageName : option string;   (* Val(0x6e).(string) *)
  e_Name : option string;          (* Val(AttrName).(string) *)
  e_Lowpc : option Z;              (* Val(AttrLowpc).(uint64) *)
  e_Highpc : highpcVal;
  e_lines : lineProgram
}.

Inductive Item : Type :=
| ItemEntry (e : Entry)
| ItemBad (err : error).

Definition dwarf_Data := list Item.

(** [dwarf.Reader]: the undecoded rest, whether the last entry has
    children, and the sticky error. *)
Record Reader := mkReader {
  r_rest : list Item;
  r_lastChildren : bool;
  r_err : option error
}.

Definition Data_Reader (d : dwarf_Data) : Reader := mkReader d false None.

(** [Reader.Next]: [Val None] is [(nil, nil)], the end of the section. *)
Definition Reader_Next (r : Reader) : result (option Entry) * Reader :=
  match r_err r with
  | Some e => (Err e, r)
  | None =>
      match r_rest r with
      | [] => (Val None, r)
      | ItemBad e :: _ => (Err e, mkReader (r_rest r) (r_lastChildren r) (Some e))
      | ItemEntry ent :: rest => (Val (Some ent), mkReader rest (e_Children ent) None)
      end
  end.

(** The loop of [Reader.SkipChildren], reading entries until the null
    entry that closes the current list of children; [depth] counts the
    nested lists entered on the way (the recursive calls). *)
Fixpoint skip_siblings (depth : nat) (s : list Item) : list Item * option error :=
  match s with
  | [] => ([], None)
  | ItemBad e :: _ => (s, Some e)
  | ItemEntry ent :: rest =>
      match e_Tag ent with
      | TagNull =>
          match depth with
          | O => (rest, None)
          | S d => skip_siblings d rest
          end
      | _ => if e_Children ent then skip_siblings (S depth) rest
             else skip_siblings depth rest
      end
  end.

Definition Reader_SkipChildren (r : Reader) : Reader :=
  match r_err r with
  | Some _ => r
  | None =>
      if r_lastChildren r then
        let '(rest, err) := skip_siblings 0 (r_rest r) in
        mkReader rest false err
      else r
  end.

(** The body of [case dwarf.TagSubprogram]: the range of an entry, or
    [None] where the source leaves the [switch] without appending. *)
Definition subprogram_range (ent : Entry) : option funcRange :=
  let named :=
    match e_LinkageName ent with
    | Some n => Some (n, true)
    | None =>
        match e_Name ent with
        | Some n => Some (n, false)
        | None => None
        end
    end in
  match named with
  | None => None
  | Some (nm, dem) =>
      match e_Lowpc ent with
      | None => None
      | Some lo =>
          match e_Highpc ent with
          | HighpcAddr h => Some (mkFuncRange nm lo h dem)
          | HighpcOffset h => Some (mkFuncRange nm lo (u64 (lo + u64 h)) dem)
          | HighpcOther => None
          end
      end
  end.

(** The [for] loop of [dwarfFuncTable].  Every iteration that does not
    leave the loop consumes an entry, so one more than the number of
    items is enough fuel. *)
Fixpoint dwarfFuncTable_loop (fuel : nat) (r : Reader) (out : list funcRange)
  : list funcRange :=
  match fuel with
  | O => out
  | S fuel' =>
      let '(res, r) := Reader_Next r in
      match res with
      | Val (Some ent) =>
          match e_Tag ent with
          | TagSubprogram =>
              let r := Reader_SkipChildren r in
              match subprogram_range ent with
              | Some fr => dwarfFuncTable_loop fuel' r (out ++ [fr])
              | None => dwarfFuncTable_loop fuel' r out
              end
          | TagCompileUnit | TagModule | TagNamespace =>
              dwarfFuncTable_loop fuel' r out
          | _ => dwarfFuncTable_loop fuel' (Reader_SkipChildren r) out
          end
      | _ => out
      end
  end.

(** The outer and inner [for] loops of [dwarfLineTable]. *)
Fixpoint dwarfLineTable_loop (fuel : nat) (dr : Reader) (out : list LineEntry)
  : outcome (list LineEntry) :=
  match fuel with
  | O => Ok out
  | S fuel' =>
      let '(res, dr) := Reader_Next dr in
      match res with
      | Val (Some ent) =>
          match e_Tag ent with
          | TagCompileUnit =>
              match e_lines ent with
              | LineReaderErr e => Abort (LogFatal e)
              | LineReaderNil => dwarfLineTable_loop fuel' dr out
              | LineReaderOk entries (Some e) => Abort (LogFatal e)
              | LineReaderOk entries None =>
                  dwarfLineTable_loop fuel' dr (out ++ entries)
              end
          | _ => dwarfLineTable_loop fuel' (Reader_SkipChildren dr) out
          end
      | _ => Ok out
      end
  end.

(** [func dwarfLineTable(dwarff *dwarf.Data) []dwarf.LineEntry]: the
    result is never the nil slice. *)
Definition dwarfLineTable (dwarff : dwarf_Data) : outcome (list LineEntry) :=
  dwarfLineTable_loop (S (length dwarff)) (Data_Reader dwarff) [].

(** ** ELF files, as [debug/elf] presents them *)

Inductive elfType : Type :=
| ET_NONE
| ET_REL
| ET_EXEC
| ET_DYN
| ET_CORE
| ET_OTHER (code : Z).

Record elfSection := mkElfSection {
  sec_Name : string;
  sec_Addr : Z;
  sec_Offset : Z
}.

Record elfSymbol := mkElfSymbol {
  sym_Name : string;
  sym_Info : Z;
  sym_Section : Z;
  sym_Value : Z;
  sym_Size : Z
}.

(** The three ways [elff.Symbols()] returns. *)
Inductive symbolsResult : Type :=
| SymbolsOk (syms : list elfSymbol)
| SymbolsErrNoSymbols
| SymbolsErrOther (e : error).

Record elfFile := mkElfFile {
  elf_Type : elfType;
  elf_Sections : list elfSection;
  elf_DWARF : result dwarf_Data;
  elf_Symbols : symbolsResult
}.

(** [elff.Section(name) != nil]. *)
Definition elf_has_Section (elff : elfFile) (nm : string) : bool :=
  existsb (fun sec => String.eqb (sec_Name sec) nm) (elf_Sections elff).

Definition STT_FUNC : Z := 2.
Definition SHN_UNDEF : Z := 0.

Definition is_ET_EXEC (t : elfType) : bool :=
  match t with ET_EXEC => true | _ => false end.

(** The body of [for _, sym := range syms] in [elfFuncTable]. *)
Definition elfFuncTable_step (elff : elfFile) (isReloc : bool)
    (out : list funcRange) (sym : elfSymbol) : list funcRange :=
  if negb (Z.land (sym_Info sym) 15 =? STT_FUNC) || (sym_Section sym =? SHN_UNDEF)
  then out
  else
    let lowpc := sym_Value sym in
    if isReloc then
      if sym_Section sym >=? Z.of_nat (length (elf_Sections elff)) then out
      else
        match elf_Sections elff !! Z.to_nat (sym_Section sym) with
        | Some sec =>
            let lowpc := u64 (u64 (lowpc - sec_Addr sec) + sec_Offset sec) in
            out ++ [mkFuncRange (sym_Name sym) lowpc (u64 (lowpc + sym_Size sym)) false]
        | None => out
        end
    else out ++ [mkFuncRange (sym_Name sym) lowpc (u64 (lowpc + sym_Size sym)) false].

(** ** The kernel-symbol text format *)

(** A text file as [bufio.Scanner] presents it: the lines it yields and
    the error [scanner.Err()] reports once it stops. *)
Record textFile := mkTextFile {
  tf_lines : list string;
  tf_err : option error
}.

Definition is_hex (c : ascii) : bool :=
  let n := nat_of_ascii c in
  ((48 <=? n) && (n <=? 57) || (65 <=? n) && (n <=? 70)
   || (97 <=? n) && (n <=? 102))%nat.

Definition space : ascii := " "%char.
Definition newline : ascii := ascii_of_nat 10.

(** The first group of the pattern: hexadecimal digits, greedy. *)
Fixpoint span_hex (s : string) : string * string :=
  match s with
  | String c rest =>
      if is_hex c then let '(h, r) := span_hex rest in (String c h, r)
      else (EmptyString, s)
  | EmptyString => (EmptyString, EmptyString)
  end.

Fixpoint count_spaces (s : string) : nat :=
  match s with
  | String c rest => if Ascii.eqb c space then S (count_spaces rest) else O
  | EmptyString => O
  end.

Fixpoint drop_string (n : nat) (s : string) : string :=
  match n, s with
  | S n', String _ rest => drop_string n' rest
  | _, _ => s
  end.

(** The last group: any characters, greedy; a dot does not match a
    newline. *)
Fixpoint until_newline (s : string) : string :=
  match s with
  | String c rest =>
      if Ascii.eqb c newline then EmptyString else String c (until_newline rest)
  | EmptyString => EmptyString
  end.

(** The rest of the pattern (one character, one space, the last group)
    after [m] spaces were given to the run of spaces. *)
Definition match_after (m : nat) (r : string) : option (ascii * string) :=
  match drop_string m r with
  | String c (String sp rest) =>
      if negb (Ascii.eqb c newline) && Ascii.eqb sp space
      then Some (c, until_newline rest)
      else None
  | _ => None
  end.

(** Backtracking of the greedy run of spaces: most spaces first. *)
Fixpoint match_spaces (m : nat) (r : string) : option (ascii * string) :=
  match m with
  | O => None
  | S m' =>
      match match_after m r with
      | Some x => Some x
      | None => match_spaces m' r
      end
  end.

(** [kallsymsRe.FindStringSubmatch], for the pattern of hexadecimal
    digits, one or more spaces, one character, one space and the rest:
    [subs[1]], the first byte of [subs[2]], and [subs[3]].  The model
    reads the single character as one byte; a multi-byte character in that place makes no
    difference to [newKallsyms], whose test on the first byte of
    [subs[2]] fails for it either way. *)
Definition kallsymsRe_FindStringSubmatch (text : string)
  : option (string * ascii * string) :=
  let '(h, r) := span_hex text in
  match match_spaces (count_spaces r) r with
  | Some (typ, nm) => Some (h, typ, nm)
  | None => None
  end.

Definition hex_digit (c : ascii) : option Z :=
  let n := nat_of_ascii c in
  if ((48 <=? n) && (n <=? 57))%nat then Some (Z.of_nat n - 48)
  else if ((65 <=? n) && (n <=? 70))%nat then Some (Z.of_nat n - 55)
  else if ((97 <=? n) && (n <=? 102))%nat then Some (Z.of_nat n - 87)
  else None.

(** The digit loop of [strconv.ParseUint(s, 16, 64)], keeping only the
    returned value (the caller drops the error): the value saturates at
    [maxUint64] on overflow and is [0] on a syntax error. *)
Fixpoint ParseUint16_loop (s : string) (n : Z) : Z :=
  match s with
  | EmptyString => n
  | String c rest =>
      match hex_digit c with
      | None => 0
      | Some d =>
          if n >=? maxUint64 / 16 + 1 then maxUint64
          else
            let n := u64 (n * 16) in
            let n1 := u64 (n + d) in
            if (n1 <? n) || (n1 >? maxUint64) then maxUint64
            else ParseUint16_loop rest n1
      end
  end.

Definition ParseUint16 (s : string) : Z := ParseUint16_loop s 0.

Definition is_text_type (typ : ascii) : bool :=
  Ascii.eqb typ "t"%char || Ascii.eqb typ "T"%char.

(** The body of [for scanner.Scan()] in [newKallsyms]. *)
Definition newKallsyms_step (functab : list funcRange) (text : string)
  : list funcRange :=
  match kallsymsRe_FindStringSubmatch text with
  | None => functab
  | Some (addr_s, typ, nm) =>
      if negb (is_text_type typ) then functab
      else
        let addr := ParseUint16 addr_s in
        functab ++ [mkFuncRange nm addr addr true]
  end.

(** ** The session *)

(** A build-ID record of the session's file; [bid_BuildID] is the
    identifier as [BuildID.String()] renders it. *)
Record BuildIDInfo := mkBuildIDInfo {
  bid_Filename : string;
  bid_BuildID : string
}.

(** What the package does to the outside: calls of its two loaders and
    lines handed to [log.Println]. *)
Inductive event : Type :=
| LoadKallsyms (path : string)
| LoadELF (path : string)
| LogPrintln (msg : string).

(** [session.File.Meta.BuildIDs], the entry of [session.Extra] under
    [symbolicExtraKey] ([None] until the first call creates the map; a
    key bound to [None] is a stored nil pointer), and the events so
    far. *)
Record Session := mkSession {
  BuildIDs : list BuildIDInfo;
  Extra_symbolic : option (gmap string (option symbolicExtra));
  trace : list event
}.

Definition kallsyms_name : string := "[kernel.kallsyms]".

(** The key of the memo table for a mapping's file name. *)
Definition memo_key (filename : string) : string :=
  if String.prefix kallsyms_name filename then kallsyms_name else filename.

Section Loader.

(** [demangle.Filter]. *)
Variable demangle_Filter : string -> string.

(** The effect of [sort.Sort(funcRangeSorter(out))] on [out].  The
    library promises a sorted permutation and no stability. *)
Variable sort_Sort : list funcRange -> list funcRange.

(** The file system: [elf.Open] and [os.Open] followed by the scan. *)
Variable elf_Open : string -> result elfFile.
Variable os_Open : string -> result textFile.

(** The package variable [buildIDDir]. *)
Variable buildIDDir : string.

(** [func dwarfFuncTable(dwarff *dwarf.Data) []funcRange]. *)
Definition dwarfFuncTable (dwarff : dwarf_Data) : option (list funcRange) :=
  let out := dwarfFuncTable_loop (S (length dwarff)) (Data_Reader dwarff) [] in
  let out := sort_Sort out in
  if (length out =? 0)%nat then None else Some out.

(** [func elfFuncTable(filename string, elff *elf.File) (out []funcRange,
    isReloc bool)]. *)
Definition elfFuncTable (filename : string) (elff : elfFile)
  : outcome (option (list funcRange) * bool) :=
  let go (isReloc : bool) :=
    match elf_Symbols elff with
    | SymbolsErrOther err => Abort (LogFatal (filename +:+ ": " +:+ err))
    | SymbolsErrNoSymbols => Ok (None, false)
    | SymbolsOk syms =>
        let out := fold_left (elfFuncTable_step elff isReloc) syms [] in
        let out := sort_Sort out in
        Ok (Some (setFuncHighPCs out), isReloc)
    end in
  match elf_Type elff with
  | ET_EXEC => go false
  | ET_DYN => go true
  | _ => Ok (None, false)
  end.

(** [func newSymbolicExtra(filename string)], returning a pointer to a
    [symbolicExtra] and an [error]. *)
Definition newSymbolicExtra (filename : string)
  : outcome (result symbolicExtra) :=
  match elf_Open filename with
  | Err err =>
      Ok (Err ("error loading ELF file " +:+ filename +:+ ": " +:+ err))
  | Val elff =>
      let extra := mkSymbolicExtra None None false in
      if is_ET_EXEC (elf_Type elff)
         && (elf_has_Section elff ".debug_info"
             || elf_has_Section elff ".zdebug_info")
      then
        match elf_DWARF elff with
        | Err err =>
            Ok (Err ("error loading DWARF from " +:+ filename +:+ ": " +:+ err))
        | Val dwarff =>
            let ft := dwarfFuncTable dwarff in
            let* lt := dwarfLineTable dwarff in
            let extra := mkSymbolicExtra ft (Some lt) (isReloc extra) in
            let ft' := dwarfFuncTable dwarff in
            let* lt' := dwarfLineTable dwarff in
            Ok (Val (mkSymbolicExtra ft' (Some lt') false))
        end
      else
        match functab extra with
        | None =>
            let* (ft, rel) := elfFuncTable filename elff in
            Ok (Val (mkSymbolicExtra ft (linetab extra) rel))
        | Some _ => Ok (Val extra)
        end
  end.

(** [func newKallsyms(filename string)], returning a pointer to a
    [symbolicExtra] and an [error]; it has no way to end the process. *)
Definition newKallsyms (filename : string) : result symbolicExtra :=
  match os_Open filename with
  | Err err => Err ("error loading kallsyms from " +:+ filename +:+ ": " +:+ err)
  | Val f =>
      let functab := fold_left newKallsyms_step (tf_lines f) [] in
      match tf_err f with
      | Some err => Err err
      | None =>
          let functab := sort_Sort functab in
          let functab := setFuncHighPCs functab in
          Val (mkSymbolicExtra (Some functab) None false)
      end
  end.

(** The path in the build-ID cache; the slice expression
    [bid.BuildID.String()[2:]] panics on a shorter string. *)
Definition buildID_path (bid : BuildIDInfo) : outcome string :=
  if (String.length (bid_BuildID bid) <? 2)%nat
  then Abort (Panic "slice bounds out of range")
  else Ok (buildIDDir +:+ "/.build-id/" +:+ substring 0 2 (bid_BuildID bid)
           +:+ "/" +:+ drop_string 2 (bid_BuildID bid)).

(** [for _, bid := range session.File.Meta.BuildIDs]: [extra] is the
    variable of that name, [tr] the events so far.  A [break] is the
    return without recursion. *)
Fixpoint buildID_loop (bids : list BuildIDInfo) (filename : string)
    (isKallsyms : bool) (extra : option symbolicExtra) (tr : list event)
  : outcome (option symbolicExtra * list event) :=
  match bids with
  | [] => Ok (extra, tr)
  | bid :: rest =>
      if String.eqb (bid_Filename bid) filename then
        let* nfilename := buildID_path bid in
        let* (res, tr) :=
          (if isKallsyms
           then Ok (newKallsyms nfilename, tr ++ [LoadKallsyms nfilename])
           else let* r := newSymbolicExtra nfilename in
                Ok (r, tr ++ [LoadELF nfilename])) in
        match res with
        | Val e => Ok (Some e, tr)
        | Err _ => buildID_loop rest filename isKallsyms None tr
        end
      else buildID_loop rest filename isKallsyms extra tr
  end.

Definition tables_of (session : Session)
  : gmap string (option symbolicExtra) :=
  match Extra_symbolic session with
  | Some tables => tables
  | None => ∅
  end.

(** [func getSymbolicExtra(session *Session, filename string)],
    returning a pointer to a [symbolicExtra] or nil. *)
Definition getSymbolicExtra (session : Session) (filename : string)
  : outcome (option symbolicExtra * Session) :=
  let tables := tables_of session in
  let isKallsyms := String.prefix kallsyms_name filename in
  let filename := if isKallsyms then kallsyms_name else filename in
  match tables !! filename with
  | Some extra =>
      Ok (extra, mkSession (BuildIDs session) (Some tables) (trace session))
  | None =>
      let tables := <[filename := None]> tables in
      let* (extra, tr) :=
        buildID_loop (BuildIDs session) filename isKallsyms None
                     (trace session) in
      let* (extra, tr) :=
        match extra with
        | None =>
            let* r := newSymbolicExtra filename in
            match r with
            | Val e => Ok (Some e, tr ++ [LoadELF filename])
            | Err err => Ok (None, tr ++ [LoadELF filename; LogPrintln err])
            end
        | Some _ => Ok (extra, tr)
        end in
      Ok (extra, mkSession (BuildIDs session)
                           (Some (<[filename := extra]> tables)) tr)
  end.

(** [func Symbolize(session *Session, mmap *Mmap, ip uint64, out
    *Symbolic) bool].  The table [findIP] updates in place is the one
    the memo table points to, so the update is stored back. *)
Definition Symbolize (session : Session) (mmap : Mmap) (ip : Z)
    (out : Symbolic) : outcome (bool * Symbolic * Session) :=
  let* (s, session) := getSymbolicExtra session (Filename mmap) in
  match s with
  | None => Ok (false, out, session)
  | Some s =>
      let r := findIP demangle_Filter s mmap ip in
      let session :=
        mkSession (BuildIDs session)
                  (Some (<[memo_key (Filename mmap) := Some (fr_table r)]>
                           (tables_of session)))
                  (trace session) in
      let FuncName :=
        match fr_func r with
        | None => EmptyString
        | Some f => name f
        end in
      let Line :=
        match fr_line r with
        | None => LineEntry_zero
        | Some l => l
        end in
      Ok (true, mkSymbolic FuncName Line, session)
  end.

End Loader.

(** ** Concrete instances used by the examples *)

Definition lowpc_le (a b : funcRange) : Prop := lowpc a <= lowpc b.

#[local] Instance lowpc_le_dec : RelDecision lowpc_le.
Proof. intros a b. unfold lowpc_le. apply _. Defined.

(** A sorting function that meets the promise of [sort.Sort]. *)
Definition sort_by_lowpc : list funcRange -> list funcRange :=
  merge_sort lowpc_le.

(** A stand-in for [demangle.Filter]: drops a leading ["_Z"]. *)
Definition strip_Z (s : string) : string :=
  match s with
  | String "_" (String "Z" rest) => rest
  | _ => s
  end.

(** ** Range-table predicates *)

(** Each range is well formed and ends at or before the start of the
    next one. *)
Fixpoint chainedb (tab : list funcRange) : bool :=
  match tab with
  | [] => true
  | r :: rest =>
      (lowpc r <=? highpc r)
      && match rest with
         | [] => true
         | r' :: _ => highpc r <=? lowpc r'
         end
      && chainedb rest
  end.

Fixpoint sorted_by_lowpcb (tab : list funcRange) : bool :=
  match tab with
  | [] => true
  | r :: rest => forallb (fun r' => lowpc r <=? lowpc r') rest && sorted_by_lowpcb rest
  end.

(** The address the function lookup searches for. *)
Definition translated (s : symbolicExtra) (mmap : Mmap) (ip : Z) : Z :=
  if isReloc s then u64 (u64 (ip - Addr mmap) + FileOffset mmap) else ip.

(** The name a range has once [findIP] has returned it. *)
Definition returned_name (demangle_Filter : string -> string) (r : funcRange)
  : string :=
  if demangled r then name r else demangle_Filter (name r).

(** What the function lookup of a [findIP] call leaves: the table, the
    returned range and the [Filter] call. *)
Definition func_part (r : findIPResult)
  : option (list funcRange) * option nat * option nat :=
  (functab (fr_table r), fr_f r, fr_filtered r).

(** The invariant of every table the loaders build: a line table comes
    with virtual addresses. *)
Definition image_invb (s : symbolicExtra) : bool :=
  match linetab s with
  | Some _ => negb (isReloc s)
  | None => true
  end.

(** An executable whose symbol table has one function inside another. *)
Definition nested_elf : elfFile :=
  mkElfFile ET_EXEC []
            (Err "no DWARF data")
            (SymbolsOk [mkElfSymbol "outer" 18 1 0 100;
                        mkElfSymbol "inner" 18 1 10 10]).

Definition nested_tab : list funcRange :=
  [mkFuncRange "outer" 0 100 false; mkFuncRange "inner" 10 20 false].

(** Two functions of a well-formed table, and a mapping at [0x7000]. *)
Definition chained_tab : list funcRange :=
  [mkFuncRange "_Zfoo" 4096 4112 false; mkFuncRange "bar" 4112 4200 true].

Definition mmap_7000 : Mmap := mkMmap "lib.so" 28672 0.

(** No entry of a line table has a smaller address than an earlier
    one. *)
Fixpoint sorted_by_Addressb (lt : list LineEntry) : bool :=
  match lt with
  | [] => true
  | l :: rest =>
      forallb (fun l' => Address l <=? Address l') rest && sorted_by_Addressb rest
  end.

(** Scenario A of the specification: [foo] at [[0x1000, 0x1010)] and a
    line entry for [file.c:10] at [0x1000]. *)
Definition scenario_A : symbolicExtra :=
  mkSymbolicExtra
    (Some [mkFuncRange "foo" 4096 4112 false])
    (Some [mkLineEntry 4096 (Some "file.c") 10 0 false;
           mkLineEntry 4112 (Some "file.c") 10 0 true])
    false.

(** The range [findIP] stores over a range it demangles. *)
Definition demangle_range (demangle_Filter : string -> string) (r : funcRange)
  : funcRange :=
  mkFuncRange (demangle_Filter (name r)) (lowpc r) (highpc r) true.

(** A sequence of [findIP] calls on one image table, each on the table
    the previous call left. *)
Fixpoint findIP_run (demangle_Filter : string -> string) (s : symbolicExtra)
    (qs : list (Mmap * Z)) : list findIPResult :=
  match qs with
  | [] => []
  | (mmap, ip) :: rest =>
      let r := findIP demangle_Filter s mmap ip in
      r :: findIP_run demangle_Filter (fr_table r) rest
  end.

Definition filtered_at (i : nat) (r : findIPResult) : bool :=
  match fr_filtered r with
  | Some j => (j =? i)%nat
  | None => false
  end.

(** How often the name of range [i] was passed to [demangle.Filter]. *)
Fixpoint filter_calls (i : nat) (rs : list findIPResult) : nat :=
  match rs with
  | [] => 0%nat
  | r :: rest => ((if filtered_at i r then 1 else 0) + filter_calls i rest)%nat
  end.

(** Three lookups, two of them inside the first range of
    [chained_tab]. *)
Definition three_queries : list (Mmap * Z) :=
  [(mkMmap "a.out" 0 0, 4100); (mkMmap "a.out" 0 0, 4150);
   (mkMmap "a.out" 0 0, 4096)].

(** What gap filling is to make of the range at index [i] of a sorted
    table: a zero-width range is extended to the low address of the
    next range, or by one for the last range. *)
Definition fill_highpc (tab : list funcRange) (i : nat) (r : funcRange)
  : funcRange :=
  if highpc r =? lowpc r then
    match tab !! S i with
    | Some r' => set_highpc r (lowpc r')
    | None => set_highpc r (u64 (lowpc r + 1))
    end
  else r.

(** Each range ends at or before the low address of the next. *)
Fixpoint disjointb (tab : list funcRange) : bool :=
  match tab with
  | [] => true
  | r :: rest =>
      match rest with
      | [] => true
      | r' :: _ => highpc r <=? lowpc r'
      end && disjointb rest
  end.

(** Each range but the last is zero-width or ends where the next
    begins. *)
Fixpoint gaplessb (tab : list funcRange) : bool :=
  match tab with
  | [] => true
  | r :: rest =>
      match rest with
      | [] => true
      | r' :: _ => (highpc r =? lowpc r) || (highpc r =? lowpc r')
      end && gaplessb rest
  end.

(** A line of the kernel-symbol file that [newKallsyms] turns into a
    range. *)
Definition text_symbol_line (text : string) : bool :=
  match kallsymsRe_FindStringSubmatch text with
  | Some (_, typ, _) => is_text_type typ
  | None => false
  end.

(** An executable with debug information whose only subprogram has
    equal low and high addresses. *)
Definition zero_width_dwarf : dwarf_Data :=
  [ItemEntry (mkEntry TagCompileUnit true None (Some "unit.c") None
                      HighpcOther LineReaderNil);
   ItemEntry (mkEntry TagSubprogram false None (Some "f")
                      (Some 4096) (HighpcAddr 4096) LineReaderNil);
   ItemEntry (mkEntry TagNull false None None None HighpcOther LineReaderNil)].

Definition zero_width_elf : elfFile :=
  mkElfFile ET_EXEC [mkElfSection ".debug_info" 0 8192]
            (Val zero_width_dwarf) SymbolsErrNoSymbols.

(** An executable without debug information whose two function symbols
    have sizes and lie apart. *)
Definition apart_elf : elfFile :=
  mkElfFile ET_EXEC [mkElfSection ".text" 0 4096]
            (Err "no DWARF data")
            (SymbolsOk [mkElfSymbol "foo" 18 1 0 10;
                        mkElfSymbol "bar" 18 1 20 10]).

(** Scenario A of the specification as an ELF file. *)
Definition scenario_A_dwarf : dwarf_Data :=
  [ItemEntry (mkEntry TagCompileUnit true None (Some "file.c") None
                HighpcOther
                (LineReaderOk [mkLineEntry 4096 (Some "file.c") 10 0 false;
                               mkLineEntry 4112 (Some "file.c") 10 0 true]
                              None));
   ItemEntry (mkEntry TagSubprogram false None (Some "foo")
                      (Some 4096) (HighpcOffset 16) LineReaderNil);
   ItemEntry (mkEntry TagNull false None None None HighpcOther LineReaderNil)].

Definition scenario_A_elf : elfFile :=
  mkElfFile ET_EXEC
            [mkElfSection ".text" 4096 4096; mkElfSection ".debug_info" 0 8192]
            (Val scenario_A_dwarf) SymbolsErrNoSymbols.

(** Scenario B: a shared object with one function symbol [bar] at
    section-relative value [0x50], size [0x10], in a section at address
    [0] and file offset [0x200]. *)
Definition scenario_B_elf : elfFile :=
  mkElfFile ET_DYN
            [mkElfSection "" 0 0; mkElfSection ".text" 0 512]
            (Err "no DWARF data")
            (SymbolsOk [mkElfSymbol "bar" 18 1 80 16]).

(** An executable whose symbol table cannot be read. *)
Definition unreadable_symbols_elf : elfFile :=
  mkElfFile ET_EXEC [mkElfSection ".text" 4096 4096]
            (Err "no DWARF data") (SymbolsErrOther "bad symbol table").

(** An executable whose line-number program cannot be decoded. *)
Definition bad_lines_elf : elfFile :=
  mkElfFile ET_EXEC [mkElfSection ".zdebug_info" 0 8192]
    (Val [ItemEntry (mkEntry TagCompileUnit false None (Some "unit.c") None
                       HighpcOther
                       (LineReaderOk [mkLineEntry 4096 (Some "unit.c") 1 0 false]
                                     (Some "invalid line-number opcode")))])
    SymbolsErrNoSymbols.

(** A small file system. *)
Definition demo_elf_Open (path : string) : result elfFile :=
  if String.eqb path "/bin/a.out" then Val scenario_A_elf
  else if String.eqb path "/lib/libbar.so" then Val scenario_B_elf
  else if String.eqb path "/bin/zero" then Val zero_width_elf
  else if String.eqb path "/bin/apart" then Val apart_elf
  else if String.eqb path "/bin/nested" then Val nested_elf
  else if String.eqb path "/bin/nosyms" then Val unreadable_symbols_elf
  else if String.eqb path "/bin/badlines" then Val bad_lines_elf
  else Err "no such file or directory".

Definition demo_kallsyms : textFile :=
  mkTextFile ["ffffffff81000000 T start_kernel";
              "ffffffff81000040 t do_one_initcall";
              "ffffffff82000000 D jiffies";
              "not a symbol line"]
             None.

Definition demo_os_Open (path : string) : result textFile :=
  if String.eqb path "/home/u/.debug/.build-id/ab/cdef" then Val demo_kallsyms
  else if String.eqb path "/proc/truncated"
       then Val (mkTextFile ["ffffffff81000000 T start_kernel"]
                            (Some "read /proc/truncated: input/output error"))
  else Err "no such file or directory".

Definition demo_buildIDDir : string := "/home/u/.debug".

(** A fresh session with one build-ID record, for the kernel symbols. *)
Definition demo_session : Session :=
  mkSession [mkBuildIDInfo "[kernel.kallsyms]" "abcdef"] None [].

(** Two kernel symbols as [newKallsyms] collects them, out of order. *)
Definition two_symbols : list funcRange :=
  [mkFuncRange "b" 20 20 true; mkFuncRange "a" 10 10 true].

(** ** Notions used to state the session properties *)

Section SessionNotions.

Variable demangle_Filter : string -> string.
Variable sort_Sort : list funcRange -> list funcRange.
Variable elf_Open : string -> result elfFile.
Variable os_Open : string -> result textFile.
Variable buildIDDir : string.

(** The loader [getSymbolicExtra] calls on a build-ID cache path. *)
Definition load_candidate (isKallsyms : bool) (path : string)
  : outcome (result symbolicExtra) :=
  if isKallsyms then Ok (newKallsyms sort_Sort os_Open path)
  else newSymbolicExtra sort_Sort elf_Open path.

(** A build-ID record of the session names the file and its cache path
    loads. *)
Definition cache_loads (session : Session) (filename : string) : Prop :=
  exists bid path s,
    bid ∈ BuildIDs session
    /\ bid_Filename bid = memo_key filename
    /\ buildID_path buildIDDir bid = Ok path
    /\ load_candidate (String.prefix kallsyms_name filename) path = Ok (Val s).

(** An image can be located for a file name: the memo table holds a
    table for it, or holds nothing yet and the build-ID cache or the
    original path loads. *)
Definition image_located (session : Session) (filename : string) : Prop :=
  match tables_of session !! memo_key filename with
  | Some stored => stored <> None
  | None =>
      cache_loads session filename
      \/ exists s,
           newSymbolicExtra sort_Sort elf_Open (memo_key filename) = Ok (Val s)
  end.

(** Every attempt to load an image for a file name fails with an error
    value, the last one with [err]. *)
Definition all_loads_fail (session : Session) (filename : string)
    (err : error) : Prop :=
  (forall bid, bid ∈ BuildIDs session ->
     bid_Filename bid = memo_key filename ->
     exists path e,
       buildID_path buildIDDir bid = Ok path
       /\ load_candidate (String.prefix kallsyms_name filename) path
          = Ok (Err e))
  /\ newSymbolicExtra sort_Sort elf_Open (memo_key filename) = Ok (Err err).

(** Requests to a session: for the table of a file, or for a symbol. *)
Inductive request : Type :=
| Lookup (filename : string)
| Resolve (mmap : Mmap) (ip : Z).

Definition is_Lookup (q : request) : Prop :=
  match q with
  | Lookup _ => True
  | Resolve _ _ => False
  end.

Definition serve (session : Session) (q : request) : outcome Session :=
  match q with
  | Lookup filename =>
      let* (_, session) :=
        getSymbolicExtra sort_Sort elf_Open os_Open buildIDDir session filename in
      Ok session
  | Resolve mmap ip =>
      let* (_, session) :=
        Symbolize demangle_Filter sort_Sort elf_Open os_Open buildIDDir
                  session mmap ip (mkSymbolic EmptyString LineEntry_zero) in
      Ok session
  end.

Fixpoint serve_all (session : Session) (qs : list request) : outcome Session :=
  match qs with
  | [] => Ok session
  | q :: rest => let* session := serve session q in serve_all session rest
  end.

End SessionNotions.

(** The bounds of the ranges of a table. *)
Definition bounds (ft : option (list funcRange)) : option (list (Z * Z)) :=
  match ft with
  | Some tab => Some ((fun r => (lowpc r, highpc r)) <$> tab)
  | None => None
  end.

(** Two stored results are the same image: both the nil sentinel, or
    tables that differ at most in names demangled in place. *)
Definition same_image (v v' : option symbolicExtra) : Prop :=
  match v, v' with
  | None, None => True
  | Some s, Some s' =>
      bounds (functab s') = bounds (functab s)
      /\ linetab s' = linetab s /\ isReloc s' = isReloc s
  | _, _ => False
  end.

(** Every binding of [t] is still in [t'], as the same image. *)
Definition memo_kept (t t' : gmap string (option symbolicExtra)) : Prop :=
  forall k v, t !! k = Some v -> exists v', t' !! k = Some v' /\ same_image v v'.

(** Every binding of [t] is still in [t'], unchanged. *)
Definition memo_fixed (t t' : gmap string (option symbolicExtra)) : Prop :=
  forall k v, t !! k = Some v -> t' !! k = Some v.

(** Requests made between two requests for the table of one file. *)
Definition demo_requests : list request :=
  [Lookup "/bin/a.out"; Resolve (mkMmap "/bin/a.out" 0 0) 4101;
   Lookup "[kernel.kallsyms]_text"].

(** The test of [newSymbolicExtra] for loading DWARF: an executable
    with a [.debug_info] or [.zdebug_info] section. *)
Definition uses_DWARF (elff : elfFile) : bool :=
  is_ET_EXEC (elf_Type elff)
  && (elf_has_Section elff ".debug_info"
      || elf_has_Section elff ".zdebug_info").

(** The compilation unit [ent] has a line-number program that cannot be
    opened or decoded, with error [msg]. *)
Definition bad_line_program (ent : Entry) (msg : error) : Prop :=
  e_Tag ent = TagCompileUnit
  /\ (e_lines ent = LineReaderErr msg
      \/ exists entries, e_lines ent = LineReaderOk entries (Some msg)).

(** A kernel-symbol file whose last symbol sits at the highest
    address. *)
Definition top_kallsyms : textFile :=
  mkTextFile ["ffffffff81000000 T start_kernel";
              "ffffffffffffffff T top_of_memory"]
             None.

Definition top_os_Open (path : string) : result textFile :=
  if String.eqb path "/proc/kallsyms" then Val top_kallsyms
  else Err "no such file or directory".

(** The table [newKallsyms] builds from [demo_kallsyms], and the one
    it builds from [top_kallsyms]. *)
Definition demo_kallsyms_tab : list funcRange :=
  [mkFuncRange "start_kernel" 18446744071578845184 18446744071578845248 true;
   mkFuncRange "do_one_initcall" 18446744071578845248 18446744071578845249
               true].

Definition top_kallsyms_tab : list funcRange :=
  [mkFuncRange "start_kernel" 18446744071578845184 18446744073709551615 true;
   mkFuncRange "top_of_memory" 18446744073709551615 0 true].

(** A run of [n] spaces, and strings of hexadecimal digits only. *)
Fixpoint spaces (n : nat) : string :=
  match n with
  | O => EmptyString
  | S n' => String space (spaces n')
  end.

Fixpoint all_hexb (s : string) : bool :=
  match s with
  | EmptyString => true
  | String c rest => is_hex c && all_hexb rest
  end.

(** A relocatable object file: neither an executable nor a shared
    object. *)
Definition object_elf : elfFile :=
  mkElfFile ET_REL [mkElfSection ".text" 0 64]
            (Err "no DWARF data")
            (SymbolsOk [mkElfSymbol "f" 18 1 0 16]).

Definition object_elf_Open (path : string) : result elfFile :=
  if String.eqb path "/src/f.o" then Val object_elf
  else Err "no such file or directory".

(** The event of loading a build-ID cache path. *)
Definition cache_event (isKallsyms : bool) (path : string) : event :=
  if isKallsyms then LoadKallsyms path else LoadELF path.

(** A fresh session without build-ID records. *)
Definition empty_session : Session := mkSession [] None [].

(** * Properties *)

(** ** Properties of [sort.Search] *)

Lemma half_bounds (i j : nat) :
  (i < j)%nat -> (i <= (i + j) / 2 < j)%nat.
Proof.
  intros Hlt. split.
  - apply Nat.div_le_lower_bound; lia.
  - apply Nat.Div0.div_lt_upper_bound; lia.
Qed.

Lemma Search_loop_S fuel f i j :
  Search_loop (S fuel) f i j =
  if (i <? j)%nat then
    if negb (f ((i + j) / 2)%nat)
    then Search_loop fuel f ((i + j) / 2 + 1)%nat j
    else Search_loop fuel f i ((i + j) / 2)%nat
  else i.
Proof. reflexivity. Qed.

Lemma Search_loop_bounds fuel f i j :
  (i <= j)%nat -> (i <= Search_loop fuel f i j <= j)%nat.
Proof.
  revert i j. induction fuel as [|fuel IH]; intros i j Hij.
  - simpl. lia.
  - rewrite Search_loop_S.
    destruct (Nat.ltb_spec i j) as [Hlt|Hge]; [|lia].
    pose proof (half_bounds i j Hlt) as Hh.
    destruct (f ((i + j) / 2)%nat); cbn [negb].
    + specialize (IH i ((i + j) / 2)%nat). lia.
    + specialize (IH ((i + j) / 2 + 1)%nat j). lia.
Qed.

(** On a predicate that is false below [m] and true from [m] on, the
    loop returns [m] as soon as the fuel covers the interval. *)
Lemma Search_loop_spec fuel f i j m :
  (i <= m <= j)%nat -> (j - i <= fuel)%nat ->
  (forall k, (i <= k < m)%nat -> f k = false) ->
  (forall k, (m <= k < j)%nat -> f k = true) ->
  Search_loop fuel f i j = m.
Proof.
  revert i j. induction fuel as [|fuel IH]; intros i j Him Hfuel Hlo Hhi.
  - simpl. lia.
  - rewrite Search_loop_S.
    destruct (Nat.ltb_spec i j) as [Hlt|Hge]; [|lia].
    pose proof (half_bounds i j Hlt) as Hh.
    destruct (f ((i + j) / 2)%nat) eqn:Hf; cbn [negb].
    + assert ((i + j) / 2 >= m)%nat.
      { destruct (Nat.lt_ge_cases ((i + j) / 2) m) as [Hc|Hc]; [|lia].
        rewrite Hlo in Hf by lia. discriminate. }
      apply IH; [lia | lia | auto | intros k Hk; apply Hhi; lia].
    + assert ((i + j) / 2 < m)%nat.
      { destruct (Nat.lt_ge_cases ((i + j) / 2) m) as [Hc|Hc]; [lia|].
        rewrite Hhi in Hf by lia. discriminate. }
      apply IH; [lia | lia | intros k Hk; apply Hlo; lia | auto].
Qed.

(** More fuel than the width of the interval changes nothing: the loop
    has left by its own test before the fuel runs out. *)
Lemma Search_loop_fuel_irrelevant fuel fuel' f i j :
  (j - i <= fuel)%nat -> (j - i <= fuel')%nat ->
  Search_loop fuel f i j = Search_loop fuel' f i j.
Proof.
  revert fuel' i j. induction fuel as [|fuel IH]; intros fuel' i j H1 H2.
  - destruct fuel' as [|fuel']; [reflexivity|].
    rewrite Search_loop_S. simpl.
    destruct (Nat.ltb_spec i j); [lia | reflexivity].
  - destruct fuel' as [|fuel'].
    + rewrite Search_loop_S. simpl.
      destruct (Nat.ltb_spec i j); [lia | reflexivity].
    + rewrite !Search_loop_S.
      destruct (Nat.ltb_spec i j) as [Hlt|Hge]; [|reflexivity].
      pose proof (half_bounds i j Hlt) as Hh.
      destruct (f ((i + j) / 2)%nat); cbn [negb]; apply IH; lia.
Qed.

Lemma Search_spec n f m :
  (m <= n)%nat ->
  (forall k, (k < m)%nat -> f k = false) ->
  (forall k, (m <= k < n)%nat -> f k = true) ->
  Search n f = m.
Proof.
  intros Hm Hlo Hhi. unfold Search.
  apply Search_loop_spec; [lia | lia | intros; apply Hlo; lia | auto].
Qed.

Lemma Search_le n f : (Search n f <= n)%nat.
Proof. unfold Search. pose proof (Search_loop_bounds n f 0 n). lia. Qed.

(** ** Properties of chained range tables *)

Lemma chainedb_cons r rest :
  chainedb (r :: rest) = true ->
  lowpc r <= highpc r
  /\ (forall r', rest !! 0%nat = Some r' -> highpc r <= lowpc r')
  /\ chainedb rest = true.
Proof.
  simpl. intros H.
  apply andb_prop in H as [H Hrest]. apply andb_prop in H as [Hwf Hnext].
  split; [lia|]. split; [|exact Hrest].
  intros r' Hr'. destruct rest as [|r0 rest']; simplify_eq/=. lia.
Qed.

Lemma chainedb_wf tab i r :
  chainedb tab = true -> tab !! i = Some r -> lowpc r <= highpc r.
Proof.
  revert i. induction tab as [|r0 rest IH]; intros i Hc Hi; [done|].
  apply chainedb_cons in Hc as (Hwf & _ & Hrest).
  destruct i as [|i]; simplify_eq/=; eauto.
Qed.

Lemma chainedb_before tab i j ri rj :
  chainedb tab = true -> (i < j)%nat ->
  tab !! i = Some ri -> tab !! j = Some rj ->
  highpc ri <= lowpc rj.
Proof.
  revert i j ri rj.
  induction tab as [|r0 rest IH]; intros i j ri rj Hc Hij Hi Hj; [done|].
  pose proof Hc as Hc0.
  apply chainedb_cons in Hc as (Hwf & Hnext & Hrest).
  destruct j as [|j]; [lia|]. simpl in Hj.
  destruct i as [|i]; simpl in Hi.
  - simplify_eq. destruct j as [|j].
    + apply Hnext. exact Hj.
    + destruct (rest !! 0%nat) as [r1|] eqn:H1.
      * specialize (Hnext r1 eq_refl).
        pose proof (chainedb_wf rest 0 r1 Hrest H1).
        pose proof (IH 0%nat (S j) r1 rj Hrest ltac:(lia) H1 Hj). lia.
      * destruct rest; simplify_eq/=.
  - apply (IH i j ri rj); auto. lia.
Qed.

Lemma chainedb_sorted tab : chainedb tab = true -> sorted_by_lowpc tab.
Proof.
  intros Hc. unfold sorted_by_lowpc.
  induction tab as [|r rest IH]; [constructor|].
  pose proof Hc as Hc0. apply chainedb_cons in Hc as (Hwf & _ & Hrest).
  constructor; [auto|].
  apply Forall_forall. intros r' Hin.
  apply list_elem_of_lookup in Hin as [j Hj].
  pose proof (chainedb_before (r :: rest) 0 (S j) r r' Hc0 ltac:(lia) eq_refl Hj).
  lia.
Qed.

(** ** Properties of the function lookup *)

Lemma functab_pred_chained tab a i r :
  chainedb tab = true -> tab !! i = Some r -> lowpc r <= a < highpc r ->
  Search (length tab) (functab_pred tab a) = i.
Proof.
  intros Hc Hi Ha.
  pose proof (lookup_lt_Some _ _ _ Hi) as Hlen.
  apply Search_spec; [lia | |].
  - intros k Hk. unfold functab_pred.
    destruct (tab !! k) as [rk|] eqn:Hk'; [|done].
    pose proof (chainedb_before tab k i rk r Hc Hk Hk' Hi). lia.
  - intros k Hk. unfold functab_pred.
    destruct (lookup_lt_is_Some_2 tab k ltac:(lia)) as [rk Hk'].
    rewrite Hk'.
    destruct (decide (k = i)) as [->|Hne]; [simplify_eq; lia|].
    pose proof (chainedb_before tab i k r rk Hc ltac:(lia) Hi Hk').
    pose proof (chainedb_wf tab k rk Hc Hk'). lia.
Qed.

Section LookupFacts.

Variable demangle_Filter : string -> string.

(** Whatever the table, a returned range contains the address
    searched for. *)
Lemma findIP_func_sound s mmap ip a tab' i c :
  findIP_func demangle_Filter s mmap ip = (a, tab', Some i, c) ->
  exists tab r,
    functab s = Some tab /\ tab !! i = Some r
    /\ a = translated s mmap ip /\ lowpc r <= a < highpc r.
Proof.
  unfold findIP_func, translated. intros H.
  destruct (functab s) as [tab|]; [|simplify_eq].
  set (a0 := if isReloc s then _ else _) in *.
  destruct (tab !! Search (length tab) (functab_pred tab a0)) as [r|] eqn:Hr;
    [|simplify_eq].
  destruct ((lowpc r <=? a0) && (a0 <? highpc r)) eqn:Hin; [|simplify_eq].
  apply andb_prop in Hin as [H1 H2].
  exists tab, r.
  destruct (negb (demangled r)); simplify_eq; repeat split; auto; lia.
Qed.

Lemma findIP_func_complete s mmap ip tab i r :
  functab s = Some tab -> chainedb tab = true -> tab !! i = Some r ->
  lowpc r <= translated s mmap ip < highpc r ->
  findIP_func demangle_Filter s mmap ip =
    (translated s mmap ip,
     Some (if demangled r then tab
           else <[i := mkFuncRange (demangle_Filter (name r))
                                   (lowpc r) (highpc r) true]> tab),
     Some i,
     if demangled r then None else Some i).
Proof.
  intros Hs Hc Hi Ha. unfold findIP_func. rewrite Hs.
  fold (translated s mmap ip).
  rewrite (functab_pred_chained tab _ i r Hc Hi Ha), Hi.
  replace ((lowpc r <=? translated s mmap ip)
           && (translated s mmap ip <? highpc r)) with true
    by (symmetry; apply andb_true_intro; split; lia).
  destruct (demangled r); reflexivity.
Qed.

End LookupFacts.

(** ** The function lookup (C1) *)

(** C1, as stated, fails: the table that [elfFuncTable] builds for an
    executable with a function symbol nested in another is sorted by
    low address, address 50 lies in [[0, 100)] of range 0, and the
    lookup finds no function.  The binary search probes range 1 first,
    sees [50 < 20] fail, and looks no further left. *)
Lemma findIP_sorted_table_counterexample :
  elfFuncTable sort_by_lowpc "a.out" nested_elf = Ok (Some nested_tab, false)
  /\ sorted_by_lowpcb nested_tab = true
  /\ nested_tab !! 0%nat = Some (mkFuncRange "outer" 0 100 false)
  /\ 0 <= 50 < 100
  /\ fr_f (findIP strip_Z (mkSymbolicExtra (Some nested_tab) None false)
                  (mkMmap "a.out" 0 0) 50) = None.
Proof. vm_compute. repeat split; congruence. Qed.

(** C1, amended: in a range table whose ranges are well formed and each
    end at or before the start of the next (such a table is sorted by
    low address), an address inside range [i] is resolved to range [i],
    returned under its demangled name; in any table at all, an address
    outside every range is resolved to no function.  The address is the
    one the lookup searches for, after the translation of a relocatable
    table. *)
Theorem findIP_function_lookup
    (demangle_Filter : string -> string)
    (s : symbolicExtra) (mmap : Mmap) (ip : Z) (tab : list funcRange)
    (Hs : functab s = Some tab) :
  let a := translated s mmap ip in
  let res := findIP demangle_Filter s mmap ip in
  (chainedb tab = true ->
   forall i r, tab !! i = Some r -> lowpc r <= a < highpc r ->
     fr_f res = Some i
     /\ exists f, fr_func res = Some f
          /\ name f = returned_name demangle_Filter r
          /\ lowpc f = lowpc r /\ highpc f = highpc r)
  /\ ((forall i r, tab !! i = Some r -> ~ (lowpc r <= a < highpc r)) ->
      fr_f res = None /\ fr_func res = None).
Proof.
  intros a res. split.
  - intros Hc i r Hi Ha. subst res. unfold findIP.
    rewrite (findIP_func_complete demangle_Filter s mmap ip tab i r Hs Hc Hi Ha).
    pose proof (lookup_lt_Some _ _ _ Hi) as Hlen.
    split; [reflexivity|]. unfold fr_func, returned_name. simpl.
    destruct (demangled r).
    + exists r. auto.
    + eexists. split; [apply list_lookup_insert_eq; exact Hlen|]. auto.
  - intros Hout. subst res. unfold findIP.
    destruct (findIP_func demangle_Filter s mmap ip) as [[[a' tab'] f] c] eqn:E.
    destruct f as [i|].
    + apply findIP_func_sound in E as (tab0 & r & Hs' & Hi & Ha & Hin).
      rewrite Hs in Hs'. simplify_eq. exfalso. exact (Hout i r Hi Hin).
    + unfold fr_func. simpl. auto.
Qed.

Lemma findIP_function_lookup_witness :
  fr_f (findIP strip_Z (mkSymbolicExtra (Some chained_tab) None true)
               mmap_7000 (28672 + 4100)) = Some 0%nat
  /\ exists f,
       fr_func (findIP strip_Z (mkSymbolicExtra (Some chained_tab) None true)
                       mmap_7000 (28672 + 4100)) = Some f
       /\ name f = "foo" /\ lowpc f = 4096 /\ highpc f = 4112.
Proof.
  pose proof (findIP_function_lookup strip_Z
                (mkSymbolicExtra (Some chained_tab) None true)
                mmap_7000 (28672 + 4100) chained_tab eq_refl) as [H _].
  apply (H eq_refl 0%nat (mkFuncRange "_Zfoo" 4096 4112 false) eq_refl).
  vm_compute. split; congruence.
Defined.

(** ** Relocation (C8) *)

Lemma u64_translate_base (addr k : Z) :
  0 <= k < 2 ^ 64 -> u64 (u64 (u64 (addr + k) - addr) + 0) = k.
Proof.
  intros Hk. unfold u64.
  rewrite Z.add_0_r, Z.mod_mod by lia.
  rewrite Zminus_mod_idemp_l.
  replace (addr + k - addr) with k by lia.
  apply Z.mod_small. lia.
Qed.

Lemma findIP_func_reloc demangle_Filter ft lt b mmap ip :
  findIP_func demangle_Filter (mkSymbolicExtra ft lt b) mmap ip =
  match ft with
  | None => (ip, None, None, None)
  | Some _ =>
      findIP_func demangle_Filter (mkSymbolicExtra ft lt false) mmap
                  (translated (mkSymbolicExtra ft lt b) mmap ip)
  end.
Proof. unfold findIP_func, translated. simpl. destruct ft; reflexivity. Qed.

Lemma findIP_func_mmap demangle_Filter ft lt mmap mmap' ip :
  findIP_func demangle_Filter (mkSymbolicExtra ft lt false) mmap ip =
  findIP_func demangle_Filter (mkSymbolicExtra ft lt false) mmap' ip.
Proof. reflexivity. Qed.

(** C8: on a relocatable table the function lookup of [findIP] is the
    lookup, in the same table taken as not relocatable, of
    [ip - mmap.Addr + mmap.FileOffset] (in 64-bit arithmetic); so with a
    file offset of zero, [mmap.Addr + k] resolves exactly as the file
    offset [k] does; and on a table that is not relocatable the address
    searched for is [ip] itself, whatever the mapping. *)
Theorem findIP_relocation
    (demangle_Filter : string -> string)
    (ft : option (list funcRange)) (lt : option (list LineEntry))
    (mmap mmap' : Mmap) (ip k : Z) :
  func_part (findIP demangle_Filter (mkSymbolicExtra ft lt true) mmap ip) =
  func_part (findIP demangle_Filter (mkSymbolicExtra ft lt false) mmap'
                    (u64 (u64 (ip - Addr mmap) + FileOffset mmap)))
  /\ (0 <= k < 2 ^ 64 -> FileOffset mmap = 0 ->
      func_part (findIP demangle_Filter (mkSymbolicExtra ft lt true) mmap
                        (u64 (Addr mmap + k))) =
      func_part (findIP demangle_Filter (mkSymbolicExtra ft lt false) mmap' k))
  /\ translated (mkSymbolicExtra ft lt false) mmap ip = ip
  /\ func_part (findIP demangle_Filter (mkSymbolicExtra ft lt false) mmap ip) =
     func_part (findIP demangle_Filter (mkSymbolicExtra ft lt false) mmap' ip).
Proof.
  assert (Hgen : forall ip0,
    func_part (findIP demangle_Filter (mkSymbolicExtra ft lt true) mmap ip0) =
    func_part (findIP demangle_Filter (mkSymbolicExtra ft lt false) mmap'
                      (u64 (u64 (ip0 - Addr mmap) + FileOffset mmap)))).
  { intros ip0. unfold findIP, func_part.
    rewrite (findIP_func_reloc demangle_Filter ft lt true mmap ip0).
    destruct ft as [tab|].
    - unfold translated. cbn [isReloc].
      rewrite (findIP_func_mmap demangle_Filter (Some tab) lt mmap mmap').
      destruct (findIP_func _ _ _ _) as [[[a t] f] c]. reflexivity.
    - reflexivity. }
  split; [apply Hgen|]. split; [|split; reflexivity].
  intros Hk Hoff. rewrite Hgen, Hoff, u64_translate_base by exact Hk.
  reflexivity.
Qed.

Lemma findIP_relocation_witness :
  func_part (findIP strip_Z (mkSymbolicExtra (Some chained_tab) None true)
                    mmap_7000 (u64 (Addr mmap_7000 + 4100))) =
  func_part (findIP strip_Z (mkSymbolicExtra (Some chained_tab) None false)
                    (mkMmap "file" 0 0) 4100).
Proof.
  apply (findIP_relocation strip_Z (Some chained_tab) None
           mmap_7000 (mkMmap "file" 0 0) 0 4100).
  - lia.
  - reflexivity.
Defined.

(** ** The line lookup (C6) *)

(** What the binary search returns on any predicate: the predicate fails
    just before the result and holds at it. *)
Lemma Search_loop_edges fuel f i j n :
  (i <= j <= n)%nat -> (j - i <= fuel)%nat ->
  (i = 0%nat \/ f (i - 1)%nat = false) -> (j = n \/ f j = true) ->
  let m := Search_loop fuel f i j in
  (m = 0%nat \/ f (m - 1)%nat = false) /\ (m = n \/ f m = true).
Proof.
  revert i j. induction fuel as [|fuel IH]; intros i j Hij Hfuel Hi Hj.
  - simpl. replace j with i in Hj by lia. auto.
  - rewrite Search_loop_S.
    destruct (Nat.ltb_spec i j) as [Hlt|Hge].
    + pose proof (half_bounds i j Hlt) as Hh.
      destruct (f ((i + j) / 2)%nat) eqn:Hf; cbn [negb].
      * apply IH; [lia | lia | auto | auto].
      * apply IH; [lia | lia | | auto].
        right. replace ((i + j) / 2 + 1 - 1)%nat with ((i + j) / 2)%nat by lia.
        exact Hf.
    + replace j with i in Hj by lia. auto.
Qed.

Lemma Search_edges n f :
  let m := Search n f in
  (m = 0%nat \/ f (m - 1)%nat = false) /\ (m = n \/ f m = true).
Proof. unfold Search. apply Search_loop_edges; auto; lia. Qed.

Lemma sorted_by_Addressb_lookup lt i j li lj :
  sorted_by_Addressb lt = true -> (i <= j)%nat ->
  lt !! i = Some li -> lt !! j = Some lj -> Address li <= Address lj.
Proof.
  revert i j. induction lt as [|l rest IH]; intros i j Hs Hij Hi Hj; [done|].
  simpl in Hs. apply andb_prop in Hs as [Hall Hrest].
  destruct i as [|i]; destruct j as [|j]; simplify_eq/=; try lia.
  - rewrite forallb_forall in Hall.
    assert (Hin : In lj rest).
    { apply list_elem_of_In, list_elem_of_lookup. eauto. }
    specialize (Hall lj Hin). lia.
  - apply (IH i j); auto. lia.
Qed.

(** An accepted entry is at or before the address, is not an
    end-of-sequence marker, and the entry after it lies beyond the
    address. *)
Lemma findIP_line_sound s ip k :
  findIP_line s ip = Some k ->
  exists lt l,
    linetab s = Some lt /\ lt !! k = Some l
    /\ Address l <= ip /\ EndSequence l = false
    /\ (forall l', lt !! S k = Some l' -> ip < Address l').
Proof.
  unfold findIP_line. destruct (linetab s) as [lt|]; [|done].
  pose proof (Search_edges (length lt) (linetab_pred lt ip)) as [Hlo Hhi].
  set (m := Search (length lt) (linetab_pred lt ip)) in *.
  destruct (Nat.eqb_spec m 0) as [Hm|Hm]; [done|].
  destruct (lt !! (m - 1)%nat) as [l|] eqn:Hl; [|done].
  destruct (EndSequence l) eqn:He; [done|].
  intros [= <-]. exists lt, l.
  destruct Hlo as [Hlo|Hlo]; [lia|].
  unfold linetab_pred in Hlo. rewrite Hl in Hlo.
  repeat split; auto; [lia|].
  intros l' Hl'. replace (S (m - 1)) with m in Hl' by lia.
  destruct Hhi as [Hhi|Hhi].
  - apply lookup_lt_Some in Hl'. lia.
  - unfold linetab_pred in Hhi. rewrite Hl' in Hhi. lia.
Qed.

(** In a line table in address order, the entry so described is the
    one found. *)
Lemma findIP_line_complete s ip lt k l :
  linetab s = Some lt -> sorted_by_Addressb lt = true ->
  lt !! k = Some l -> Address l <= ip -> EndSequence l = false ->
  (forall l', lt !! S k = Some l' -> ip < Address l') ->
  findIP_line s ip = Some k.
Proof.
  intros Hs Hsorted Hk Hle He Hnext. unfold findIP_line. rewrite Hs.
  pose proof (lookup_lt_Some _ _ _ Hk) as Hlen.
  rewrite (Search_spec (length lt) (linetab_pred lt ip) (S k)); [| lia | |].
  - replace (S k - 1)%nat with k by lia. rewrite Hk, He. reflexivity.
  - intros j Hj. unfold linetab_pred.
    destruct (lt !! j) as [lj|] eqn:Hlj; [|done].
    pose proof (sorted_by_Addressb_lookup lt j k lj l Hsorted ltac:(lia) Hlj Hk).
    lia.
  - intros j Hj. unfold linetab_pred.
    destruct (lookup_lt_is_Some_2 lt j ltac:(lia)) as [lj Hlj]. rewrite Hlj.
    destruct (lookup_lt_is_Some_2 lt (S k) ltac:(lia)) as [l' Hl'].
    pose proof (Hnext l' Hl').
    pose proof (sorted_by_Addressb_lookup lt (S k) j l' lj Hsorted ltac:(lia) Hl' Hlj).
    lia.
Qed.

Lemma findIP_line_part demangle_Filter s mmap ip :
  fr_l (findIP demangle_Filter s mmap ip) =
  findIP_line s (match functab s with
                 | Some _ => translated s mmap ip
                 | None => ip
                 end).
Proof.
  unfold findIP.
  destruct (findIP_func demangle_Filter s mmap ip) as [[[a t] f] c] eqn:E.
  simpl. f_equal.
  unfold findIP_func in E. fold (translated s mmap ip) in E.
  destruct (functab s) as [tab|]; [|congruence].
  destruct (tab !! _) as [r|]; [|congruence].
  destruct (_ && _); [|congruence].
  destruct (negb _); congruence.
Qed.

(** C6: on every image table the code works with, that is one in which
    a line table comes with virtual addresses ([is_file_offset = false]:
    every table the loaders build is so, and a lookup leaves it so), the
    line lookup of [findIP] is the search for the original, untranslated
    address: the entry it returns is at or before that address, is not
    an end-of-sequence marker and is followed by an entry beyond the
    address, and in a line table in address order every such entry is
    the one returned. *)
Theorem findIP_line_lookup
    (demangle_Filter : string -> string)
    (s : symbolicExtra) (mmap : Mmap) (ip : Z)
    (Hinv : image_invb s = true) :
  let res := findIP demangle_Filter s mmap ip in
  fr_l res = findIP_line s ip
  /\ (forall k, fr_l res = Some k ->
        exists lt l, linetab s = Some lt /\ lt !! k = Some l
          /\ Address l <= ip /\ EndSequence l = false
          /\ (forall l', lt !! S k = Some l' -> ip < Address l'))
  /\ (forall lt k l,
        linetab s = Some lt -> sorted_by_Addressb lt = true ->
        lt !! k = Some l -> Address l <= ip -> EndSequence l = false ->
        (forall l', lt !! S k = Some l' -> ip < Address l') ->
        fr_l res = Some k /\ fr_line res = Some l)
  /\ image_invb (fr_table res) = true.
Proof.
  intros res.
  assert (Heq : fr_l res = findIP_line s ip).
  { subst res. rewrite findIP_line_part.
    unfold image_invb in Hinv. unfold translated, findIP_line.
    destruct (linetab s); [|destruct (functab s); reflexivity].
    destruct (isReloc s); [discriminate|]. destruct (functab s); reflexivity. }
  split; [exact Heq|]. split; [|split].
  - intros k Hk. rewrite Heq in Hk. apply findIP_line_sound. exact Hk.
  - intros lt k l Hs Hsorted Hk Hle He Hnext.
    assert (Hl : fr_l res = Some k).
    { rewrite Heq. eapply findIP_line_complete; eauto. }
    split; [exact Hl|].
    unfold fr_line. rewrite Hl.
    subst res. unfold findIP.
    destruct (findIP_func demangle_Filter s mmap ip) as [[[a t] f] c].
    simpl. rewrite Hs. exact Hk.
  - subst res. unfold findIP.
    destruct (findIP_func demangle_Filter s mmap ip) as [[[a t] f] c].
    exact Hinv.
Qed.

Lemma findIP_line_lookup_witness :
  fr_l (findIP strip_Z scenario_A (mkMmap "a.out" 0 0) 4101) = Some 0%nat
  /\ fr_line (findIP strip_Z scenario_A (mkMmap "a.out" 0 0) 4101)
     = Some (mkLineEntry 4096 (Some "file.c") 10 0 false).
Proof.
  pose proof (findIP_line_lookup strip_Z scenario_A (mkMmap "a.out" 0 0) 4101
                eq_refl) as (_ & _ & H & _).
  apply (H [mkLineEntry 4096 (Some "file.c") 10 0 false;
            mkLineEntry 4112 (Some "file.c") 10 0 true]
           0%nat (mkLineEntry 4096 (Some "file.c") 10 0 false)
           eq_refl eq_refl eq_refl).
  - simpl. lia.
  - reflexivity.
  - intros l' Hl'. simpl in Hl'. injection Hl' as <-. simpl. lia.
Defined.

(** ** Lazy demangling (C7) *)

Section Demangling.

Variable demangle_Filter : string -> string.

(** One call: the table changes at most at the returned range, and
    only if that range was not yet demangled. *)
Lemma findIP_step s mmap ip tab :
  functab s = Some tab ->
  let res := findIP demangle_Filter s mmap ip in
  match fr_f res with
  | None => functab (fr_table res) = Some tab /\ fr_filtered res = None
  | Some j =>
      exists r, tab !! j = Some r /\
        if demangled r
        then functab (fr_table res) = Some tab /\ fr_filtered res = None
        else functab (fr_table res)
               = Some (<[j := demangle_range demangle_Filter r]> tab)
             /\ fr_filtered res = Some j
  end.
Proof.
  intros Hs res. subst res. unfold findIP, findIP_func. rewrite Hs.
  set (a := if isReloc s then _ else _).
  destruct (tab !! Search (length tab) (functab_pred tab a)) as [r|] eqn:Hr;
    [|simpl; auto].
  destruct ((lowpc r <=? a) && (a <? highpc r)); [|simpl; auto].
  destruct (demangled r) eqn:Hd; simpl; exists r; rewrite Hd; auto.
Qed.

Lemma fr_func_lookup (res : findIPResult) i tab' :
  fr_f res = Some i -> functab (fr_table res) = Some tab' ->
  fr_func res = tab' !! i.
Proof. intros Hf Ht. unfold fr_func. rewrite Hf, Ht. reflexivity. Qed.

Lemma filter_calls_zero i rs res :
  filter_calls i rs = 0%nat -> res ∈ rs -> fr_filtered res <> Some i.
Proof.
  induction rs as [|x rest IH]; intros Hcnt Hin Hfilt.
  - inversion Hin.
  - cbn [filter_calls] in Hcnt.
    apply elem_of_cons in Hin as [->|Hin].
    + unfold filtered_at in Hcnt. rewrite Hfilt, Nat.eqb_refl in Hcnt. lia.
    + apply IH; auto. destruct (filtered_at i x); simpl in Hcnt; lia.
Qed.

(** A range that carries the bit is never passed to [Filter], and is
    returned as it is. *)
Lemma findIP_run_demangled qs : forall s tab i r,
  functab s = Some tab -> tab !! i = Some r -> demangled r = true ->
  filter_calls i (findIP_run demangle_Filter s qs) = 0%nat
  /\ forall res, res ∈ findIP_run demangle_Filter s qs ->
       fr_f res = Some i -> fr_func res = Some r.
Proof.
  induction qs as [|[mmap ip] qs IH]; intros s tab i r Hs Hi Hd.
  - split; [reflexivity|]. intros res Hin. inversion Hin.
  - cbn [findIP_run filter_calls].
    pose proof (findIP_step s mmap ip tab Hs) as Hstep. cbv zeta in Hstep.
    set (res0 := findIP demangle_Filter s mmap ip) in *.
    assert (Hnext : exists tab', functab (fr_table res0) = Some tab'
                      /\ tab' !! i = Some r /\ filtered_at i res0 = false
                      /\ (fr_f res0 = Some i -> fr_func res0 = Some r)).
    { unfold filtered_at. destruct (fr_f res0) as [j|] eqn:Hf.
      - destruct Hstep as (rj & Hj & Hcase).
        destruct (demangled rj) eqn:Hdj.
        + destruct Hcase as [Ht Hc]. exists tab. rewrite Hc.
          repeat split; auto. intros [= ->].
          rewrite (fr_func_lookup res0 i tab Hf Ht). exact Hi.
        + destruct Hcase as [Ht Hc]. rewrite Hc.
          assert (j <> i) by (intros ->; congruence).
          exists (<[j := demangle_range demangle_Filter rj]> tab).
          repeat split; auto.
          * rewrite list_lookup_insert_ne by done. exact Hi.
          * apply Nat.eqb_neq. done.
          * intros [= ->]. done.
      - destruct Hstep as [Ht Hc]. exists tab. rewrite Hc.
        repeat split; auto. intros [=]. }
    destruct Hnext as (tab' & Ht' & Hi' & Hfa & Hret).
    destruct (IH (fr_table res0) tab' i r Ht' Hi' Hd) as [Hcnt Hall].
    rewrite Hfa, Hcnt. split; [reflexivity|].
    intros res Hin Hf. apply elem_of_cons in Hin as [->|Hin]; auto.
Qed.

(** A range that does not carry the bit is passed to [Filter] by the
    first call that returns it and by no other. *)
Lemma findIP_run_mangled qs : forall s tab i r,
  functab s = Some tab -> tab !! i = Some r -> demangled r = false ->
  let rs := findIP_run demangle_Filter s qs in
  (filter_calls i rs <= 1)%nat
  /\ (filter_calls i rs = 1%nat <-> exists res, res ∈ rs /\ fr_f res = Some i)
  /\ (forall res, res ∈ rs -> fr_f res = Some i ->
        fr_func res = Some (demangle_range demangle_Filter r))
  /\ (forall n res, rs !! n = Some res -> fr_f res = Some i ->
        (fr_filtered res = Some i <->
         forall m p, (m < n)%nat -> rs !! m = Some p -> fr_f p <> Some i)).
Proof.
  induction qs as [|[mmap ip] qs IH]; intros s tab i r Hs Hi Hd rs; subst rs.
  - cbn. split; [lia|]. split; [|split].
    + split; [lia|]. intros (res & Hin & _). inversion Hin.
    + intros res Hin. inversion Hin.
    + intros n res Hn. destruct n; discriminate.
  - cbn [findIP_run filter_calls].
    pose proof (findIP_step s mmap ip tab Hs) as Hstep. cbv zeta in Hstep.
    set (res0 := findIP demangle_Filter s mmap ip) in *.
    pose proof (lookup_lt_Some _ _ _ Hi) as Hlen.
    destruct (decide (fr_f res0 = Some i)) as [Hf|Hf].
    + (* this call returns range [i]: it demangles it *)
      rewrite Hf in Hstep. destruct Hstep as (r' & Hi' & Hcase).
      rewrite Hi in Hi'. injection Hi' as <-. rewrite Hd in Hcase.
      destruct Hcase as [Ht Hc].
      assert (Hnew : <[i := demangle_range demangle_Filter r]> tab !! i
                     = Some (demangle_range demangle_Filter r))
        by (apply list_lookup_insert_eq; exact Hlen).
      destruct (findIP_run_demangled qs (fr_table res0) _ i _ Ht Hnew eq_refl)
        as [Hcnt Hall].
      assert (Hfa : filtered_at i res0 = true)
        by (unfold filtered_at; rewrite Hc; apply Nat.eqb_refl).
      rewrite !Hfa, !Hcnt.
      split; [lia|]. split; [|split].
      * split; [|reflexivity]. intros _. exists res0. split; [left|exact Hf].
      * intros res Hin Hfi. apply elem_of_cons in Hin as [->|Hin]; auto.
        rewrite (fr_func_lookup res0 i _ Hf Ht). exact Hnew.
      * intros n res Hn Hfi. destruct n as [|n]; simpl in Hn.
        -- injection Hn as <-. split; [|auto]. intros _ m p Hm. lia.
        -- split.
           ++ intros Hfilt. exfalso.
              assert (Hin : res ∈ findIP_run demangle_Filter (fr_table res0) qs)
                by (apply list_elem_of_lookup; eauto).
              exact (filter_calls_zero i _ res Hcnt Hin Hfilt).
           ++ intros Hnone. exfalso.
              apply (Hnone 0%nat res0); [lia | reflexivity | exact Hf].
    + (* this call leaves range [i] alone *)
      assert (Hnext : exists tab', functab (fr_table res0) = Some tab'
                        /\ tab' !! i = Some r /\ filtered_at i res0 = false).
      { unfold filtered_at. destruct (fr_f res0) as [j|] eqn:Hfj.
        - destruct Hstep as (rj & Hj & Hcase).
          assert (j <> i) by congruence.
          destruct (demangled rj).
          + destruct Hcase as [Ht Hc]. exists tab. rewrite Hc. auto.
          + destruct Hcase as [Ht Hc]. rewrite Hc.
            exists (<[j := demangle_range demangle_Filter rj]> tab).
            repeat split; auto.
            * rewrite list_lookup_insert_ne by done. exact Hi.
            * apply Nat.eqb_neq. done.
        - destruct Hstep as [Ht Hc]. exists tab. rewrite Hc. auto. }
      destruct Hnext as (tab' & Ht' & Hi'' & Hfa).
      destruct (IH (fr_table res0) tab' i r Ht' Hi'' Hd)
        as (Hle & Hone & Hall & Hfirst).
      rewrite Hfa. cbn [Nat.add]. split; [exact Hle|]. split; [|split].
      * rewrite Hone. split.
        -- intros (res & Hin & Hfi). exists res. split; [right; exact Hin|exact Hfi].
        -- intros (res & Hin & Hfi). apply elem_of_cons in Hin as [->|Hin];
             [contradiction|]. eauto.
      * intros res Hin Hfi. apply elem_of_cons in Hin as [->|Hin];
          [contradiction|]. auto.
      * intros n res Hn Hfi. destruct n as [|n]; simpl in Hn.
        -- injection Hn as <-. contradiction.
        -- rewrite (Hfirst n res Hn Hfi). split.
           ++ intros H m p Hm Hp. destruct m as [|m]; simpl in Hp.
              ** injection Hp as <-. exact Hf.
              ** apply (H m p); [lia | exact Hp].
           ++ intros H m p Hm Hp. apply (H (S m) p); [lia | exact Hp].
Qed.

End Demangling.

(** C7, as stated, fails for the ranges that are built with the bit
    already set, as [newKallsyms] builds every range of a kernel-symbol
    table (kernel symbols are not mangled): the first lookup that
    returns such a range does not pass its name to [Filter] at all, and
    the range comes back as it was stored. *)
Lemma demangle_kernel_symbol_counterexample :
  newKallsyms sort_by_lowpc demo_os_Open "/home/u/.debug/.build-id/ab/cdef"
    = Val (mkSymbolicExtra (Some demo_kallsyms_tab) None false)
  /\ (let res := findIP strip_Z
                   (mkSymbolicExtra (Some demo_kallsyms_tab) None false)
                   (mkMmap "[kernel.kallsyms]_text" 0 0)
                   18446744071578845200 in
      fr_f res = Some 0%nat
      /\ fr_filtered res = None
      /\ fr_func res = demo_kallsyms_tab !! 0%nat
      /\ filter_calls 0 [res] = 0%nat).
Proof. vm_compute. repeat split; reflexivity. Qed.

(** C7, amended: over any sequence of lookups in one image table, the
    name of a range is passed to the demangling transform at most once,
    and exactly once if and only if the range was built without the
    cached-demangled bit and some lookup returns it.  For such a range
    the call that transforms is the first lookup that returns it: it
    stores the transformed name and sets the bit, so no later lookup
    transforms again.  A range built with the bit set, as every
    kernel-symbol range is, is never transformed.  Either way every
    lookup that returns the range returns the same name and bounds. *)
Theorem demangle_at_most_once
    (demangle_Filter : string -> string)
    (s : symbolicExtra) (tab : list funcRange) (i : nat) (r : funcRange)
    (qs : list (Mmap * Z))
    (Hs : functab s = Some tab) (Hi : tab !! i = Some r) :
  let rs := findIP_run demangle_Filter s qs in
  (filter_calls i rs <= 1)%nat
  /\ (filter_calls i rs = 1%nat <->
      demangled r = false /\ exists res, res ∈ rs /\ fr_f res = Some i)
  /\ (forall res, res ∈ rs -> fr_f res = Some i ->
        fr_func res = Some (mkFuncRange (returned_name demangle_Filter r)
                                        (lowpc r) (highpc r) true))
  /\ (demangled r = false ->
      forall n res, rs !! n = Some res -> fr_f res = Some i ->
        (fr_filtered res = Some i <->
         forall m p, (m < n)%nat -> rs !! m = Some p -> fr_f p <> Some i))
  /\ (demangled r = true ->
      forall res, res ∈ rs -> fr_filtered res <> Some i).
Proof.
  intros rs. subst rs. unfold returned_name.
  destruct (demangled r) eqn:Hd.
  - destruct (findIP_run_demangled demangle_Filter qs s tab i r Hs Hi Hd)
      as [Hcnt Hall].
    rewrite Hcnt. split; [lia|]. split; [|split; [|split]].
    + split; [lia|]. intros [? _]. discriminate.
    + intros res Hin Hf. rewrite (Hall res Hin Hf).
      destruct r; simpl in *. congruence.
    + discriminate.
    + intros _ res Hin. apply (filter_calls_zero i _ res Hcnt Hin).
  - destruct (findIP_run_mangled demangle_Filter qs s tab i r Hs Hi Hd)
      as (Hle & Hone & Hall & Hfirst).
    split; [exact Hle|]. split; [|split; [|split]].
    + rewrite Hone. split; [auto|]. intros [_ H]. exact H.
    + exact Hall.
    + intros _. exact Hfirst.
    + discriminate.
Qed.

Lemma demangle_at_most_once_witness :
  (filter_calls 0
     (findIP_run strip_Z (mkSymbolicExtra (Some chained_tab) None false)
                 three_queries) <= 1)%nat.
Proof.
  apply (demangle_at_most_once strip_Z
           (mkSymbolicExtra (Some chained_tab) None false) chained_tab 0%nat
           (mkFuncRange "_Zfoo" 4096 4112 false) three_queries
           eq_refl eq_refl).
Defined.

(** ** Gap filling (C5) *)

Lemma set_highpc_lowpc r h : lowpc (set_highpc r h) = lowpc r.
Proof. reflexivity. Qed.

Lemma fill_highpc_lowpc tab i r : lowpc (fill_highpc tab i r) = lowpc r.
Proof.
  unfold fill_highpc. destruct (highpc r =? lowpc r); [|reflexivity].
  destruct (tab !! S i); reflexivity.
Qed.

Lemma fill_highpc_name tab i r : name (fill_highpc tab i r) = name r.
Proof.
  unfold fill_highpc. destruct (highpc r =? lowpc r); [|reflexivity].
  destruct (tab !! S i); reflexivity.
Qed.

(** The loop of [setFuncHighPCs] after its first [k] iterations: the
    ranges below [k] are filled, the others untouched. *)
Lemma setFuncHighPCs_prefix tab k :
  (k <= length tab)%nat ->
  let t := fold_left (setFuncHighPCs_step (length tab)) (seq 0 k) tab in
  length t = length tab
  /\ forall j r, tab !! j = Some r ->
       t !! j = Some (if (j <? k)%nat then fill_highpc tab j r else r).
Proof.
  induction k as [|k IH]; intros Hk t; subst t.
  - simpl. split; [reflexivity|]. intros j r Hj. exact Hj.
  - rewrite seq_S, fold_left_app. cbn [fold_left Nat.add].
    destruct (IH ltac:(lia)) as [Hlen Hlook].
    set (t := fold_left (setFuncHighPCs_step (length tab)) (seq 0 k) tab) in *.
    destruct (lookup_lt_is_Some_2 tab k ltac:(lia)) as [rk Hrk].
    pose proof (Hlook k rk Hrk) as Htk.
    rewrite Nat.ltb_irrefl in Htk.
    assert (Hstep : setFuncHighPCs_step (length tab) t k
                    = <[k := fill_highpc tab k rk]> t).
    { unfold setFuncHighPCs_step, fill_highpc. rewrite Htk.
      destruct (highpc rk =? lowpc rk) eqn:Hz.
      - apply Z.eqb_eq in Hz.
        destruct (Nat.eqb_spec k (length tab - 1)) as [Hlast|Hlast].
        + rewrite (lookup_ge_None_2 tab (S k)) by lia. rewrite Hz. reflexivity.
        + destruct (lookup_lt_is_Some_2 tab (S k) ltac:(lia)) as [rn Hrn].
          pose proof (Hlook (S k) rn Hrn) as Htn.
          replace (S k <? k)%nat with false in Htn
            by (symmetry; apply Nat.ltb_ge; lia).
          replace (k + 1)%nat with (S k) by lia.
          rewrite Htn, Hrn. reflexivity.
      - symmetry. apply list_insert_id. exact Htk. }
    rewrite Hstep. split; [rewrite length_insert; exact Hlen|].
    intros j r Hj. destruct (decide (j = k)) as [->|Hne].
    + rewrite list_lookup_insert_eq by lia.
      replace (k <? S k)%nat with true by (symmetry; apply Nat.ltb_lt; lia).
      congruence.
    + rewrite list_lookup_insert_ne by done. rewrite (Hlook j r Hj).
      destruct (Nat.ltb_spec j k); destruct (Nat.ltb_spec j (S k));
        try reflexivity; lia.
Qed.

Lemma setFuncHighPCs_length tab : length (setFuncHighPCs tab) = length tab.
Proof. apply (setFuncHighPCs_prefix tab (length tab)). lia. Qed.

Lemma setFuncHighPCs_lookup tab i r :
  tab !! i = Some r -> setFuncHighPCs tab !! i = Some (fill_highpc tab i r).
Proof.
  intros Hi. pose proof (lookup_lt_Some _ _ _ Hi) as Hlt.
  destruct (setFuncHighPCs_prefix tab (length tab) ltac:(lia)) as [_ H].
  unfold setFuncHighPCs. rewrite (H i r Hi).
  replace (i <? length tab)%nat with true by (symmetry; apply Nat.ltb_lt; lia).
  reflexivity.
Qed.

Lemma setFuncHighPCs_lookup_inv tab i r' :
  setFuncHighPCs tab !! i = Some r' ->
  exists r, tab !! i = Some r /\ r' = fill_highpc tab i r.
Proof.
  intros Hi. pose proof (lookup_lt_Some _ _ _ Hi) as Hlt.
  rewrite setFuncHighPCs_length in Hlt.
  destruct (lookup_lt_is_Some_2 tab i Hlt) as [r Hr].
  exists r. split; [exact Hr|].
  rewrite (setFuncHighPCs_lookup tab i r Hr) in Hi. congruence.
Qed.

Lemma disjointb_lookup tab i r r' :
  disjointb tab = true -> tab !! i = Some r -> tab !! S i = Some r' ->
  highpc r <= lowpc r'.
Proof.
  revert i. induction tab as [|r0 rest IH]; intros i Hd Hi Hn; [done|].
  simpl in Hd. apply andb_prop in Hd as [Hhead Hrest].
  destruct i as [|i]; simpl in Hi, Hn.
  - destruct rest as [|r1 rest']; simplify_eq/=. lia.
  - apply (IH i); auto.
Qed.

Lemma gaplessb_lookup tab i r r' :
  gaplessb tab = true -> tab !! i = Some r -> tab !! S i = Some r' ->
  highpc r = lowpc r \/ highpc r = lowpc r'.
Proof.
  revert i. induction tab as [|r0 rest IH]; intros i Hd Hi Hn; [done|].
  simpl in Hd. apply andb_prop in Hd as [Hhead Hrest].
  destruct i as [|i]; simpl in Hi, Hn.
  - destruct rest as [|r1 rest']; simplify_eq/=.
    apply orb_prop in Hhead as [H|H]; apply Z.eqb_eq in H; auto.
  - apply (IH i); auto.
Qed.

Lemma sorted_by_lowpc_lookup tab i j ri rj :
  sorted_by_lowpc tab -> (i <= j)%nat ->
  tab !! i = Some ri -> tab !! j = Some rj -> lowpc ri <= lowpc rj.
Proof.
  unfold sorted_by_lowpc. intros Hs. revert i j.
  induction Hs as [|r rest Hrest IH Hall]; intros i j Hij Hi Hj; [done|].
  destruct i as [|i]; destruct j as [|j]; simplify_eq/=; try lia.
  - rewrite Forall_forall in Hall. apply Hall.
    apply list_elem_of_lookup. eauto.
  - apply (IH i j); auto. lia.
Qed.

(** A table in which every range ends where the next begins covers
    every address between its first low and its last high. *)
Lemma abutting_cover (tab : list funcRange) : forall first lastr a,
  (forall i r r', tab !! i = Some r -> tab !! S i = Some r' ->
                  highpc r = lowpc r') ->
  tab !! 0%nat = Some first -> last tab = Some lastr ->
  lowpc first <= a < highpc lastr ->
  exists i r, tab !! i = Some r /\ lowpc r <= a < highpc r.
Proof.
  induction tab as [|r0 rest IH]; intros first lastr a Hab Hfirst Hlast Ha;
    [done|].
  simpl in Hfirst. injection Hfirst as <-.
  destruct rest as [|r1 rest'].
  - simpl in Hlast. injection Hlast as <-. exists 0%nat, r0. auto.
  - pose proof (Hab 0%nat r0 r1 eq_refl eq_refl) as H01.
    destruct (Z.lt_ge_cases a (lowpc r1)) as [Hlt|Hge].
    + exists 0%nat, r0. split; [reflexivity|lia].
    + destruct (IH r1 lastr a) as (i & r & Hi & Hin).
      * intros i r r' Hi Hn. apply (Hab (S i) r r'); auto.
      * reflexivity.
      * exact Hlast.
      * lia.
      * exists (S i), r. auto.
Qed.

(** The concrete sort meets the promise of [sort.Sort]. *)
Lemma sort_by_lowpc_perm l : sort_by_lowpc l ≡ₚ l.
Proof. apply merge_sort_Permutation. Qed.

Lemma sort_by_lowpc_sorted l : sorted_by_lowpc (sort_by_lowpc l).
Proof.
  unfold sorted_by_lowpc, sort_by_lowpc.
  assert (Htrans : Transitive lowpc_le) by (intros a b c; unfold lowpc_le; lia).
  assert (Htotal : Total lowpc_le) by (intros a b; unfold lowpc_le; lia).
  apply (StronglySorted_merge_sort lowpc_le).
Qed.

Lemma newKallsyms_step_zero_width lines : forall acc,
  Forall (fun r => highpc r = lowpc r) acc ->
  Forall (fun r => highpc r = lowpc r) (fold_left newKallsyms_step lines acc).
Proof.
  induction lines as [|text lines IH]; intros acc Hacc; [exact Hacc|].
  simpl. apply IH. unfold newKallsyms_step.
  destruct (kallsymsRe_FindStringSubmatch text) as [[[a t] n]|]; [|exact Hacc].
  destruct (negb (is_text_type t)); [exact Hacc|].
  apply Forall_app. split; [exact Hacc|]. constructor; [reflexivity|constructor].
Qed.

Lemma zero_width_gapless tab :
  Forall (fun r => highpc r = lowpc r) tab -> gaplessb tab = true.
Proof.
  induction 1 as [|r rest Hr Hrest IH]; [reflexivity|].
  simpl. rewrite IH. destruct rest; [reflexivity|].
  rewrite Hr, Z.eqb_refl. reflexivity.
Qed.

Section GapFilling.

Variable sort_Sort : list funcRange -> list funcRange.
Hypothesis sort_Sort_perm : forall l, sort_Sort l ≡ₚ l.
Hypothesis sort_Sort_sorted : forall l, sorted_by_lowpc (sort_Sort l).
Variable os_Open : string -> result textFile.

Lemma elfFuncTable_filled filename elff tab rel :
  elfFuncTable sort_Sort filename elff = Ok (Some tab, rel) ->
  exists raw, tab = setFuncHighPCs (sort_Sort raw).
Proof.
  unfold elfFuncTable. intros H.
  destruct (elf_Type elff); try discriminate;
    destruct (elf_Symbols elff); try discriminate;
    injection H as <- _; eauto.
Qed.

Lemma newKallsyms_filled filename s :
  newKallsyms sort_Sort os_Open filename = Val s ->
  exists raw,
    functab s = Some (setFuncHighPCs (sort_Sort raw))
    /\ Forall (fun r => highpc r = lowpc r) raw
    /\ gaplessb (sort_Sort raw) = true.
Proof.
  unfold newKallsyms. intros H.
  destruct (os_Open filename) as [f|]; [|discriminate].
  destruct (tf_err f); [discriminate|]. injection H as <-.
  exists (fold_left newKallsyms_step (tf_lines f) []).
  assert (Hz : Forall (fun r => highpc r = lowpc r)
                      (fold_left newKallsyms_step (tf_lines f) []))
    by (apply newKallsyms_step_zero_width; constructor).
  split; [reflexivity|]. split; [exact Hz|].
  apply zero_width_gapless.
  rewrite sort_Sort_perm. exact Hz.
Qed.

Lemma setFuncHighPCs_disjoint raw i j ri rj :
  disjointb (sort_Sort raw) = true -> (i < j)%nat ->
  setFuncHighPCs (sort_Sort raw) !! i = Some ri ->
  setFuncHighPCs (sort_Sort raw) !! j = Some rj ->
  highpc ri <= lowpc rj.
Proof.
  intros Hd Hij Hi Hj.
  apply setFuncHighPCs_lookup_inv in Hi as (ri0 & Hi0 & ->).
  apply setFuncHighPCs_lookup_inv in Hj as (rj0 & Hj0 & ->).
  rewrite fill_highpc_lowpc.
  pose proof (lookup_lt_Some _ _ _ Hj0) as Hlen.
  destruct (lookup_lt_is_Some_2 (sort_Sort raw) (S i) ltac:(lia)) as [rn Hn].
  pose proof (sorted_by_lowpc_lookup _ (S i) j rn rj0 (sort_Sort_sorted raw)
                ltac:(lia) Hn Hj0) as Hle.
  pose proof (disjointb_lookup _ i ri0 rn Hd Hi0 Hn) as Hdis.
  unfold fill_highpc. rewrite Hn.
  destruct (highpc ri0 =? lowpc ri0); simpl; lia.
Qed.

Lemma setFuncHighPCs_cover (tab : list funcRange) first lastr a :
  gaplessb tab = true ->
  setFuncHighPCs tab !! 0%nat = Some first ->
  last (setFuncHighPCs tab) = Some lastr ->
  lowpc first <= a < highpc lastr ->
  exists i r, setFuncHighPCs tab !! i = Some r /\ lowpc r <= a < highpc r.
Proof.
  intros Hg. apply abutting_cover.
  intros i r r' Hi Hn.
  apply setFuncHighPCs_lookup_inv in Hi as (r0 & Hi0 & ->).
  apply setFuncHighPCs_lookup_inv in Hn as (rn & Hn0 & ->).
  rewrite fill_highpc_lowpc. unfold fill_highpc. rewrite Hn0.
  destruct (Z.eqb_spec (highpc r0) (lowpc r0)) as [Hz|Hz]; [reflexivity|].
  destruct (gaplessb_lookup tab i r0 rn Hg Hi0 Hn0); [contradiction|assumption].
Qed.

(** C5, amended: the ELF-symbol path and the kernel-symbol parser (not
    the DWARF path, which only sorts) hand the sorted table to the gap
    filling, which sets the high bound of every zero-width range to the
    low bound of the next range, or to [low + 1] (in 64-bit arithmetic)
    for the last, and leaves every other range as it is.  For
    non-overlapping sorted input the result has no overlaps; it has no
    gaps between its first low and its last high when every input range
    but the last is zero-width or already ends where the next begins,
    as is the case for every kernel-symbol table. *)
Theorem gap_filling :
  (forall filename elff tab rel,
     elfFuncTable sort_Sort filename elff = Ok (Some tab, rel) ->
     exists raw, tab = setFuncHighPCs (sort_Sort raw))
  /\ (forall filename s,
        newKallsyms sort_Sort os_Open filename = Val s ->
        exists raw,
          functab s = Some (setFuncHighPCs (sort_Sort raw))
          /\ Forall (fun r => highpc r = lowpc r) raw
          /\ gaplessb (sort_Sort raw) = true)
  /\ (forall raw,
        let tab := sort_Sort raw in
        let tab' := setFuncHighPCs tab in
        length tab' = length tab
        /\ (forall i r, tab !! i = Some r ->
              tab' !! i = Some (fill_highpc tab i r))
        /\ (disjointb tab = true ->
            forall i j ri rj, (i < j)%nat ->
              tab' !! i = Some ri -> tab' !! j = Some rj ->
              highpc ri <= lowpc rj)
        /\ (gaplessb tab = true ->
            forall first lastr a,
              tab' !! 0%nat = Some first -> last tab' = Some lastr ->
              lowpc first <= a < highpc lastr ->
              exists i r, tab' !! i = Some r /\ lowpc r <= a < highpc r)).
Proof.
  split; [exact elfFuncTable_filled|]. split; [exact newKallsyms_filled|].
  intros raw tab tab'. subst tab tab'.
  split; [apply setFuncHighPCs_length|].
  split; [apply setFuncHighPCs_lookup|].
  split.
  - intros Hd i j ri rj. apply setFuncHighPCs_disjoint. exact Hd.
  - intros Hg first lastr a. apply setFuncHighPCs_cover. exact Hg.
Qed.

End GapFilling.

Lemma gap_filling_witness :
  exists i r,
    setFuncHighPCs (sort_by_lowpc two_symbols) !! i = Some r
    /\ lowpc r <= 15 < highpc r.
Proof.
  destruct (gap_filling sort_by_lowpc sort_by_lowpc_perm sort_by_lowpc_sorted
              demo_os_Open) as (_ & _ & H).
  destruct (H two_symbols) as (_ & _ & _ & Hcover).
  apply (Hcover eq_refl (mkFuncRange "a" 10 20 true)
                (mkFuncRange "b" 20 21 true) 15).
  - reflexivity.
  - reflexivity.
  - simpl. lia.
Defined.

(** C5, as stated, fails twice.  The DWARF path does not fill gaps: a
    subprogram whose high address equals its low address stays
    zero-width.  And gap filling only touches zero-width ranges: two
    function symbols with sizes, [[0, 10)] and [[20, 30)], do not
    overlap, and address 15, between the lowest low and the last high,
    is in neither range of the resulting table. *)
Lemma gap_filling_counterexample :
  newSymbolicExtra sort_by_lowpc demo_elf_Open "/bin/zero"
    = Ok (Val (mkSymbolicExtra (Some [mkFuncRange "f" 4096 4096 false])
                               (Some []) false))
  /\ newSymbolicExtra sort_by_lowpc demo_elf_Open "/bin/apart"
       = Ok (Val (mkSymbolicExtra
                    (Some [mkFuncRange "foo" 0 10 false;
                           mkFuncRange "bar" 20 30 false])
                    None false))
  /\ 0 <= 15 < 30
  /\ forall i r,
       [mkFuncRange "foo" 0 10 false; mkFuncRange "bar" 20 30 false] !! i
         = Some r ->
       ~ (lowpc r <= 15 < highpc r).
Proof.
  split; [vm_compute; reflexivity|]. split; [vm_compute; reflexivity|].
  split; [lia|].
  intros i r Hi. destruct i as [|[|i]]; simplify_eq/=; lia.
Qed.

(** ** Image-table invariant (C10) *)

(** C10: every image table a loader returns has its relocation flag
    false whenever it has a line table.  [newSymbolicExtra] returns a
    line table only for a file of type [ET_EXEC] with a [.debug_info] or
    [.zdebug_info] section, and then with the flag false; its
    ELF-symbol path and [newKallsyms] return no line table. *)
Theorem image_table_invariant
    (sort_Sort : list funcRange -> list funcRange)
    (elf_Open : string -> result elfFile)
    (os_Open : string -> result textFile) :
  (forall filename s,
     newSymbolicExtra sort_Sort elf_Open filename = Ok (Val s) ->
     image_invb s = true
     /\ (linetab s <> None ->
         isReloc s = false
         /\ exists elff,
              elf_Open filename = Val elff
              /\ elf_Type elff = ET_EXEC
              /\ (elf_has_Section elff ".debug_info"
                  || elf_has_Section elff ".zdebug_info") = true))
  /\ (forall filename s,
        newKallsyms sort_Sort os_Open filename = Val s ->
        image_invb s = true /\ linetab s = None /\ isReloc s = false).
Proof.
  split.
  - intros filename s H. unfold newSymbolicExtra in H.
    destruct (elf_Open filename) as [elff|] eqn:Hopen; [|discriminate].
    destruct (is_ET_EXEC (elf_Type elff)) eqn:Hexec; cbn [andb] in H.
    + destruct (elf_has_Section elff ".debug_info"
                || elf_has_Section elff ".zdebug_info") eqn:Hdbg.
      * destruct (elf_DWARF elff) as [dwarff|]; [|discriminate].
        destruct (dwarfLineTable dwarff) as [lt|]; [|discriminate].
        cbn in H. injection H as <-.
        split; [reflexivity|]. intros _. split; [reflexivity|].
        exists elff. split; [reflexivity|]. split; [|exact Hdbg].
        destruct (elf_Type elff); try discriminate. reflexivity.
      * cbn in H.
        destruct (elfFuncTable sort_Sort filename elff) as [[ft rel]|];
          [|discriminate].
        cbn in H. injection H as <-. split; [reflexivity|]. intros Hl. done.
    + cbn in H.
      destruct (elfFuncTable sort_Sort filename elff) as [[ft rel]|];
        [|discriminate].
      cbn in H. injection H as <-. split; [reflexivity|]. intros Hl. done.
  - intros filename s H. unfold newKallsyms in H.
    destruct (os_Open filename) as [f|]; [|discriminate].
    destruct (tf_err f); [discriminate|]. injection H as <-.
    repeat split.
Qed.

Lemma image_table_invariant_witness :
  image_invb scenario_A = true
  /\ (linetab scenario_A <> None ->
      isReloc scenario_A = false
      /\ exists elff,
           demo_elf_Open "/bin/a.out" = Val elff
           /\ elf_Type elff = ET_EXEC
           /\ (elf_has_Section elff ".debug_info"
               || elf_has_Section elff ".zdebug_info") = true).
Proof.
  destruct (image_table_invariant sort_by_lowpc demo_elf_Open demo_os_Open)
    as [H _].
  apply (H "/bin/a.out" scenario_A). vm_compute. reflexivity.
Defined.

(** ** The kernel-symbol parser (C9) *)

Lemma fill_highpc_demangled tab i r :
  demangled (fill_highpc tab i r) = demangled r.
Proof.
  unfold fill_highpc. destruct (highpc r =? lowpc r); [|reflexivity].
  destruct (tab !! S i); reflexivity.
Qed.

Lemma is_text_type_spec typ :
  is_text_type typ = true <-> typ = "t"%char \/ typ = "T"%char.
Proof.
  unfold is_text_type. rewrite orb_true_iff, !Ascii.eqb_eq. reflexivity.
Qed.

Lemma newKallsyms_step_app acc text :
  newKallsyms_step acc text = acc ++ newKallsyms_step [] text.
Proof.
  unfold newKallsyms_step.
  destruct (kallsymsRe_FindStringSubmatch text) as [[[a t] n]|];
    [|rewrite app_nil_r; reflexivity].
  destruct (negb (is_text_type t)); [rewrite app_nil_r|]; reflexivity.
Qed.

Lemma newKallsyms_loop lines : forall acc,
  fold_left newKallsyms_step lines acc
  = acc ++ flat_map (newKallsyms_step []) lines.
Proof.
  induction lines as [|text lines IH]; intros acc; simpl.
  - rewrite app_nil_r. reflexivity.
  - rewrite IH, newKallsyms_step_app, <- app_assoc. reflexivity.
Qed.

(** Only the lines that match the pattern with a text type contribute,
    one range each. *)
Lemma newKallsyms_loop_length lines :
  length (flat_map (newKallsyms_step []) lines)
  = length (List.filter text_symbol_line lines).
Proof.
  induction lines as [|text lines IH]; [reflexivity|].
  cbn [flat_map List.filter]. rewrite length_app, IH.
  unfold newKallsyms_step, text_symbol_line.
  destruct (kallsymsRe_FindStringSubmatch text) as [[[a t] n]|]; [|reflexivity].
  destruct (is_text_type t); reflexivity.
Qed.

Lemma newKallsyms_loop_elem lines r :
  r ∈ flat_map (newKallsyms_step []) lines <->
  exists text addr_s typ nm,
    text ∈ lines
    /\ kallsymsRe_FindStringSubmatch text = Some (addr_s, typ, nm)
    /\ (typ = "t"%char \/ typ = "T"%char)
    /\ r = mkFuncRange nm (ParseUint16 addr_s) (ParseUint16 addr_s) true.
Proof.
  rewrite list_elem_of_In, in_flat_map. split.
  - intros (text & Hin & Hr). exists text.
    unfold newKallsyms_step in Hr.
    destruct (kallsymsRe_FindStringSubmatch text) as [[[a t] n]|] eqn:Hm;
      [|inversion Hr].
    destruct (is_text_type t) eqn:Ht; [|inversion Hr].
    exists a, t, n. rewrite list_elem_of_In.
    repeat split; auto; [apply is_text_type_spec; exact Ht|].
    simpl in Hr. destruct Hr as [<-|[]]. reflexivity.
  - intros (text & a & t & n & Hin & Hm & Ht & ->).
    exists text. rewrite <- list_elem_of_In. split; [exact Hin|].
    unfold newKallsyms_step. rewrite Hm.
    apply is_text_type_spec in Ht. rewrite Ht. simpl. auto.
Qed.

Lemma setFuncHighPCs_elem tab r' :
  r' ∈ setFuncHighPCs tab ->
  exists r, r ∈ tab /\ name r' = name r /\ lowpc r' = lowpc r
            /\ demangled r' = demangled r.
Proof.
  intros Hin. apply list_elem_of_lookup in Hin as [i Hi].
  apply setFuncHighPCs_lookup_inv in Hi as (r & Hr & ->).
  exists r. split; [apply list_elem_of_lookup; eauto|].
  rewrite fill_highpc_name, fill_highpc_lowpc, fill_highpc_demangled. auto.
Qed.

Lemma setFuncHighPCs_elem_inv tab r :
  r ∈ tab ->
  exists r', r' ∈ setFuncHighPCs tab /\ name r' = name r /\ lowpc r' = lowpc r.
Proof.
  intros Hin. apply list_elem_of_lookup in Hin as [i Hi].
  exists (fill_highpc tab i r).
  split; [apply list_elem_of_lookup; exists i; apply setFuncHighPCs_lookup; exact Hi|].
  rewrite fill_highpc_name, fill_highpc_lowpc. auto.
Qed.

(** C9: a read failure of the scan is returned as the error; otherwise
    the table has exactly one range for every line that matches the
    line pattern with type character [t] or [T] (named after the line's
    symbol, starting at its address, marked demangled) and none for any
    other line: a line that does not match the pattern is skipped. *)
Theorem newKallsyms_entries
    (sort_Sort : list funcRange -> list funcRange)
    (sort_Sort_perm : forall l, sort_Sort l ≡ₚ l)
    (os_Open : string -> result textFile)
    (filename : string) (f : textFile)
    (Hopen : os_Open filename = Val f) :
  (forall e, tf_err f = Some e ->
     newKallsyms sort_Sort os_Open filename = Err e)
  /\ (tf_err f = None ->
      exists tab,
        newKallsyms sort_Sort os_Open filename
          = Val (mkSymbolicExtra (Some tab) None false)
        /\ length tab = length (List.filter text_symbol_line (tf_lines f))
        /\ (forall r, r ∈ tab ->
              exists text addr_s typ nm,
                text ∈ tf_lines f
                /\ kallsymsRe_FindStringSubmatch text = Some (addr_s, typ, nm)
                /\ (typ = "t"%char \/ typ = "T"%char)
                /\ name r = nm /\ lowpc r = ParseUint16 addr_s
                /\ demangled r = true)
        /\ (forall text addr_s typ nm,
              text ∈ tf_lines f ->
              kallsymsRe_FindStringSubmatch text = Some (addr_s, typ, nm) ->
              typ = "t"%char \/ typ = "T"%char ->
              exists r, r ∈ tab /\ name r = nm
                        /\ lowpc r = ParseUint16 addr_s)).
Proof.
  unfold newKallsyms. rewrite Hopen. split.
  - intros e He. rewrite He. reflexivity.
  - intros He. rewrite He. eexists. split; [reflexivity|].
    rewrite newKallsyms_loop. cbn [app].
    set (raw := flat_map (newKallsyms_step []) (tf_lines f)).
    split; [|split].
    + rewrite setFuncHighPCs_length, sort_Sort_perm.
      apply newKallsyms_loop_length.
    + intros r' Hin.
      apply setFuncHighPCs_elem in Hin as (r & Hin & Hn & Hl & Hd).
      rewrite sort_Sort_perm in Hin.
      apply newKallsyms_loop_elem in Hin
        as (text & a & t & n & Hin & Hm & Ht & ->).
      exists text, a, t, n. simpl in *. auto 10.
    + intros text a t n Hin Hm Ht.
      assert (Hraw : mkFuncRange n (ParseUint16 a) (ParseUint16 a) true ∈ raw).
      { apply newKallsyms_loop_elem. exists text, a, t, n. auto. }
      rewrite <- (sort_Sort_perm raw) in Hraw.
      apply setFuncHighPCs_elem_inv in Hraw as (r' & Hin' & Hn & Hl).
      exists r'. auto.
Qed.

Lemma newKallsyms_entries_witness :
  newKallsyms sort_by_lowpc demo_os_Open "/proc/truncated"
  = Err "read /proc/truncated: input/output error"
  /\ exists tab,
       newKallsyms sort_by_lowpc demo_os_Open "/home/u/.debug/.build-id/ab/cdef"
       = Val (mkSymbolicExtra (Some tab) None false)
       /\ length tab = 2%nat.
Proof.
  split.
  - destruct (newKallsyms_entries sort_by_lowpc sort_by_lowpc_perm demo_os_Open
                "/proc/truncated"
                (mkTextFile ["ffffffff81000000 T start_kernel"]
                            (Some "read /proc/truncated: input/output error"))
                eq_refl) as [H _].
    apply H. reflexivity.
  - destruct (newKallsyms_entries sort_by_lowpc sort_by_lowpc_perm demo_os_Open
                "/home/u/.debug/.build-id/ab/cdef" demo_kallsyms eq_refl)
      as [_ H].
    destruct (H eq_refl) as (tab & Heq & Hlen & _).
    exists tab. split; [exact Heq|]. rewrite Hlen. reflexivity.
Defined.

(** ** The session: locating images (C2) *)

Section SessionFacts.

Variable demangle_Filter : string -> string.
Variable sort_Sort : list funcRange -> list funcRange.
Variable elf_Open : string -> result elfFile.
Variable os_Open : string -> result textFile.
Variable buildIDDir : string.

#[local] Abbreviation buildID_loop' :=
  (buildID_loop sort_Sort elf_Open os_Open buildIDDir).
#[local] Abbreviation getSymbolicExtra' :=
  (getSymbolicExtra sort_Sort elf_Open os_Open buildIDDir).
#[local] Abbreviation Symbolize' :=
  (Symbolize demangle_Filter sort_Sort elf_Open os_Open buildIDDir).
#[local] Abbreviation load_candidate' := (load_candidate sort_Sort elf_Open os_Open).

(** One matching record of the loop, as [load_candidate] sees it. *)
Lemma buildID_loop_cons bid rest key isK tr :
  buildID_loop' (bid :: rest) key isK None tr =
  if String.eqb (bid_Filename bid) key then
    let* path := buildID_path buildIDDir bid in
    let* res := load_candidate' isK path in
    let tr := tr ++ [if isK then LoadKallsyms path else LoadELF path] in
    match res with
    | Val e => Ok (Some e, tr)
    | Err _ => buildID_loop' rest key isK None tr
    end
  else buildID_loop' rest key isK None tr.
Proof.
  cbn [buildID_loop]. destruct (String.eqb (bid_Filename bid) key); [|reflexivity].
  destruct (buildID_path buildIDDir bid) as [path|]; [|reflexivity].
  unfold load_candidate. cbn [obind]. destruct isK; cbn [obind].
  - reflexivity.
  - destruct (newSymbolicExtra sort_Sort elf_Open path); reflexivity.
Qed.

(** The loop ends with the first record whose cache path loads, or with
    nothing after every matching record failed with an error value. *)
Lemma buildID_loop_spec bids key isK : forall tr res tr',
  buildID_loop' bids key isK None tr = Ok (res, tr') ->
  match res with
  | Some e =>
      exists bid path,
        bid ∈ bids /\ bid_Filename bid = key
        /\ buildID_path buildIDDir bid = Ok path
        /\ load_candidate' isK path = Ok (Val e)
  | None =>
      forall bid, bid ∈ bids -> bid_Filename bid = key ->
        exists path err,
          buildID_path buildIDDir bid = Ok path
          /\ load_candidate' isK path = Ok (Err err)
  end.
Proof.
  induction bids as [|bid rest IH]; intros tr res tr' H.
  - cbn in H. injection H as <- <-. intros bid Hin. inversion Hin.
  - rewrite buildID_loop_cons in H.
    destruct (String.eqb_spec (bid_Filename bid) key) as [Hk|Hk].
    + destruct (buildID_path buildIDDir bid) as [path|] eqn:Hp; [|discriminate].
      cbn [obind] in H.
      destruct (load_candidate' isK path) as [[e|err]|] eqn:Hl;
        cbn [obind] in H; [| |discriminate].
      * injection H as <- <-. exists bid, path. repeat split; auto. left.
      * specialize (IH _ _ _ H). destruct res as [e|].
        -- destruct IH as (b & p & Hin & Hrest). exists b, p.
           split; [right; exact Hin|exact Hrest].
        -- intros b Hin Hb. apply elem_of_cons in Hin as [->|Hin]; eauto.
    + specialize (IH _ _ _ H). destruct res as [e|].
      * destruct IH as (b & p & Hin & Hrest). exists b, p.
        split; [right; exact Hin|exact Hrest].
      * intros b Hin Hb. apply elem_of_cons in Hin as [->|Hin];
          [contradiction|eauto].
Qed.

(** When every matching record fails with an error value the loop
    returns, having only called loaders. *)
Lemma buildID_loop_all_fail bids key isK : forall tr,
  (forall bid, bid ∈ bids -> bid_Filename bid = key ->
     exists path err,
       buildID_path buildIDDir bid = Ok path
       /\ load_candidate' isK path = Ok (Err err)) ->
  exists ext,
    buildID_loop' bids key isK None tr = Ok (None, tr ++ ext)
    /\ Forall (fun ev => forall msg, ev <> LogPrintln msg) ext.
Proof.
  induction bids as [|bid rest IH]; intros tr Hall.
  - exists []. rewrite app_nil_r. split; [reflexivity|constructor].
  - rewrite buildID_loop_cons.
    destruct (String.eqb_spec (bid_Filename bid) key) as [Hk|Hk].
    + destruct (Hall bid ltac:(left) Hk) as (path & err & Hp & Hl).
      rewrite Hp. cbn [obind]. rewrite Hl. cbn [obind].
      destruct (IH (tr ++ [if isK then LoadKallsyms path else LoadELF path]))
        as (ext & Hext & Hno).
      { intros b Hin. apply Hall. right. exact Hin. }
      exists ((if isK then LoadKallsyms path else LoadELF path) :: ext).
      rewrite Hext, <- app_assoc. split; [reflexivity|].
      constructor; [destruct isK; discriminate|exact Hno].
    + destruct (IH tr) as (ext & Hext & Hno).
      { intros b Hin. apply Hall. right. exact Hin. }
      exists ext. auto.
Qed.

(** A request for a file name the memo table has bound returns what
    is stored and touches nothing. *)
Lemma getSymbolicExtra_hit session filename v :
  tables_of session !! memo_key filename = Some v ->
  getSymbolicExtra' session filename
  = Ok (v, mkSession (BuildIDs session) (Some (tables_of session))
                     (trace session)).
Proof.
  intros Hv. unfold getSymbolicExtra. unfold memo_key in Hv.
  rewrite Hv. reflexivity.
Qed.

(** A request for a file name the memo table has not bound. *)
Lemma getSymbolicExtra_miss session filename :
  tables_of session !! memo_key filename = None ->
  getSymbolicExtra' session filename =
  let* (extra, tr) :=
    buildID_loop' (BuildIDs session) (memo_key filename)
                  (String.prefix kallsyms_name filename) None (trace session) in
  let* (extra, tr) :=
    match extra with
    | None =>
        let* r := newSymbolicExtra sort_Sort elf_Open (memo_key filename) in
        match r with
        | Val e => Ok (Some e, tr ++ [LoadELF (memo_key filename)])
        | Err err =>
            Ok (None, tr ++ [LoadELF (memo_key filename); LogPrintln err])
        end
    | Some _ => Ok (extra, tr)
    end in
  Ok (extra,
      mkSession (BuildIDs session)
                (Some (<[memo_key filename := extra]>
                         (<[memo_key filename := None]> (tables_of session))))
                tr).
Proof.
  intros Hv. unfold getSymbolicExtra. unfold memo_key in *.
  rewrite Hv. reflexivity.
Qed.

(** What a request for a table returns, in terms of the loads. *)
Lemma getSymbolicExtra_located session filename res session' :
  getSymbolicExtra' session filename = Ok (res, session') ->
  res <> None <->
  image_located sort_Sort elf_Open os_Open buildIDDir session filename.
Proof.
  intros H. unfold image_located, cache_loads.
  destruct (tables_of session !! memo_key filename) as [v|] eqn:Hv.
  - rewrite (getSymbolicExtra_hit _ _ _ Hv) in H. injection H as <- _.
    reflexivity.
  - rewrite (getSymbolicExtra_miss _ _ Hv) in H.
    destruct (buildID_loop' _ _ _ _ _) as [[extra tr]|] eqn:Hloop;
      [|discriminate].
    pose proof (buildID_loop_spec _ _ _ _ _ _ Hloop) as Hspec.
    cbn [obind] in H. destruct extra as [e|].
    + cbn [obind] in H. injection H as <- _.
      destruct Hspec as (bid & path & Hin & Hk & Hp & Hl).
      split; [|done]. intros _. left. exists bid, path, e. auto.
    + destruct (newSymbolicExtra sort_Sort elf_Open (memo_key filename))
        as [[e|err]|] eqn:Horig; cbn [obind] in H; [| |discriminate].
      * injection H as <- _. split; [|done]. intros _. right. eauto.
      * injection H as <- _. split; [done|].
        intros [(bid & path & s & Hin & Hk & Hp & Hl)|[s Hs]]; [|discriminate].
        destruct (Hspec bid Hin Hk) as (path' & err' & Hp' & Hl').
        congruence.
Qed.

(** C2: when [Symbolize] returns, it returns [false] exactly when no
    image can be located for the mapping's file name (the memo table
    holds the nil sentinel for it, or holds nothing and neither a
    build-ID cache path nor the original path loads), and then leaves
    [out] alone; when it returns [true] the function name is that of
    the range [findIP] returns, or empty if it returns none, and the
    line is the entry [findIP] returns, or the zero value if it returns
    none. *)
Theorem Symbolize_success
    (session : Session) (mmap : Mmap) (ip : Z) (out : Symbolic)
    (b : bool) (out' : Symbolic) (session' : Session)
    (Hrun : Symbolize' session mmap ip out = Ok (b, out', session')) :
  (b = false <->
   ~ image_located sort_Sort elf_Open os_Open buildIDDir session (Filename mmap))
  /\ (b = false -> out' = out)
  /\ (b = true ->
      exists s session1,
        getSymbolicExtra' session (Filename mmap) = Ok (Some s, session1)
        /\ let r := findIP demangle_Filter s mmap ip in
           FuncName out' = match fr_func r with
                           | Some f => name f
                           | None => EmptyString
                           end
           /\ Line out' = match fr_line r with
                          | Some l => l
                          | None => LineEntry_zero
                          end
           /\ (fr_f r = None -> FuncName out' = EmptyString)
           /\ (fr_l r = None -> Line out' = LineEntry_zero)).
Proof.
  unfold Symbolize in Hrun.
  destruct (getSymbolicExtra' session (Filename mmap)) as [[res session1]|] eqn:Hget;
    [|discriminate].
  pose proof (getSymbolicExtra_located _ _ _ _ Hget) as Hloc.
  cbn [obind] in Hrun. destruct res as [s|].
  - injection Hrun as <- <- _. split; [|split].
    + split; [discriminate|]. intros Hn. exfalso. apply Hn, Hloc. done.
    + discriminate.
    + intros _. exists s, session1. split; [reflexivity|].
      cbv zeta. cbn [FuncName Line]. repeat split.
      * intros Hf. unfold fr_func. rewrite Hf. reflexivity.
      * intros Hl. unfold fr_line. rewrite Hl. reflexivity.
  - injection Hrun as <- <- _. split; [|split].
    + split; [|reflexivity]. intros _ Hn. apply Hloc in Hn. done.
    + reflexivity.
    + discriminate.
Qed.

End SessionFacts.

Lemma Symbolize_success_witness :
  ~ image_located sort_by_lowpc demo_elf_Open demo_os_Open demo_buildIDDir
      demo_session "/bin/missing".
Proof.
  assert (H : exists session',
            Symbolize strip_Z sort_by_lowpc demo_elf_Open demo_os_Open
                      demo_buildIDDir demo_session
                      (mkMmap "/bin/missing" 0 0) 4101
                      (mkSymbolic "" LineEntry_zero)
            = Ok (false, mkSymbolic "" LineEntry_zero, session'))
    by (eexists; vm_compute; reflexivity).
  destruct H as [session' H].
  apply (Symbolize_success strip_Z sort_by_lowpc demo_elf_Open demo_os_Open
           demo_buildIDDir demo_session (mkMmap "/bin/missing" 0 0) 4101
           (mkSymbolic "" LineEntry_zero) false
           (mkSymbolic "" LineEntry_zero) session' H).
  reflexivity.
Defined.

(** ** The session: memoization (C3) *)

Lemma same_image_refl v : same_image v v.
Proof. destruct v; simpl; auto. Qed.

Lemma same_image_trans v1 v2 v3 :
  same_image v1 v2 -> same_image v2 v3 -> same_image v1 v3.
Proof.
  destruct v1, v2, v3; simpl; try tauto.
  intros (H1 & H2 & H3) (H4 & H5 & H6). repeat split; congruence.
Qed.

Lemma same_image_None v : same_image None v -> v = None.
Proof. destruct v; simpl; tauto. Qed.

(** [findIP] changes names and bits only. *)
Lemma findIP_same_image demangle_Filter s mmap ip :
  same_image (Some s) (Some (fr_table (findIP demangle_Filter s mmap ip))).
Proof.
  simpl. destruct (functab s) as [tab|] eqn:Hs.
  - pose proof (findIP_step demangle_Filter s mmap ip tab Hs) as Hstep.
    cbv zeta in Hstep.
    assert (Hb : bounds (functab (fr_table (findIP demangle_Filter s mmap ip)))
                 = bounds (Some tab)).
    { destruct (fr_f (findIP demangle_Filter s mmap ip)) as [j|].
      - destruct Hstep as (r & Hj & Hcase). destruct (demangled r).
        + destruct Hcase as [-> _]. reflexivity.
        + destruct Hcase as [-> _]. simpl. f_equal.
          rewrite list_fmap_insert. apply list_insert_id.
          rewrite list_lookup_fmap, Hj. reflexivity.
      - destruct Hstep as [-> _]. reflexivity. }
    split; [exact Hb|].
    unfold findIP. destruct (findIP_func _ _ _ _) as [[[a t] f] c]. auto.
  - unfold findIP, findIP_func. rewrite Hs. simpl. auto.
Qed.

Lemma memo_fixed_kept t t' : memo_fixed t t' -> memo_kept t t'.
Proof. intros H k v Hk. exists v. split; [auto|apply same_image_refl]. Qed.

Lemma memo_kept_trans t1 t2 t3 :
  memo_kept t1 t2 -> memo_kept t2 t3 -> memo_kept t1 t3.
Proof.
  intros H12 H23 k v Hk. destruct (H12 k v Hk) as (v2 & Hk2 & Hs2).
  destruct (H23 k v2 Hk2) as (v3 & Hk3 & Hs3).
  exists v3. split; [exact Hk3|]. eapply same_image_trans; eauto.
Qed.

Lemma memo_fixed_trans t1 t2 t3 :
  memo_fixed t1 t2 -> memo_fixed t2 t3 -> memo_fixed t1 t3.
Proof. intros H12 H23 k v Hk. auto. Qed.

Section Memo.

Variable demangle_Filter : string -> string.
Variable sort_Sort : list funcRange -> list funcRange.
Variable elf_Open : string -> result elfFile.
Variable os_Open : string -> result textFile.
Variable buildIDDir : string.

#[local] Abbreviation getSymbolicExtra'' :=
  (getSymbolicExtra sort_Sort elf_Open os_Open buildIDDir).
#[local] Abbreviation Symbolize'' :=
  (Symbolize demangle_Filter sort_Sort elf_Open os_Open buildIDDir).
#[local] Abbreviation serve'' :=
  (serve demangle_Filter sort_Sort elf_Open os_Open buildIDDir).
#[local] Abbreviation serve_all'' :=
  (serve_all demangle_Filter sort_Sort elf_Open os_Open buildIDDir).

(** A request for a table leaves the memo table with the result stored
    under the key and every earlier binding unchanged. *)
Lemma getSymbolicExtra_stores session filename r session' :
  getSymbolicExtra'' session filename = Ok (r, session') ->
  exists t',
    Extra_symbolic session' = Some t'
    /\ t' !! memo_key filename = Some r
    /\ memo_fixed (tables_of session) t'.
Proof.
  intros H.
  destruct (tables_of session !! memo_key filename) as [v|] eqn:Hv.
  - rewrite (getSymbolicExtra_hit _ _ _ _ _ _ _ Hv) in H.
    injection H as <- <-. exists (tables_of session).
    repeat split; auto. intros k v' Hk. exact Hk.
  - rewrite (getSymbolicExtra_miss _ _ _ _ _ _ Hv) in H.
    destruct (buildID_loop _ _ _ _ _ _ _ _ _) as [[extra tr]|]; [|discriminate].
    cbn [obind] in H.
    assert (Hfin : forall extra' tr',
              Ok (extra',
                  mkSession (BuildIDs session)
                    (Some (<[memo_key filename := extra']>
                             (<[memo_key filename := None]> (tables_of session))))
                    tr') = Ok (r, session') ->
              exists t', Extra_symbolic session' = Some t'
                /\ t' !! memo_key filename = Some r
                /\ memo_fixed (tables_of session) t').
    { intros extra' tr' [= <- <-]. eexists. split; [reflexivity|].
      split; [apply lookup_insert_eq|].
      intros k v Hk. assert (k <> memo_key filename) by congruence.
      rewrite !lookup_insert_ne by done. exact Hk. }
    destruct extra as [e|]; cbn [obind] in H; [eapply Hfin; exact H|].
    destruct (newSymbolicExtra sort_Sort elf_Open (memo_key filename))
      as [[e|err]|]; cbn [obind] in H; [| |discriminate]; eapply Hfin; exact H.
Qed.

Lemma tables_of_Some session t :
  Extra_symbolic session = Some t -> tables_of session = t.
Proof. unfold tables_of. intros ->. reflexivity. Qed.

(** A request for a symbol keeps every binding, as the same image. *)
Lemma Symbolize_keeps session mmap ip out b out' session' :
  Symbolize'' session mmap ip out = Ok (b, out', session') ->
  exists t',
    Extra_symbolic session' = Some t'
    /\ memo_kept (tables_of session) t'.
Proof.
  unfold Symbolize. intros H.
  destruct (getSymbolicExtra'' session (Filename mmap)) as [[res s1]|] eqn:Hget;
    [|discriminate].
  destruct (getSymbolicExtra_stores _ _ _ _ Hget) as (t1 & Ht1 & Hk1 & Hfix).
  cbn [obind] in H. destruct res as [s|].
  - injection H as _ _ <-. eexists. split; [reflexivity|].
    rewrite (tables_of_Some _ _ Ht1).
    intros k v Hk. apply Hfix in Hk.
    destruct (decide (k = memo_key (Filename mmap))) as [->|Hne].
    + rewrite lookup_insert_eq. eexists. split; [reflexivity|].
      rewrite Hk1 in Hk. injection Hk as <-. apply findIP_same_image.
    + rewrite lookup_insert_ne by done. exists v.
      split; [exact Hk|apply same_image_refl].
  - injection H as _ _ <-. exists t1. split; [exact Ht1|].
    apply memo_fixed_kept. exact Hfix.
Qed.

Lemma serve_keeps session q session' :
  serve'' session q = Ok session' ->
  exists t',
    Extra_symbolic session' = Some t'
    /\ memo_kept (tables_of session) t'
    /\ (is_Lookup q -> memo_fixed (tables_of session) t').
Proof.
  destruct q as [filename|mmap ip]; cbn [serve]; intros H.
  - destruct (getSymbolicExtra'' session filename) as [[r s1]|] eqn:Hget;
      [|discriminate].
    cbn [obind] in H. injection H as <-.
    destruct (getSymbolicExtra_stores _ _ _ _ Hget) as (t1 & Ht1 & _ & Hfix).
    exists t1. split; [exact Ht1|]. split; [apply memo_fixed_kept|]; auto.
  - destruct (Symbolize'' session mmap ip _) as [[[b o] s1]|] eqn:Hsym;
      [|discriminate].
    cbn [obind] in H. injection H as <-.
    destruct (Symbolize_keeps _ _ _ _ _ _ _ Hsym) as (t1 & Ht1 & Hkept).
    exists t1. split; [exact Ht1|]. split; [exact Hkept|]. intros [].
Qed.

Lemma serve_all_keeps qs : forall session session' t,
  Extra_symbolic session = Some t ->
  serve_all'' session qs = Ok session' ->
  exists t',
    Extra_symbolic session' = Some t'
    /\ memo_kept t t'
    /\ (Forall is_Lookup qs -> memo_fixed t t').
Proof.
  induction qs as [|q qs IH]; intros session session' t Ht H.
  - cbn in H. injection H as <-. exists t. split; [exact Ht|].
    split; [apply memo_fixed_kept|intros _]; intros k v Hk; exact Hk.
  - cbn [serve_all] in H.
    destruct (serve'' session q) as [s1|] eqn:Hq; [|discriminate].
    cbn [obind] in H.
    destruct (serve_keeps _ _ _ Hq) as (t1 & Ht1 & Hkept1 & Hfix1).
    rewrite (tables_of_Some _ _ Ht) in Hkept1, Hfix1.
    destruct (IH s1 session' t1 Ht1 H) as (t' & Ht' & Hkept & Hfix).
    exists t'. split; [exact Ht'|]. split.
    + eapply memo_kept_trans; eauto.
    + intros Hall. apply Forall_cons in Hall as [Hq' Hall].
      eapply memo_fixed_trans; eauto.
Qed.

(** C3: once a request for the table of a file name has returned, every
    later request for a file name with the same memo key, after any
    other requests to the session, returns what the memo table holds
    and leaves the session as it is: no loader is called and nothing is
    logged.  What it returns is the image first stored (the nil
    sentinel stays the nil sentinel, a table stays the same table up to
    names demangled in place), and the very same value if the requests
    in between were requests for tables. *)
Theorem getSymbolicExtra_memoized
    (session : Session) (filename : string) (r : option symbolicExtra)
    (session1 : Session) (qs : list request) (session2 : Session)
    (filename' : string)
    (Hfirst : getSymbolicExtra'' session filename = Ok (r, session1))
    (Hrun : serve_all'' session1 qs = Ok session2)
    (Hkey : memo_key filename' = memo_key filename) :
  tables_of session1 !! memo_key filename = Some r
  /\ exists r',
       getSymbolicExtra'' session2 filename' = Ok (r', session2)
       /\ same_image r r'
       /\ (r = None -> r' = None)
       /\ (Forall is_Lookup qs -> r' = r).
Proof.
  destruct (getSymbolicExtra_stores _ _ _ _ Hfirst) as (t1 & Ht1 & Hk1 & _).
  rewrite (tables_of_Some _ _ Ht1). split; [exact Hk1|].
  destruct (serve_all_keeps qs _ _ _ Ht1 Hrun) as (t2 & Ht2 & Hkept & Hfix).
  destruct (Hkept _ _ Hk1) as (r' & Hk2 & Hsame).
  exists r'. split; [|split; [exact Hsame|split]].
  - rewrite (getSymbolicExtra_hit _ _ _ _ _ _ r').
    + rewrite (tables_of_Some _ _ Ht2), <- Ht2. destruct session2; reflexivity.
    + rewrite (tables_of_Some _ _ Ht2), Hkey. exact Hk2.
  - intros ->. apply same_image_None. exact Hsame.
  - intros Hall. specialize (Hfix Hall _ _ Hk1). congruence.
Qed.

End Memo.

Lemma getSymbolicExtra_memoized_witness :
  exists session2,
    getSymbolicExtra sort_by_lowpc demo_elf_Open demo_os_Open demo_buildIDDir
                     session2 "/bin/missing" = Ok (None, session2).
Proof.
  assert (H : exists session1 session2,
            getSymbolicExtra sort_by_lowpc demo_elf_Open demo_os_Open
                             demo_buildIDDir demo_session "/bin/missing"
            = Ok (None, session1)
            /\ serve_all strip_Z sort_by_lowpc demo_elf_Open demo_os_Open
                         demo_buildIDDir session1 demo_requests
               = Ok session2)
    by (do 2 eexists; split; [vm_compute; reflexivity|vm_compute; reflexivity]).
  destruct H as (session1 & session2 & H1 & H2).
  destruct (getSymbolicExtra_memoized strip_Z sort_by_lowpc demo_elf_Open
              demo_os_Open demo_buildIDDir demo_session "/bin/missing" None
              session1 demo_requests session2 "/bin/missing" H1 H2 eq_refl)
    as (_ & r' & Hget & _ & Hnone & _).
  exists session2. rewrite Hget, (Hnone eq_refl). reflexivity.
Defined.

(** ** Failures of the loaders (C4) *)

Lemma skip_siblings_elem s : forall depth x,
  x ∈ (skip_siblings depth s).1 -> x ∈ s.
Proof.
  induction s as [|it rest IH]; intros depth x Hx; [exact Hx|].
  destruct it as [ent|e]; [|exact Hx]. cbn [skip_siblings] in Hx.
  right.
  destruct (e_Tag ent); try (destruct (e_Children ent); eapply IH; exact Hx).
  destruct depth; [exact Hx|eapply IH; exact Hx].
Qed.

Lemma skip_siblings_length s : forall depth,
  (length (skip_siblings depth s).1 <= length s)%nat.
Proof.
  induction s as [|it rest IH]; intros depth; [reflexivity|].
  destruct it as [ent|e]; [|reflexivity]. cbn [skip_siblings length].
  destruct (e_Tag ent);
    try (destruct (e_Children ent);
         match goal with |- context [skip_siblings ?d rest] =>
           specialize (IH d); lia end).
  destruct depth; [simpl; lia|specialize (IH depth); lia].
Qed.

Lemma Reader_SkipChildren_elem r x :
  x ∈ r_rest (Reader_SkipChildren r) -> x ∈ r_rest r.
Proof.
  unfold Reader_SkipChildren. destruct (r_err r); [auto|].
  destruct (r_lastChildren r); [|auto].
  destruct (skip_siblings 0 (r_rest r)) as [rest err] eqn:E. cbn [r_rest].
  intros Hx. apply (skip_siblings_elem _ 0). rewrite E. exact Hx.
Qed.

Lemma Reader_SkipChildren_length r :
  (length (r_rest (Reader_SkipChildren r)) <= length (r_rest r))%nat.
Proof.
  unfold Reader_SkipChildren. destruct (r_err r); [reflexivity|].
  destruct (r_lastChildren r); [|reflexivity].
  pose proof (skip_siblings_length (r_rest r) 0) as H.
  destruct (skip_siblings 0 (r_rest r)) as [rest err]. exact H.
Qed.

Lemma Reader_Next_entry r ent r' :
  Reader_Next r = (Val (Some ent), r') ->
  r_rest r = ItemEntry ent :: r_rest r'.
Proof.
  unfold Reader_Next. destruct (r_err r); [discriminate|].
  destruct (r_rest r) as [|[e|e] rest]; try discriminate.
  intros [= <- <-]. reflexivity.
Qed.

(** [dwarfLineTable] ends the process only on a compilation unit whose
    line-number program cannot be opened or decoded. *)
Lemma dwarfLineTable_loop_abort fuel : forall dr out w,
  dwarfLineTable_loop fuel dr out = Abort w ->
  exists ent msg,
    ItemEntry ent ∈ r_rest dr /\ w = LogFatal msg /\ bad_line_program ent msg.
Proof.
  induction fuel as [|fuel IH]; intros dr out w H; [discriminate|].
  cbn [dwarfLineTable_loop] in H.
  destruct (Reader_Next dr) as [res dr'] eqn:Hnext.
  destruct res as [[ent|]|]; try discriminate.
  pose proof (Reader_Next_entry _ _ _ Hnext) as Hrest.
  assert (Hskip : dwarfLineTable_loop fuel (Reader_SkipChildren dr') out = Abort w ->
                  exists ent0 msg, ItemEntry ent0 ∈ r_rest dr /\ w = LogFatal msg
                                   /\ bad_line_program ent0 msg).
  { intros H'. destruct (IH _ _ _ H') as (e0 & msg & Hin & Hw & Hbad).
    exists e0, msg. rewrite Hrest. split; [|auto].
    right. apply Reader_SkipChildren_elem. exact Hin. }
  assert (Hstay : forall out', dwarfLineTable_loop fuel dr' out' = Abort w ->
                  exists ent0 msg, ItemEntry ent0 ∈ r_rest dr /\ w = LogFatal msg
                                   /\ bad_line_program ent0 msg).
  { intros out' H'. destruct (IH _ _ _ H') as (e0 & msg & Hin & Hw & Hbad).
    exists e0, msg. rewrite Hrest. split; [right; exact Hin|auto]. }
  destruct (e_Tag ent) eqn:Htag; try (apply Hskip; exact H).
  destruct (e_lines ent) as [e| |entries [e|]] eqn:Hlines.
  - injection H as <-. exists ent, e. rewrite Hrest.
    split; [left|]. split; [reflexivity|]. split; auto.
  - eapply Hstay; exact H.
  - injection H as <-. exists ent, e. rewrite Hrest.
    split; [left|]. split; [reflexivity|]. split; eauto.
  - eapply Hstay; exact H.
Qed.

(** The fuel given to the loops over the DWARF entries is never used
    up: with more fuel than items the result does not depend on it. *)
Lemma dwarfLineTable_loop_fuel fuel : forall fuel' dr out,
  (length (r_rest dr) < fuel)%nat -> (length (r_rest dr) < fuel')%nat ->
  dwarfLineTable_loop fuel dr out = dwarfLineTable_loop fuel' dr out.
Proof.
  induction fuel as [|fuel IH]; intros fuel' dr out H1 H2; [lia|].
  destruct fuel' as [|fuel']; [lia|]. cbn [dwarfLineTable_loop].
  destruct (Reader_Next dr) as [res dr'] eqn:Hnext.
  destruct res as [[ent|]|]; try reflexivity.
  pose proof (Reader_Next_entry _ _ _ Hnext) as Hrest.
  rewrite Hrest in H1, H2. cbn [length] in H1, H2.
  pose proof (Reader_SkipChildren_length dr') as Hs.
  destruct (e_Tag ent); try (apply IH; lia).
  destruct (e_lines ent) as [e| |entries [e|]]; try reflexivity; apply IH; lia.
Qed.

Lemma dwarfFuncTable_loop_fuel fuel : forall fuel' r out,
  (length (r_rest r) < fuel)%nat -> (length (r_rest r) < fuel')%nat ->
  dwarfFuncTable_loop fuel r out = dwarfFuncTable_loop fuel' r out.
Proof.
  induction fuel as [|fuel IH]; intros fuel' r out H1 H2; [lia|].
  destruct fuel' as [|fuel']; [lia|]. cbn [dwarfFuncTable_loop].
  destruct (Reader_Next r) as [res r'] eqn:Hnext.
  destruct res as [[ent|]|]; try reflexivity.
  pose proof (Reader_Next_entry _ _ _ Hnext) as Hrest.
  rewrite Hrest in H1, H2. cbn [length] in H1, H2.
  pose proof (Reader_SkipChildren_length r') as Hs.
  destruct (e_Tag ent); try (apply IH; lia).
  destruct (subprogram_range ent); apply IH; lia.
Qed.

Section LoadFailures.

Variable demangle_Filter : string -> string.
Variable sort_Sort : list funcRange -> list funcRange.
Variable elf_Open : string -> result elfFile.
Variable os_Open : string -> result textFile.
Variable buildIDDir : string.

#[local] Abbreviation newSymbolicExtra' :=
  (newSymbolicExtra sort_Sort elf_Open).
#[local] Abbreviation Symbolize3 :=
  (Symbolize demangle_Filter sort_Sort elf_Open os_Open buildIDDir).

(** [newSymbolicExtra] on a file that opens, by the path it takes. *)
Lemma newSymbolicExtra_opened filename elff :
  elf_Open filename = Val elff ->
  newSymbolicExtra' filename =
  if uses_DWARF elff then
    match elf_DWARF elff with
    | Err err =>
        Ok (Err ("error loading DWARF from " +:+ filename +:+ ": " +:+ err))
    | Val dwarff =>
        let* lt := dwarfLineTable dwarff in
        let* lt' := dwarfLineTable dwarff in
        Ok (Val (mkSymbolicExtra (dwarfFuncTable sort_Sort dwarff) (Some lt')
                                 false))
    end
  else
    let* (ft, rel) := elfFuncTable sort_Sort filename elff in
    Ok (Val (mkSymbolicExtra ft None rel)).
Proof.
  intros Hopen. unfold newSymbolicExtra, uses_DWARF. rewrite Hopen.
  destruct (is_ET_EXEC (elf_Type elff) && _); reflexivity.
Qed.

Lemma elfFuncTable_abort filename elff w :
  elfFuncTable sort_Sort filename elff = Abort w ->
  (elf_Type elff = ET_EXEC \/ elf_Type elff = ET_DYN)
  /\ exists e, elf_Symbols elff = SymbolsErrOther e
               /\ w = LogFatal (filename +:+ ": " +:+ e).
Proof.
  unfold elfFuncTable. intros H.
  destruct (elf_Type elff); try discriminate;
    destruct (elf_Symbols elff) as [syms| |e]; try discriminate;
    injection H as <-; eauto.
Qed.

(** Where [newSymbolicExtra] ends the process. *)
Lemma newSymbolicExtra_abort filename w :
  newSymbolicExtra' filename = Abort w ->
  exists elff msg,
    elf_Open filename = Val elff /\ w = LogFatal msg
    /\ ((uses_DWARF elff = false
         /\ (elf_Type elff = ET_EXEC \/ elf_Type elff = ET_DYN)
         /\ exists e, elf_Symbols elff = SymbolsErrOther e
                      /\ msg = filename +:+ ": " +:+ e)
        \/ (uses_DWARF elff = true
            /\ exists dwarff ent,
                 elf_DWARF elff = Val dwarff
                 /\ ItemEntry ent ∈ dwarff /\ bad_line_program ent msg)).
Proof.
  intros H. destruct (elf_Open filename) as [elff|e] eqn:Hopen.
  - rewrite (newSymbolicExtra_opened _ _ Hopen) in H.
    destruct (uses_DWARF elff) eqn:Hd.
    + destruct (elf_DWARF elff) as [dwarff|e] eqn:Hdw; [|discriminate].
      assert (Hab : dwarfLineTable dwarff = Abort w).
      { destruct (dwarfLineTable dwarff) as [lt|w']; [|cbn in H; congruence].
        cbn in H. discriminate. }
      apply dwarfLineTable_loop_abort in Hab as (ent & msg & Hin & -> & Hbad).
      exists elff, msg. split; [reflexivity|]. split; [reflexivity|].
      right. split; [exact Hd|]. exists dwarff, ent. auto.
    + destruct (elfFuncTable sort_Sort filename elff) as [[ft rel]|w'] eqn:He;
        [cbn in H; discriminate|].
      cbn in H. injection H as ->.
      apply elfFuncTable_abort in He as (Hty & e & Hsym & ->).
      exists elff, (filename +:+ ": " +:+ e).
      split; [reflexivity|]. split; [reflexivity|]. left. eauto.
  - unfold newSymbolicExtra in H. rewrite Hopen in H. discriminate.
Qed.

(** C4, amended: a failure to open the image or to load its debug
    information is returned to the image locator as an error value, and
    when every attempt for a file name fails in that way [Symbolize]
    returns [false], leaves [out] alone, stores the nil sentinel and
    logs the last error: nothing else leaves the package.  A failure to
    read the ELF symbols other than the absence of a symbol section,
    and a failure to open or decode the line-number program of a
    compilation unit, end the process through [log.Fatal]; the process
    is ended by the loaders in no other case. *)
Theorem load_failures (filename : string) :
  (forall e, elf_Open filename = Err e ->
     newSymbolicExtra' filename
     = Ok (Err ("error loading ELF file " +:+ filename +:+ ": " +:+ e)))
  /\ (forall elff e,
        elf_Open filename = Val elff -> uses_DWARF elff = true ->
        elf_DWARF elff = Err e ->
        newSymbolicExtra' filename
        = Ok (Err ("error loading DWARF from " +:+ filename +:+ ": " +:+ e)))
  /\ (forall e, os_Open filename = Err e ->
        newKallsyms sort_Sort os_Open filename
        = Err ("error loading kallsyms from " +:+ filename +:+ ": " +:+ e))
  /\ (forall elff e,
        elf_Open filename = Val elff -> uses_DWARF elff = false ->
        elf_Type elff = ET_EXEC \/ elf_Type elff = ET_DYN ->
        elf_Symbols elff = SymbolsErrOther e ->
        newSymbolicExtra' filename
        = Abort (LogFatal (filename +:+ ": " +:+ e)))
  /\ (forall elff dwarff w,
        elf_Open filename = Val elff -> uses_DWARF elff = true ->
        elf_DWARF elff = Val dwarff -> dwarfLineTable dwarff = Abort w ->
        newSymbolicExtra' filename = Abort w)
  /\ (forall w,
        newSymbolicExtra' filename = Abort w ->
        exists elff msg,
          elf_Open filename = Val elff /\ w = LogFatal msg
          /\ ((uses_DWARF elff = false
               /\ (elf_Type elff = ET_EXEC \/ elf_Type elff = ET_DYN)
               /\ exists e, elf_Symbols elff = SymbolsErrOther e
                            /\ msg = filename +:+ ": " +:+ e)
              \/ (uses_DWARF elff = true
                  /\ exists dwarff ent,
                       elf_DWARF elff = Val dwarff
                       /\ ItemEntry ent ∈ dwarff /\ bad_line_program ent msg)))
  /\ (forall session mmap ip out err,
        Filename mmap = filename ->
        tables_of session !! memo_key filename = None ->
        all_loads_fail sort_Sort elf_Open os_Open buildIDDir session filename err ->
        exists session' ext,
          Symbolize3 session mmap ip out = Ok (false, out, session')
          /\ BuildIDs session' = BuildIDs session
          /\ tables_of session' !! memo_key filename = Some None
          /\ trace session'
             = trace session ++ ext
               ++ [LoadELF (memo_key filename); LogPrintln err]
          /\ Forall (fun ev => forall msg, ev <> LogPrintln msg) ext).
Proof.
  split; [|split; [|split; [|split; [|split; [|split]]]]].
  - intros e He. unfold newSymbolicExtra. rewrite He. reflexivity.
  - intros elff e Hopen Hd Hdw.
    rewrite (newSymbolicExtra_opened _ _ Hopen), Hd, Hdw. reflexivity.
  - intros e He. unfold newKallsyms. rewrite He. reflexivity.
  - intros elff e Hopen Hd Hty Hsym.
    rewrite (newSymbolicExtra_opened _ _ Hopen), Hd.
    unfold elfFuncTable. rewrite Hsym.
    destruct Hty as [-> | ->]; reflexivity.
  - intros elff dwarff w Hopen Hd Hdw Hab.
    rewrite (newSymbolicExtra_opened _ _ Hopen), Hd, Hdw, Hab. reflexivity.
  - apply newSymbolicExtra_abort.
  - intros session mmap ip out err Hname Hmiss [Hbids Horig].
    unfold Symbolize. rewrite Hname.
    rewrite (getSymbolicExtra_miss _ _ _ _ _ _ Hmiss).
    destruct (buildID_loop_all_fail sort_Sort elf_Open os_Open buildIDDir
                (BuildIDs session) (memo_key filename)
                (String.prefix kallsyms_name filename) (trace session) Hbids)
      as (ext & Hloop & Hno).
    rewrite Hloop. cbn [obind]. rewrite Horig. cbn [obind].
    eexists. exists ext. split; [reflexivity|].
    split; [reflexivity|]. split; [|split].
    + unfold tables_of. cbn [Extra_symbolic]. apply lookup_insert_eq.
    + cbn [trace]. rewrite <- app_assoc. reflexivity.
    + exact Hno.
Qed.

End LoadFailures.

(** C4, as stated, fails: a symbol table that cannot be read, and a
    line-number program that cannot be decoded, end the process in
    [log.Fatal] instead of reaching the caller as an error. *)
Lemma fatal_load_counterexample :
  Symbolize strip_Z sort_by_lowpc demo_elf_Open demo_os_Open demo_buildIDDir
            demo_session (mkMmap "/bin/nosyms" 0 0) 4101
            (mkSymbolic "" LineEntry_zero)
  = Abort (LogFatal "/bin/nosyms: bad symbol table")
  /\ Symbolize strip_Z sort_by_lowpc demo_elf_Open demo_os_Open demo_buildIDDir
               demo_session (mkMmap "/bin/badlines" 0 0) 4101
               (mkSymbolic "" LineEntry_zero)
     = Abort (LogFatal "invalid line-number opcode").
Proof. split; vm_compute; reflexivity. Qed.

Lemma load_failures_witness :
  newSymbolicExtra sort_by_lowpc demo_elf_Open "/bin/missing"
  = Ok (Err "error loading ELF file /bin/missing: no such file or directory")
  /\ newSymbolicExtra sort_by_lowpc demo_elf_Open "/bin/nosyms"
     = Abort (LogFatal "/bin/nosyms: bad symbol table").
Proof.
  split.
  - destruct (load_failures strip_Z sort_by_lowpc demo_elf_Open demo_os_Open
                demo_buildIDDir "/bin/missing") as (H & _).
    apply (H "no such file or directory"). reflexivity.
  - destruct (load_failures strip_Z sort_by_lowpc demo_elf_Open demo_os_Open
                demo_buildIDDir "/bin/nosyms") as (_ & _ & _ & H & _).
    apply (H unreadable_symbols_elf "bad symbol table").
    + reflexivity.
    + reflexivity.
    + left. reflexivity.
    + reflexivity.
Defined.

(** * Further properties of the code *)

(** ** [findIP]: what a lookup changes, and repeating it *)

Lemma Search_loop_ext fuel f g : forall i j,
  (forall k, f k = g k) -> Search_loop fuel f i j = Search_loop fuel g i j.
Proof.
  induction fuel as [|fuel IH]; intros i j Hfg; [reflexivity|].
  rewrite !Search_loop_S, Hfg.
  destruct (i <? j)%nat; [|reflexivity].
  destruct (g ((i + j) / 2)%nat); cbn [negb]; apply IH; exact Hfg.
Qed.

Lemma Search_ext n f g : (forall k, f k = g k) -> Search n f = Search n g.
Proof. intros H. unfold Search. apply Search_loop_ext. exact H. Qed.

(** Storing the demangled range does not move any bound, so the search
    takes the same path. *)
Lemma functab_pred_insert demangle_Filter tab i r a k :
  tab !! i = Some r ->
  functab_pred (<[i := demangle_range demangle_Filter r]> tab) a k
  = functab_pred tab a k.
Proof.
  intros Hi. unfold functab_pred.
  destruct (decide (k = i)) as [->|Hne].
  - rewrite list_lookup_insert_eq by (eapply lookup_lt_Some; exact Hi).
    rewrite Hi. reflexivity.
  - rewrite list_lookup_insert_ne by done. reflexivity.
Qed.

(** The function lookup, run again on the table it left. *)
Lemma findIP_func_again demangle_Filter s mmap ip a t f c :
  findIP_func demangle_Filter s mmap ip = (a, t, f, c) ->
  findIP_func demangle_Filter (mkSymbolicExtra t (linetab s) (isReloc s)) mmap ip
  = (a, t, f, None).
Proof.
  unfold findIP_func. cbn [functab isReloc].
  destruct (functab s) as [tab|]; [|intros [= <- <- <- <-]; reflexivity].
  set (a0 := if isReloc s then _ else _).
  destruct (tab !! Search (length tab) (functab_pred tab a0)) as [r|] eqn:Hr.
  - destruct ((lowpc r <=? a0) && (a0 <? highpc r)) eqn:Hin.
    + destruct (demangled r) eqn:Hd; cbn [negb].
      * intros [= <- <- <- <-]. rewrite Hr, Hin, Hd. reflexivity.
      * intros [= <- <- <- <-]. rewrite length_insert.
        rewrite (Search_ext _ _ (functab_pred tab a0))
          by (intros k; apply functab_pred_insert; exact Hr).
        rewrite list_lookup_insert_eq by (eapply lookup_lt_Some; exact Hr).
        cbn [demangle_range lowpc highpc demangled negb]. rewrite Hin.
        reflexivity.
    + intros [= <- <- <- <-]. rewrite Hr, Hin. reflexivity.
  - intros [= <- <- <- <-]. rewrite Hr. reflexivity.
Qed.

(** X1: a lookup changes nothing of the image table but the range it
    returns, and of that range only the name and the cached-demangled
    bit: the line table, the relocation flag, the number of ranges and
    every bound stay, and every other range stays as it is. *)
Theorem findIP_frame
    (demangle_Filter : string -> string)
    (s : symbolicExtra) (mmap : Mmap) (ip : Z) :
  let res := findIP demangle_Filter s mmap ip in
  linetab (fr_table res) = linetab s
  /\ isReloc (fr_table res) = isReloc s
  /\ (functab s = None -> functab (fr_table res) = None /\ fr_f res = None)
  /\ (forall tab, functab s = Some tab ->
        exists tab',
          functab (fr_table res) = Some tab'
          /\ length tab' = length tab
          /\ forall j r, tab !! j = Some r ->
               tab' !! j
               = Some (if decide (fr_f res = Some j)
                       then mkFuncRange (returned_name demangle_Filter r)
                                        (lowpc r) (highpc r) true
                       else r)).
Proof.
  intros res. subst res. split; [|split; [|split]].
  - unfold findIP. destruct (findIP_func _ _ _ _) as [[[a t] f] c]. reflexivity.
  - unfold findIP. destruct (findIP_func _ _ _ _) as [[[a t] f] c]. reflexivity.
  - intros Hs. unfold findIP, findIP_func. rewrite Hs. auto.
  - intros tab Hs.
    pose proof (findIP_step demangle_Filter s mmap ip tab Hs) as Hstep.
    cbv zeta in Hstep. unfold returned_name.
    destruct (fr_f (findIP demangle_Filter s mmap ip)) as [i|].
    + destruct Hstep as (ri & Hi & Hcase).
      destruct (demangled ri) eqn:Hd.
      * destruct Hcase as [Ht _]. exists tab. repeat split; auto.
        intros j r Hj. destruct (decide (Some i = Some j)) as [[= ->]|Hne];
          [|exact Hj].
        rewrite Hj in Hi. injection Hi as ->. rewrite Hj, Hd.
        destruct ri; simpl in *. congruence.
      * destruct Hcase as [Ht _]. eexists. split; [exact Ht|].
        split; [apply length_insert|].
        intros j r Hj. destruct (decide (Some i = Some j)) as [[= ->]|Hne].
        -- rewrite Hj in Hi. injection Hi as ->. rewrite Hd.
           apply list_lookup_insert_eq. eapply lookup_lt_Some; exact Hj.
        -- rewrite list_lookup_insert_ne by congruence. exact Hj.
    + destruct Hstep as [Ht _]. exists tab. repeat split; auto.
Qed.

Lemma findIP_frame_witness :
  exists tab',
    functab (fr_table (findIP strip_Z
                         (mkSymbolicExtra (Some chained_tab) None false)
                         (mkMmap "a.out" 0 0) 4100)) = Some tab'
    /\ tab' !! 1%nat = Some (mkFuncRange "bar" 4112 4200 true).
Proof.
  destruct (findIP_frame strip_Z (mkSymbolicExtra (Some chained_tab) None false)
              (mkMmap "a.out" 0 0) 4100) as (_ & _ & _ & H).
  destruct (H chained_tab eq_refl) as (tab' & Ht & _ & Hall).
  exists tab'. split; [exact Ht|].
  apply (Hall 1%nat (mkFuncRange "bar" 4112 4200 true) eq_refl).
Defined.

(** X2: a lookup repeated on the table it left gives the same answer
    and is a no-op: the same range and line entry come back, the name
    is not passed to the demangling transform again and the table is
    left exactly as it was. *)
Theorem findIP_idempotent
    (demangle_Filter : string -> string)
    (s : symbolicExtra) (mmap : Mmap) (ip : Z) :
  let r1 := findIP demangle_Filter s mmap ip in
  let r2 := findIP demangle_Filter (fr_table r1) mmap ip in
  fr_table r2 = fr_table r1
  /\ fr_f r2 = fr_f r1 /\ fr_l r2 = fr_l r1
  /\ fr_filtered r2 = None
  /\ fr_func r2 = fr_func r1 /\ fr_line r2 = fr_line r1.
Proof.
  intros r1 r2. subst r1 r2. unfold fr_func, fr_line, findIP.
  destruct (findIP_func demangle_Filter s mmap ip) as [[[a t] f] c] eqn:E.
  cbn [fr_table].
  rewrite (findIP_func_again demangle_Filter s mmap ip a t f c E).
  cbn. repeat split; reflexivity.
Qed.

(** ** [setFuncHighPCs]: repeating it, and the order it keeps *)

Lemma fill_highpc_again tab i r :
  tab !! i = Some r ->
  fill_highpc (setFuncHighPCs tab) i (fill_highpc tab i r) = fill_highpc tab i r.
Proof.
  intros Hi. unfold fill_highpc at 2 3.
  destruct (Z.eqb_spec (highpc r) (lowpc r)) as [Hz|Hz].
  - destruct (tab !! S i) as [rn|] eqn:Hn.
    + unfold fill_highpc. cbn [set_highpc highpc lowpc].
      rewrite (setFuncHighPCs_lookup tab (S i) rn Hn), fill_highpc_lowpc.
      destruct (lowpc rn =? lowpc r); reflexivity.
    + unfold fill_highpc. cbn [set_highpc highpc lowpc].
      destruct (Z.eqb_spec (u64 (lowpc r + 1)) (lowpc r)) as [Hw|Hw];
        [|reflexivity].
      exfalso. unfold u64 in Hw.
      pose proof (Z.mod_pos_bound (lowpc r + 1) (2 ^ 64) ltac:(lia)) as Hb.
      destruct (Z.lt_ge_cases (lowpc r + 1) (2 ^ 64)) as [Hlt|Hge].
      * rewrite Z.mod_small in Hw by lia. lia.
      * assert (lowpc r = 2 ^ 64 - 1) by lia.
        replace (lowpc r + 1) with (2 ^ 64) in Hw by lia.
        rewrite Z.mod_same in Hw by lia. lia.
  - unfold fill_highpc. destruct (Z.eqb_spec (highpc r) (lowpc r)); [lia|].
    reflexivity.
Qed.

Lemma setFuncHighPCs_lows tab :
  lowpc <$> setFuncHighPCs tab = lowpc <$> tab.
Proof.
  apply list_eq. intros i. rewrite !list_lookup_fmap.
  destruct (tab !! i) as [r|] eqn:Hi.
  - rewrite (setFuncHighPCs_lookup tab i r Hi). simpl.
    rewrite fill_highpc_lowpc. reflexivity.
  - rewrite (lookup_ge_None_2 (setFuncHighPCs tab) i); [reflexivity|].
    rewrite setFuncHighPCs_length. apply lookup_ge_None. exact Hi.
Qed.

Lemma sorted_by_lowpc_lows tab : forall tab',
  lowpc <$> tab' = lowpc <$> tab -> sorted_by_lowpc tab -> sorted_by_lowpc tab'.
Proof.
  unfold sorted_by_lowpc. intros tab' Heq Hs. revert tab' Heq.
  induction Hs as [|r rest Hrest IH Hall]; intros tab' Heq.
  - destruct tab'; [constructor|discriminate].
  - destruct tab' as [|r' rest']; [discriminate|].
    rewrite !fmap_cons in Heq. injection Heq as Hr Hrest'.
    constructor; [apply IH; exact Hrest'|].
    assert (H1 : Forall (fun z => lowpc r <= z) (lowpc <$> rest))
      by (apply (proj2 (Forall_fmap lowpc (fun z => lowpc r <= z) rest));
          exact Hall).
    rewrite <- Hrest', <- Hr in H1.
    exact (proj1 (Forall_fmap lowpc (fun z => lowpc r' <= z) rest') H1).
Qed.

(** X3: filling gaps twice is filling them once, and a table sorted by
    low address is still sorted after it: gap filling moves no low
    address, changes no name and no cached-demangled bit, and leaves
    every range of nonzero width as it is. *)
Theorem setFuncHighPCs_idempotent (tab : list funcRange) :
  setFuncHighPCs (setFuncHighPCs tab) = setFuncHighPCs tab
  /\ (sorted_by_lowpc tab -> sorted_by_lowpc (setFuncHighPCs tab))
  /\ (forall i r', setFuncHighPCs tab !! i = Some r' ->
        exists r, tab !! i = Some r
          /\ name r' = name r /\ lowpc r' = lowpc r
          /\ demangled r' = demangled r
          /\ (highpc r <> lowpc r -> r' = r)).
Proof.
  split; [|split].
  - apply list_eq. intros i.
    destruct (tab !! i) as [r|] eqn:Hi.
    + rewrite (setFuncHighPCs_lookup _ i _ (setFuncHighPCs_lookup tab i r Hi)).
      rewrite (setFuncHighPCs_lookup tab i r Hi).
      f_equal. apply fill_highpc_again. exact Hi.
    + assert (Hlen : (length tab <= i)%nat) by (apply lookup_ge_None; exact Hi).
      rewrite !lookup_ge_None_2; [reflexivity| |];
        rewrite ?setFuncHighPCs_length; exact Hlen.
  - apply sorted_by_lowpc_lows. apply setFuncHighPCs_lows.
  - intros i r' Hi. apply setFuncHighPCs_lookup_inv in Hi as (r & Hr & ->).
    exists r. split; [exact Hr|].
    rewrite fill_highpc_name, fill_highpc_lowpc, fill_highpc_demangled.
    repeat split. intros Hne. unfold fill_highpc.
    destruct (Z.eqb_spec (highpc r) (lowpc r)); [contradiction|reflexivity].
Qed.

Lemma setFuncHighPCs_idempotent_witness :
  sorted_by_lowpc (setFuncHighPCs (sort_by_lowpc two_symbols)).
Proof.
  apply (setFuncHighPCs_idempotent (sort_by_lowpc two_symbols)).
  apply sort_by_lowpc_sorted.
Defined.

(** ** Kernel symbols, from the file to the lookup *)

Lemma u64_range z : 0 <= u64 z < 2 ^ 64.
Proof. unfold u64. apply Z.mod_pos_bound. lia. Qed.

Lemma ParseUint16_loop_range s : forall n,
  0 <= n <= maxUint64 -> 0 <= ParseUint16_loop s n <= maxUint64.
Proof.
  assert (Hm : maxUint64 = 2 ^ 64 - 1) by reflexivity.
  induction s as [|c rest IH]; intros n Hn; cbn [ParseUint16_loop]; [exact Hn|].
  destruct (hex_digit c) as [d|]; [|lia].
  destruct (n >=? maxUint64 / 16 + 1); [lia|].
  destruct ((u64 (u64 (n * 16) + d) <? u64 (n * 16))
            || (u64 (u64 (n * 16) + d) >? maxUint64)); [lia|].
  apply IH. pose proof (u64_range (u64 (n * 16) + d)). lia.
Qed.

Lemma ParseUint16_range s : 0 <= ParseUint16 s <= maxUint64.
Proof. apply ParseUint16_loop_range. unfold maxUint64. lia. Qed.

Lemma chainedb_intro (tab : list funcRange) :
  (forall i r, tab !! i = Some r -> lowpc r <= highpc r) ->
  (forall i r r', tab !! i = Some r -> tab !! S i = Some r' ->
                  highpc r <= lowpc r') ->
  chainedb tab = true.
Proof.
  induction tab as [|r rest IH]; intros Hwf Hadj; [reflexivity|].
  cbn [chainedb]. apply andb_true_intro. split; [apply andb_true_intro; split|].
  - apply Z.leb_le. apply (Hwf 0%nat). reflexivity.
  - destruct rest as [|r' rest']; [reflexivity|].
    apply Z.leb_le. apply (Hadj 0%nat); reflexivity.
  - apply IH.
    + intros i r0 Hi. apply (Hwf (S i)). exact Hi.
    + intros i r0 r1 Hi Hn. apply (Hadj (S i)); assumption.
Qed.

(** A sorted table of zero-width ranges, none at the highest address,
    is chained once its gaps are filled. *)
Lemma zero_width_filled_chained (tab : list funcRange) :
  sorted_by_lowpc tab ->
  Forall (fun r => highpc r = lowpc r) tab ->
  Forall (fun r => 0 <= lowpc r < maxUint64) tab ->
  chainedb (setFuncHighPCs tab) = true.
Proof.
  intros Hs Hz Hr. rewrite Forall_forall in Hz, Hr.
  assert (Hfill : forall i r', setFuncHighPCs tab !! i = Some r' ->
            exists r, tab !! i = Some r /\ lowpc r' = lowpc r
              /\ highpc r' = match tab !! S i with
                             | Some rn => lowpc rn
                             | None => lowpc r + 1
                             end).
  { intros i r' Hi. apply setFuncHighPCs_lookup_inv in Hi as (r & Hi & ->).
    exists r. split; [exact Hi|]. split; [apply fill_highpc_lowpc|].
    assert (Hin : r ∈ tab) by (apply list_elem_of_lookup; eauto).
    unfold fill_highpc. rewrite (Hz r Hin), Z.eqb_refl.
    destruct (tab !! S i); [reflexivity|]. cbn [set_highpc highpc].
    unfold u64. apply Z.mod_small.
    specialize (Hr r Hin). unfold maxUint64 in Hr. lia. }
  apply chainedb_intro.
  - intros i r' Hi. destruct (Hfill i r' Hi) as (r & Hr0 & Hl & Hh).
    rewrite Hl, Hh. destruct (tab !! S i) as [rn|] eqn:Hn; [|lia].
    apply (sorted_by_lowpc_lookup tab i (S i) r rn Hs); auto.
  - intros i r' rn' Hi Hn.
    destruct (Hfill i r' Hi) as (r & Hr0 & Hl & Hh).
    destruct (Hfill (S i) rn' Hn) as (rn & Hrn & Hln & _).
    rewrite Hh, Hrn, Hln. lia.
Qed.

Lemma newKallsyms_loop_props lines r :
  r ∈ flat_map (newKallsyms_step []) lines ->
  highpc r = lowpc r /\ demangled r = true /\ 0 <= lowpc r <= maxUint64.
Proof.
  intros Hin. apply newKallsyms_loop_elem in Hin
    as (text & a & t & n & _ & _ & _ & ->).
  cbn. repeat split. apply ParseUint16_range. apply ParseUint16_range.
Qed.

Section KernelSymbols.

Variable demangle_Filter : string -> string.
Variable sort_Sort : list funcRange -> list funcRange.
Hypothesis sort_Sort_perm : forall l, sort_Sort l ≡ₚ l.
Hypothesis sort_Sort_sorted : forall l, sorted_by_lowpc (sort_Sort l).
Variable os_Open : string -> result textFile.

(** What [newKallsyms] returns, in terms of the sorted zero-width
    ranges it fills. *)
Lemma newKallsyms_shape filename s :
  newKallsyms sort_Sort os_Open filename = Val s ->
  exists raw,
    s = mkSymbolicExtra (Some (setFuncHighPCs (sort_Sort raw))) None false
    /\ forall r, r ∈ sort_Sort raw ->
         highpc r = lowpc r /\ demangled r = true
         /\ 0 <= lowpc r <= maxUint64.
Proof.
  unfold newKallsyms. intros H.
  destruct (os_Open filename) as [f|]; [|discriminate].
  destruct (tf_err f); [discriminate|]. injection H as <-.
  rewrite newKallsyms_loop. cbn [app]. eexists. split; [reflexivity|].
  intros r Hin. rewrite sort_Sort_perm in Hin.
  eapply newKallsyms_loop_props. exact Hin.
Qed.

(** X4: in the table of a kernel-symbol file that has no symbol at the
    highest address [2^64 - 1], every address from a symbol's address up
    to the next symbol's address (one address only for the last symbol)
    resolves to that symbol, under the name in the file: the name is
    never passed to the demangling transform, no line is returned, and
    the lookup leaves the table as it is. *)
Theorem newKallsyms_findIP
    (filename : string) (s : symbolicExtra) (tab : list funcRange)
    (mmap : Mmap) (ip : Z) (i : nat) (r : funcRange)
    (Hload : newKallsyms sort_Sort os_Open filename = Val s)
    (Htab : functab s = Some tab)
    (Htop : forall r, r ∈ tab -> lowpc r <> maxUint64)
    (Hi : tab !! i = Some r)
    (Hip : lowpc r <= ip < highpc r) :
  let res := findIP demangle_Filter s mmap ip in
  chainedb tab = true
  /\ fr_f res = Some i /\ fr_func res = Some r
  /\ fr_filtered res = None /\ fr_l res = None
  /\ fr_table res = s.
Proof.
  intros res. subst res.
  destruct (newKallsyms_shape _ _ Hload) as (raw & -> & Hraw).
  cbn [functab] in Htab. injection Htab as <-.
  assert (Hc : chainedb (setFuncHighPCs (sort_Sort raw)) = true).
  { apply zero_width_filled_chained; [apply sort_Sort_sorted| |];
      apply Forall_forall; intros r0 Hin; destruct (Hraw r0 Hin) as (Hz & _ & Hr);
      [exact Hz|].
    assert (lowpc r0 <> maxUint64); [|lia].
    destruct (setFuncHighPCs_elem_inv _ _ Hin) as (r' & Hin' & _ & Hl).
    rewrite <- Hl. apply Htop. exact Hin'. }
  split; [exact Hc|].
  assert (Hd : demangled r = true).
  { apply setFuncHighPCs_lookup_inv in Hi as (r0 & Hi0 & ->).
    rewrite fill_highpc_demangled. apply Hraw.
    apply list_elem_of_lookup. eauto. }
  pose proof (findIP_func_complete demangle_Filter
                (mkSymbolicExtra (Some (setFuncHighPCs (sort_Sort raw))) None
                                 false)
                mmap ip (setFuncHighPCs (sort_Sort raw)) i r eq_refl Hc Hi Hip)
    as Hfunc.
  unfold findIP, fr_func. rewrite Hfunc, Hd. cbn. rewrite Hi.
  repeat split; reflexivity.
Qed.

(** X5: a kernel symbol at the highest address [2^64 - 1] is never the
    answer of a lookup: if it is the last range its high bound wraps
    around to [0], and otherwise its range is empty. *)
Theorem newKallsyms_top_symbol
    (filename : string) (s : symbolicExtra) (tab : list funcRange)
    (mmap : Mmap) (ip : Z) (i : nat) (r : funcRange)
    (Hload : newKallsyms sort_Sort os_Open filename = Val s)
    (Htab : functab s = Some tab)
    (Hi : tab !! i = Some r)
    (Htop : lowpc r = maxUint64) :
  (highpc r = 0 \/ highpc r = maxUint64)
  /\ (tab !! S i = None -> highpc r = 0)
  /\ fr_f (findIP demangle_Filter s mmap ip) <> Some i.
Proof.
  destruct (newKallsyms_shape _ _ Hload) as (raw & -> & Hraw).
  cbn [functab] in Htab. injection Htab as <-.
  pose proof Hi as Hi'.
  apply setFuncHighPCs_lookup_inv in Hi' as (r0 & Hi0 & ->).
  rewrite fill_highpc_lowpc in Htop.
  assert (Hin0 : r0 ∈ sort_Sort raw) by (apply list_elem_of_lookup; eauto).
  destruct (Hraw r0 Hin0) as (Hz & _ & _).
  assert (Hhigh : highpc (fill_highpc (sort_Sort raw) i r0)
                  = match sort_Sort raw !! S i with
                    | Some _ => maxUint64
                    | None => 0
                    end).
  { unfold fill_highpc. rewrite Hz, Z.eqb_refl.
    destruct (sort_Sort raw !! S i) as [rn|] eqn:Hn; cbn [set_highpc highpc].
    - assert (Hinn : rn ∈ sort_Sort raw) by (apply list_elem_of_lookup; eauto).
      destruct (Hraw rn Hinn) as (_ & _ & Hrn).
      pose proof (sorted_by_lowpc_lookup _ i (S i) r0 rn (sort_Sort_sorted raw)
                    ltac:(lia) Hi0 Hn). lia.
    - rewrite Htop. reflexivity. }
  split; [|split].
  - rewrite Hhigh. destruct (sort_Sort raw !! S i); auto.
  - intros Hlast. rewrite Hhigh.
    assert (sort_Sort raw !! S i = None) as ->; [|reflexivity].
    apply lookup_ge_None. apply lookup_ge_None in Hlast.
    rewrite setFuncHighPCs_length in Hlast. exact Hlast.
  - intros Hf. unfold findIP in Hf.
    destruct (findIP_func demangle_Filter _ mmap ip) as [[[a t] f] c] eqn:E.
    cbn in Hf. subst f.
    apply findIP_func_sound in E as (tab0 & r' & Htab0 & Hr' & Ha & Hin).
    cbn [functab] in Htab0. injection Htab0 as <-.
    rewrite Hi in Hr'. injection Hr' as <-.
    rewrite fill_highpc_lowpc, Hhigh, Htop in Hin.
    unfold maxUint64 in Hin. destruct (sort_Sort raw !! S i); lia.
Qed.

End KernelSymbols.

Lemma newKallsyms_findIP_witness :
  fr_func (findIP strip_Z (mkSymbolicExtra (Some demo_kallsyms_tab) None false)
                  (mkMmap "[kernel.kallsyms]_text" 0 0) 18446744071578845200)
  = Some (mkFuncRange "start_kernel" 18446744071578845184
                      18446744071578845248 true).
Proof.
  assert (Hload : newKallsyms sort_by_lowpc demo_os_Open
                    "/home/u/.debug/.build-id/ab/cdef"
                  = Val (mkSymbolicExtra (Some demo_kallsyms_tab) None false))
    by (vm_compute; reflexivity).
  assert (Htop : forall r, r ∈ demo_kallsyms_tab -> lowpc r <> maxUint64).
  { intros r Hin. unfold demo_kallsyms_tab in Hin.
    apply elem_of_cons in Hin as [->|Hin]; [vm_compute; discriminate|].
    apply elem_of_cons in Hin as [->|Hin]; [vm_compute; discriminate|].
    inversion Hin. }
  assert (Hip : lowpc (mkFuncRange "start_kernel" 18446744071578845184
                                   18446744071578845248 true)
                <= 18446744071578845200
                < highpc (mkFuncRange "start_kernel" 18446744071578845184
                                      18446744071578845248 true))
    by (cbn [lowpc highpc]; lia).
  apply (newKallsyms_findIP strip_Z sort_by_lowpc sort_by_lowpc_perm
           sort_by_lowpc_sorted demo_os_Open
           "/home/u/.debug/.build-id/ab/cdef"
           (mkSymbolicExtra (Some demo_kallsyms_tab) None false)
           demo_kallsyms_tab
           (mkMmap "[kernel.kallsyms]_text" 0 0) 18446744071578845200 0%nat
           (mkFuncRange "start_kernel" 18446744071578845184
                        18446744071578845248 true)
           Hload eq_refl Htop eq_refl Hip).
Defined.

Lemma newKallsyms_top_symbol_witness :
  fr_f (findIP strip_Z (mkSymbolicExtra (Some top_kallsyms_tab) None false)
               (mkMmap "[kernel.kallsyms]" 0 0) 18446744073709551615)
  <> Some 1%nat.
Proof.
  assert (Hload : newKallsyms sort_by_lowpc top_os_Open "/proc/kallsyms"
                  = Val (mkSymbolicExtra (Some top_kallsyms_tab) None false))
    by (vm_compute; reflexivity).
  apply (newKallsyms_top_symbol strip_Z sort_by_lowpc sort_by_lowpc_perm
           sort_by_lowpc_sorted top_os_Open "/proc/kallsyms"
           (mkSymbolicExtra (Some top_kallsyms_tab) None false)
           top_kallsyms_tab
           (mkMmap "[kernel.kallsyms]" 0 0) 18446744073709551615 1%nat
           (mkFuncRange "top_of_memory" 18446744073709551615 0 true)
           Hload eq_refl eq_refl eq_refl).
Defined.

(** ** The line format [newKallsyms] accepts *)

Lemma append_nil_l (s : string) : EmptyString +:+ s = s.
Proof. reflexivity. Qed.

Lemma append_cons (a : ascii) (h s : string) :
  String a h +:+ s = String a (h +:+ s).
Proof. reflexivity. Qed.

Lemma span_hex_cons c rest :
  span_hex (String c rest) =
  if is_hex c then let '(h, r) := span_hex rest in (String c h, r)
  else (EmptyString, String c rest).
Proof. reflexivity. Qed.

Lemma count_spaces_cons c rest :
  count_spaces (String c rest) =
  if Ascii.eqb c space then S (count_spaces rest) else O.
Proof. reflexivity. Qed.

Lemma span_hex_spec text : forall h r,
  span_hex text = (h, r) ->
  text = h +:+ r /\ all_hexb h = true
  /\ match r with
     | String c _ => is_hex c = false
     | EmptyString => True
     end.
Proof.
  induction text as [|c rest IH]; intros h r H.
  - injection H as <- <-. auto.
  - rewrite span_hex_cons in H. destruct (is_hex c) eqn:Hc.
    + destruct (span_hex rest) as [h' r'] eqn:E. injection H as <- <-.
      destruct (IH h' r' eq_refl) as (-> & Hh & Hr).
      rewrite append_cons. cbn [all_hexb]. rewrite Hc, Hh. auto.
    + injection H as <- <-. rewrite append_nil_l. cbn [all_hexb].
      rewrite Hc. auto.
Qed.

Lemma span_hex_app h : forall c rest,
  all_hexb h = true -> is_hex c = false ->
  span_hex (h +:+ String c rest) = (h, String c rest).
Proof.
  induction h as [|a h IH]; intros c rest Hh Hc.
  - rewrite append_nil_l, span_hex_cons, Hc. reflexivity.
  - cbn [all_hexb] in Hh. apply andb_prop in Hh as [Ha Hh].
    rewrite append_cons, span_hex_cons, Ha, (IH c rest Hh Hc). reflexivity.
Qed.

Lemma count_spaces_split r :
  r = spaces (count_spaces r) +:+ drop_string (count_spaces r) r
  /\ match drop_string (count_spaces r) r with
     | String c _ => c <> space
     | EmptyString => True
     end.
Proof.
  induction r as [|c rest IH]; [split; [reflexivity|exact I]|].
  rewrite count_spaces_cons.
  destruct (Ascii.eqb_spec c space) as [->|Hne].
  - cbn [spaces drop_string]. rewrite append_cons.
    destruct IH as [IH1 IH2]. split; [f_equal; exact IH1|exact IH2].
  - cbn [spaces drop_string]. rewrite append_nil_l. auto.
Qed.

Lemma count_spaces_app n : forall c rest,
  c <> space ->
  count_spaces (spaces n +:+ String c rest) = n
  /\ drop_string n (spaces n +:+ String c rest) = String c rest.
Proof.
  induction n as [|n IH]; intros c rest Hc; cbn [spaces].
  - rewrite append_nil_l, count_spaces_cons.
    destruct (Ascii.eqb_spec c space); [contradiction|]. auto.
  - rewrite append_cons, count_spaces_cons, Ascii.eqb_refl.
    cbn [drop_string]. destruct (IH c rest Hc) as [H1 H2].
    rewrite H1, H2. auto.
Qed.

(** Inside the run of spaces the single character of the pattern can
    only be a space. *)
Lemma match_after_inside m : forall r c nm,
  (m < count_spaces r)%nat -> match_after m r = Some (c, nm) -> c = space.
Proof.
  unfold match_after.
  induction m as [|m IH]; intros r c nm Hm H.
  - destruct r as [|a r]; [discriminate|].
    rewrite count_spaces_cons in Hm. cbn [drop_string] in H.
    destruct (Ascii.eqb_spec a space) as [->|]; [|lia].
    destruct r as [|sp rest]; [discriminate|].
    destruct (negb _ && _); [|discriminate]. injection H as <- _. reflexivity.
  - destruct r as [|a r]; [cbn [count_spaces] in Hm; lia|].
    rewrite count_spaces_cons in Hm.
    destruct (Ascii.eqb_spec a space) as [->|]; [|lia].
    cbn [drop_string] in H. apply (IH r c nm); [lia|exact H].
Qed.

Lemma is_text_type_space : is_text_type space = false.
Proof. reflexivity. Qed.

Lemma match_spaces_text m : forall r c nm,
  (m <= count_spaces r)%nat ->
  match_spaces m r = Some (c, nm) -> is_text_type c = true ->
  m = count_spaces r /\ match_after m r = Some (c, nm).
Proof.
  induction m as [|m IH]; intros r c nm Hm H Ht; [discriminate|].
  cbn [match_spaces] in H.
  destruct (match_after (S m) r) as [[c' nm']|] eqn:E.
  - injection H as -> ->.
    destruct (Nat.eq_dec (S m) (count_spaces r)) as [Heq|Hne]; [auto|].
    rewrite (match_after_inside (S m) r c nm) in Ht by (lia || exact E).
    discriminate.
  - destruct (IH r c nm ltac:(lia) H Ht) as [Heq _]. lia.
Qed.

(** X6: the lines [newKallsyms] turns into a range are exactly those
    made of hexadecimal digits (possibly none), one or more spaces, the
    character [t] or [T], one space and the rest: the backtracking of
    the pattern never finds a text type anywhere else.  The range is
    named by the rest of the line, starts and ends at the parsed digits
    and carries the cached-demangled bit. *)
Theorem newKallsyms_step_format (text : string) (r : funcRange) :
  newKallsyms_step [] text = [r] <->
  exists h k c rest,
    text = h +:+ spaces (S k) +:+ String c (String space rest)
    /\ all_hexb h = true
    /\ (c = "t"%char \/ c = "T"%char)
    /\ r = mkFuncRange (until_newline rest) (ParseUint16 h) (ParseUint16 h) true.
Proof.
  unfold newKallsyms_step, kallsymsRe_FindStringSubmatch. split.
  - destruct (span_hex text) as [h r0] eqn:Hspan.
    destruct (span_hex_spec _ _ _ Hspan) as (Htext & Hh & _).
    destruct (match_spaces (count_spaces r0) r0) as [[c nm]|] eqn:Hm;
      [|discriminate].
    destruct (is_text_type c) eqn:Ht; [|discriminate].
    cbn. intros [= <-].
    destruct (match_spaces_text _ _ _ _ (Nat.le_refl _) Hm Ht) as [_ Hafter].
    destruct (count_spaces_split r0) as [Hsplit _].
    unfold match_after in Hafter.
    destruct (drop_string (count_spaces r0) r0) as [|c' [|sp rest]] eqn:Hd;
      try discriminate.
    destruct (negb (Ascii.eqb c' newline)) eqn:Hnl; [|discriminate].
    destruct (Ascii.eqb_spec sp space) as [->|]; [|discriminate].
    injection Hafter as -> <-.
    destruct (count_spaces r0) as [|k] eqn:Hk; [discriminate|].
    exists h, k, c, rest. split; [rewrite Htext, Hsplit; reflexivity|].
    split; [exact Hh|]. split; [apply is_text_type_spec; exact Ht|reflexivity].
  - intros (h & k & c & rest & -> & Hh & Hc & ->).
    assert (Hns : c <> space) by (destruct Hc as [-> | ->]; discriminate).
    assert (Hnl : negb (Ascii.eqb c newline) = true)
      by (destruct Hc as [-> | ->]; reflexivity).
    destruct (count_spaces_app (S k) c (String space rest) Hns) as [Hcnt Hdrop].
    cbn [spaces] in Hcnt, Hdrop |- *. rewrite append_cons in Hcnt, Hdrop |- *.
    rewrite (span_hex_app h space _ Hh eq_refl), Hcnt.
    cbn [match_spaces]. unfold match_after at 1.
    rewrite Hdrop, Hnl, Ascii.eqb_refl. cbn [andb].
    apply is_text_type_spec in Hc. rewrite Hc. reflexivity.
Qed.

(** ** The ranges [elfFuncTable] and [dwarfFuncTable] collect *)

Lemma elfFuncTable_step_app elff rel out sym :
  elfFuncTable_step elff rel out sym = out ++ elfFuncTable_step elff rel [] sym.
Proof.
  unfold elfFuncTable_step.
  destruct (negb _ || _); [rewrite app_nil_r; reflexivity|].
  destruct rel; [|reflexivity].
  destruct (sym_Section sym >=? _); [rewrite app_nil_r; reflexivity|].
  destruct (elf_Sections elff !! _); [reflexivity|rewrite app_nil_r; reflexivity].
Qed.

Lemma elfFuncTable_loop elff rel syms : forall out,
  fold_left (elfFuncTable_step elff rel) syms out
  = out ++ flat_map (elfFuncTable_step elff rel []) syms.
Proof.
  induction syms as [|sym syms IH]; intros out; cbn [fold_left flat_map].
  - rewrite app_nil_r. reflexivity.
  - rewrite IH, elfFuncTable_step_app, <- app_assoc. reflexivity.
Qed.

(** The range a symbol contributes, if any. *)
Lemma elfFuncTable_step_elem elff rel sym r :
  r ∈ elfFuncTable_step elff rel [] sym <->
  Z.land (sym_Info sym) 15 = STT_FUNC /\ sym_Section sym <> SHN_UNDEF
  /\ exists lo,
       r = mkFuncRange (sym_Name sym) lo (u64 (lo + sym_Size sym)) false
       /\ if rel
          then sym_Section sym < Z.of_nat (length (elf_Sections elff))
               /\ exists sec,
                    elf_Sections elff !! Z.to_nat (sym_Section sym) = Some sec
                    /\ lo = u64 (u64 (sym_Value sym - sec_Addr sec)
                                 + sec_Offset sec)
          else lo = sym_Value sym.
Proof.
  unfold elfFuncTable_step.
  destruct (Z.eqb_spec (Z.land (sym_Info sym) 15) STT_FUNC) as [Hf|Hf];
    cbn [negb orb].
  2:{ split; [intros H; inversion H|intros (H & _); contradiction]. }
  destruct (Z.eqb_spec (sym_Section sym) SHN_UNDEF) as [Hu|Hu].
  { split; [intros H; inversion H|intros (_ & H & _); contradiction]. }
  destruct rel.
  - destruct (Z.geb_spec (sym_Section sym)
                (Z.of_nat (length (elf_Sections elff)))) as [Hge|Hlt].
    { split; [intros H; inversion H|].
      intros (_ & _ & lo & _ & Hlt & _). lia. }
    destruct (elf_Sections elff !! Z.to_nat (sym_Section sym)) as [sec|] eqn:Hs.
    + rewrite app_nil_l, list_elem_of_singleton. split.
      * intros ->. repeat split; auto. eexists. split; [reflexivity|].
        split; [lia|]. eauto.
      * intros (_ & _ & lo & -> & _ & sec' & [= <-] & ->). reflexivity.
    + split; [intros H; inversion H|].
      intros (_ & _ & lo & _ & _ & sec' & Hs' & _). discriminate.
  - rewrite app_nil_l, list_elem_of_singleton. split.
    + intros ->. repeat split; auto. eexists. split; reflexivity.
    + intros (_ & _ & lo & -> & ->). reflexivity.
Qed.

Lemma dwarfFuncTable_loop_elem fuel : forall rd out r,
  r ∈ dwarfFuncTable_loop fuel rd out ->
  r ∈ out
  \/ exists ent,
       ItemEntry ent ∈ r_rest rd /\ e_Tag ent = TagSubprogram
       /\ subprogram_range ent = Some r.
Proof.
  induction fuel as [|fuel IH]; intros rd out r H; [left; exact H|].
  cbn [dwarfFuncTable_loop] in H.
  destruct (Reader_Next rd) as [res rd'] eqn:Hnext.
  destruct res as [[ent|]|]; try (left; exact H).
  pose proof (Reader_Next_entry _ _ _ Hnext) as Hrest.
  assert (Hstay : forall out', r ∈ dwarfFuncTable_loop fuel rd' out' ->
            r ∈ out' \/ exists ent0, ItemEntry ent0 ∈ r_rest rd
              /\ e_Tag ent0 = TagSubprogram /\ subprogram_range ent0 = Some r).
  { intros out' H'. destruct (IH _ _ _ H') as [Hin|(e0 & Hin & Ht & Hr)];
      [left; exact Hin|].
    right. exists e0. rewrite Hrest. split; [right; exact Hin|auto]. }
  assert (Hskip : forall out',
            r ∈ dwarfFuncTable_loop fuel (Reader_SkipChildren rd') out' ->
            r ∈ out' \/ exists ent0, ItemEntry ent0 ∈ r_rest rd
              /\ e_Tag ent0 = TagSubprogram /\ subprogram_range ent0 = Some r).
  { intros out' H'. destruct (IH _ _ _ H') as [Hin|(e0 & Hin & Ht & Hr)];
      [left; exact Hin|].
    right. exists e0. rewrite Hrest.
    split; [right; apply Reader_SkipChildren_elem; exact Hin|auto]. }
  destruct (e_Tag ent) eqn:Htag; try (apply Hskip; exact H);
    try (apply Hstay; exact H).
  destruct (subprogram_range ent) as [fr|] eqn:Hfr; [|apply Hskip; exact H].
  destruct (Hskip _ H) as [Hin|Hex]; [|right; exact Hex].
  apply elem_of_app in Hin as [Hin|Hin]; [left; exact Hin|].
  apply list_elem_of_singleton in Hin as ->.
  right. exists ent. rewrite Hrest. split; [left|auto].
Qed.

Section RangeSources.

Variable sort_Sort : list funcRange -> list funcRange.
Hypothesis sort_Sort_perm : forall l, sort_Sort l ≡ₚ l.
Hypothesis sort_Sort_sorted : forall l, sorted_by_lowpc (sort_Sort l).
Variable elf_Open : string -> result elfFile.
Variable os_Open : string -> result textFile.

(** X7: for an executable or a shared object whose symbols can be read,
    [elfFuncTable] returns a table with the relocation flag set exactly
    for the shared object, and with one range for every defined
    function symbol (for a shared object: whose section index is within
    the section table) and none for any other symbol.  The range has
    the symbol's name and no cached-demangled bit; it starts at the
    symbol's value, for a shared object moved from the section's
    address to its file offset, and ends [Size] later unless that
    leaves it zero-width. *)
Theorem elfFuncTable_entries
    (filename : string) (elff : elfFile) (syms : list elfSymbol) (rel : bool)
    (Hsyms : elf_Symbols elff = SymbolsOk syms)
    (Htype : elf_Type elff = (if rel then ET_DYN else ET_EXEC)) :
  exists tab,
    elfFuncTable sort_Sort filename elff = Ok (Some tab, rel)
    /\ (forall r, r ∈ tab ->
          demangled r = false
          /\ exists sym,
               sym ∈ syms /\ name r = sym_Name sym
               /\ Z.land (sym_Info sym) 15 = STT_FUNC
               /\ sym_Section sym <> SHN_UNDEF
               /\ (if rel
                   then sym_Section sym < Z.of_nat (length (elf_Sections elff))
                        /\ exists sec,
                             elf_Sections elff !! Z.to_nat (sym_Section sym)
                               = Some sec
                             /\ lowpc r = u64 (u64 (sym_Value sym - sec_Addr sec)
                                               + sec_Offset sec)
                   else lowpc r = sym_Value sym)
               /\ (u64 (lowpc r + sym_Size sym) <> lowpc r ->
                   highpc r = u64 (lowpc r + sym_Size sym)))
    /\ (forall sym,
          sym ∈ syms ->
          Z.land (sym_Info sym) 15 = STT_FUNC ->
          sym_Section sym <> SHN_UNDEF ->
          (rel = true ->
           0 <= sym_Section sym < Z.of_nat (length (elf_Sections elff))) ->
          exists r, r ∈ tab /\ name r = sym_Name sym
            /\ (rel = false -> lowpc r = sym_Value sym)).
Proof.
  set (raw := flat_map (elfFuncTable_step elff rel []) syms).
  exists (setFuncHighPCs (sort_Sort raw)).
  split; [|split].
  - unfold elfFuncTable. rewrite Htype. subst raw.
    destruct rel; rewrite Hsyms, elfFuncTable_loop; reflexivity.
  - intros r Hin. apply list_elem_of_lookup in Hin as [i Hi].
    apply setFuncHighPCs_lookup_inv in Hi as (r0 & Hi0 & ->).
    assert (Hin0 : r0 ∈ raw).
    { rewrite <- (sort_Sort_perm raw). apply list_elem_of_lookup. eauto. }
    apply list_elem_of_In, in_flat_map in Hin0 as (sym & Hsym & Hr0).
    apply list_elem_of_In in Hsym, Hr0.
    apply elfFuncTable_step_elem in Hr0 as (Hf & Hu & lo & -> & Hlo).
    rewrite fill_highpc_demangled, fill_highpc_name, fill_highpc_lowpc.
    split; [reflexivity|]. exists sym. cbn [name lowpc demangled].
    split; [exact Hsym|]. split; [reflexivity|]. split; [exact Hf|].
    split; [exact Hu|]. split.
    + destruct rel; [|exact Hlo].
      destruct Hlo as (Hlt & sec & Hsec & ->). eauto.
    + intros Hne. unfold fill_highpc. cbn [highpc lowpc].
      destruct (Z.eqb_spec (u64 (lo + sym_Size sym)) lo); [contradiction|].
      reflexivity.
  - intros sym Hsym Hf Hu Hrel.
    assert (Hex : exists r0, r0 ∈ elfFuncTable_step elff rel [] sym
                    /\ name r0 = sym_Name sym
                    /\ (rel = false -> lowpc r0 = sym_Value sym)).
    { destruct rel.
      - destruct (Hrel eq_refl) as [H0 Hlt].
        destruct (lookup_lt_is_Some_2 (elf_Sections elff)
                    (Z.to_nat (sym_Section sym)) ltac:(lia)) as [sec Hsec].
        exists (mkFuncRange (sym_Name sym)
                  (u64 (u64 (sym_Value sym - sec_Addr sec) + sec_Offset sec))
                  (u64 (u64 (u64 (sym_Value sym - sec_Addr sec)
                             + sec_Offset sec) + sym_Size sym)) false).
        split; [|split; [reflexivity|discriminate]].
        apply elfFuncTable_step_elem. repeat split; auto.
        eexists. split; [reflexivity|]. split; [lia|]. eauto.
      - exists (mkFuncRange (sym_Name sym) (sym_Value sym)
                  (u64 (sym_Value sym + sym_Size sym)) false).
        split; [|split; [reflexivity|intros _; reflexivity]].
        apply elfFuncTable_step_elem. repeat split; auto.
        eexists. split; reflexivity. }
    destruct Hex as (r0 & Hr0 & Hn & Hl).
    assert (Hin0 : r0 ∈ sort_Sort raw).
    { rewrite sort_Sort_perm. apply list_elem_of_In, in_flat_map.
      exists sym. split; apply list_elem_of_In; assumption. }
    destruct (setFuncHighPCs_elem_inv _ _ Hin0) as (r & Hin & Hn' & Hl').
    exists r. split; [exact Hin|]. split; [congruence|].
    intros Hr. rewrite Hl'. auto.
Qed.

(** X8: [dwarfFuncTable] never returns an empty table (it returns nil
    instead), and every range of the table it returns comes from a
    subprogram entry that has a low address, a high address and a name:
    the linkage name if there is one, and then with the
    cached-demangled bit set, else the plain name without the bit.  A
    high address given as an offset is added to the low address. *)
Theorem dwarfFuncTable_ranges (dwarff : dwarf_Data) :
  dwarfFuncTable sort_Sort dwarff <> Some []
  /\ forall tab, dwarfFuncTable sort_Sort dwarff = Some tab ->
       forall r, r ∈ tab ->
         exists ent,
           ItemEntry ent ∈ dwarff /\ e_Tag ent = TagSubprogram
           /\ e_Lowpc ent = Some (lowpc r)
           /\ match e_LinkageName ent with
              | Some n => name r = n /\ demangled r = true
              | None => e_Name ent = Some (name r) /\ demangled r = false
              end
           /\ match e_Highpc ent with
              | HighpcAddr h => highpc r = h
              | HighpcOffset h => highpc r = u64 (lowpc r + u64 h)
              | HighpcOther => False
              end.
Proof.
  unfold dwarfFuncTable.
  set (out := dwarfFuncTable_loop _ _ _).
  split.
  - destruct (Nat.eqb_spec (length (sort_Sort out)) 0) as [H0|H0]; [discriminate|].
    intros [= Hnil]. rewrite Hnil in H0. contradiction.
  - intros tab Htab r Hin.
    destruct (length (sort_Sort out) =? 0)%nat; [discriminate|].
    injection Htab as <-. rewrite sort_Sort_perm in Hin.
    apply dwarfFuncTable_loop_elem in Hin as [Hin|(ent & Hin & Htag & Hr)];
      [inversion Hin|].
    exists ent. split; [exact Hin|]. split; [exact Htag|].
    unfold subprogram_range in Hr.
    destruct (e_LinkageName ent) as [n|].
    + destruct (e_Lowpc ent) as [lo|]; [|discriminate].
      destruct (e_Highpc ent); try discriminate; injection Hr as <-; auto.
    + destruct (e_Name ent) as [n|]; [|discriminate].
      destruct (e_Lowpc ent) as [lo|]; [|discriminate].
      destruct (e_Highpc ent); try discriminate; injection Hr as <-; auto.
Qed.

(** X9: every range table a loader returns is sorted ascending by low
    address, whichever of the three paths built it. *)
Theorem loaders_sorted :
  (forall filename s tab,
     newSymbolicExtra sort_Sort elf_Open filename = Ok (Val s) ->
     functab s = Some tab -> sorted_by_lowpc tab)
  /\ (forall filename s tab,
        newKallsyms sort_Sort os_Open filename = Val s ->
        functab s = Some tab -> sorted_by_lowpc tab).
Proof.
  assert (Hfill : forall raw, sorted_by_lowpc (setFuncHighPCs (sort_Sort raw))).
  { intros raw. apply (sorted_by_lowpc_lows (sort_Sort raw));
      [apply setFuncHighPCs_lows|apply sort_Sort_sorted]. }
  split.
  - intros filename s tab H Htab.
    destruct (elf_Open filename) as [elff|] eqn:Hopen;
      [|unfold newSymbolicExtra in H; rewrite Hopen in H; discriminate].
    rewrite (newSymbolicExtra_opened _ _ _ _ Hopen) in H.
    destruct (uses_DWARF elff).
    + destruct (elf_DWARF elff) as [dwarff|]; [|discriminate].
      destruct (dwarfLineTable dwarff) as [lt|]; [|discriminate].
      cbn in H. injection H as <-. cbn [functab] in Htab.
      unfold dwarfFuncTable in Htab.
      destruct (length _ =? 0)%nat; [discriminate|]. injection Htab as <-.
      apply sort_Sort_sorted.
    + destruct (elfFuncTable sort_Sort filename elff) as [[ft rel]|] eqn:He;
        [|discriminate].
      cbn in H. injection H as <-. cbn [functab] in Htab. subst ft.
      unfold elfFuncTable in He.
      destruct (elf_Type elff); try discriminate;
        destruct (elf_Symbols elff); try discriminate;
        injection He as <- _; apply Hfill.
  - intros filename s tab H Htab. unfold newKallsyms in H.
    destruct (os_Open filename) as [f|]; [|discriminate].
    destruct (tf_err f); [discriminate|]. injection H as <-.
    cbn [functab] in Htab. injection Htab as <-. apply Hfill.
Qed.

End RangeSources.

Lemma elfFuncTable_entries_witness :
  exists tab,
    elfFuncTable sort_by_lowpc "/lib/libbar.so" scenario_B_elf
    = Ok (Some tab, true).
Proof.
  destruct (elfFuncTable_entries sort_by_lowpc sort_by_lowpc_perm
              "/lib/libbar.so" scenario_B_elf
              [mkElfSymbol "bar" 18 1 80 16] true eq_refl eq_refl)
    as (tab & H & _).
  exists tab. exact H.
Defined.

Lemma dwarfFuncTable_ranges_witness :
  dwarfFuncTable sort_by_lowpc scenario_A_dwarf <> Some [].
Proof.
  apply (dwarfFuncTable_ranges sort_by_lowpc sort_by_lowpc_perm scenario_A_dwarf).
Defined.

Lemma loaders_sorted_witness :
  sorted_by_lowpc [mkFuncRange "foo" 0 10 false; mkFuncRange "bar" 20 30 false].
Proof.
  assert (Hload : newSymbolicExtra sort_by_lowpc demo_elf_Open "/bin/apart"
                  = Ok (Val (mkSymbolicExtra
                               (Some [mkFuncRange "foo" 0 10 false;
                                      mkFuncRange "bar" 20 30 false])
                               None false)))
    by (vm_compute; reflexivity).
  destruct (loaders_sorted sort_by_lowpc sort_by_lowpc_sorted demo_elf_Open
              demo_os_Open) as [H _].
  apply (H "/bin/apart" _ _ Hload eq_refl).
Defined.

(** ** The build-ID cache path *)

Lemma append_inj_l (pre x y : string) : pre +:+ x = pre +:+ y -> x = y.
Proof.
  induction pre as [|a pre IH]; [rewrite !append_nil_l; auto|].
  rewrite !append_cons. intros [= H]. auto.
Qed.

Lemma substring_0_0 (s : string) : substring 0 0 s = EmptyString.
Proof. destruct s; reflexivity. Qed.

(** X10: the cache path of a build ID is the cache directory, the
    first two characters of the identifier as a directory and the rest
    as the file name, so the identifier can be read back from the path
    and two different identifiers never share a path; an identifier
    shorter than two characters makes the slice expression panic. *)
Theorem buildID_path_injective
    (buildIDDir : string) (bid bid' : BuildIDInfo) (path : string) :
  (buildID_path buildIDDir bid = Ok path ->
   exists a b rest,
     bid_BuildID bid = String a (String b rest)
     /\ path = buildIDDir +:+ "/.build-id/" +:+ String a (String b "/")
               +:+ rest)
  /\ (buildID_path buildIDDir bid = Ok path ->
      buildID_path buildIDDir bid' = Ok path ->
      bid_BuildID bid' = bid_BuildID bid)
  /\ ((String.length (bid_BuildID bid) < 2)%nat <->
      exists msg, buildID_path buildIDDir bid = Abort (Panic msg)).
Proof.
  assert (Hshape : forall b p, buildID_path buildIDDir b = Ok p ->
            exists a c rest,
              bid_BuildID b = String a (String c rest)
              /\ p = buildIDDir +:+ "/.build-id/" +:+ String a (String c "/")
                     +:+ rest).
  { intros b p. unfold buildID_path.
    destruct (bid_BuildID b) as [|a [|c rest]]; try discriminate.
    cbn. rewrite substring_0_0. intros [= <-].
    exists a, c, rest. split; [reflexivity|].
    rewrite !append_cons, !append_nil_l. reflexivity. }
  split; [apply Hshape|]. split.
  - intros H1 H2.
    destruct (Hshape _ _ H1) as (a & c & rest & -> & ->).
    destruct (Hshape _ _ H2) as (a' & c' & rest' & -> & Heq).
    apply append_inj_l in Heq. apply (append_inj_l "/.build-id/") in Heq.
    rewrite !append_cons, !append_nil_l in Heq. injection Heq as <- <- <-.
    reflexivity.
  - unfold buildID_path.
    destruct (bid_BuildID bid) as [|a [|c rest]]; cbn.
    + split; [eauto|lia].
    + split; [eauto|lia].
    + split; [lia|]. intros [msg H]. discriminate.
Qed.

Lemma buildID_path_injective_witness :
  bid_BuildID (mkBuildIDInfo "/bin/other" "abcdef")
  = bid_BuildID (mkBuildIDInfo "[kernel.kallsyms]" "abcdef").
Proof.
  apply (buildID_path_injective demo_buildIDDir
           (mkBuildIDInfo "[kernel.kallsyms]" "abcdef")
           (mkBuildIDInfo "/bin/other" "abcdef")
           "/home/u/.debug/.build-id/ab/cdef").
  - reflexivity.
  - reflexivity.
Defined.

(** ** The session: what a request touches *)

Lemma prefix_kallsyms_name : String.prefix kallsyms_name kallsyms_name = true.
Proof. reflexivity. Qed.

Lemma memo_key_idempotent filename : memo_key (memo_key filename) = memo_key filename.
Proof.
  unfold memo_key. destruct (String.prefix kallsyms_name filename) eqn:E.
  - rewrite prefix_kallsyms_name. reflexivity.
  - rewrite E. reflexivity.
Qed.

Section SessionExtras.

Variable demangle_Filter : string -> string.
Variable sort_Sort : list funcRange -> list funcRange.
Variable elf_Open : string -> result elfFile.
Variable os_Open : string -> result textFile.
Variable buildIDDir : string.

#[local] Abbreviation getSymbolicExtra4 :=
  (getSymbolicExtra sort_Sort elf_Open os_Open buildIDDir).
#[local] Abbreviation Symbolize4 :=
  (Symbolize demangle_Filter sort_Sort elf_Open os_Open buildIDDir).
#[local] Abbreviation buildID_loop4 :=
  (buildID_loop sort_Sort elf_Open os_Open buildIDDir).

(** The loop over the build-ID records only appends loads of cache
    paths of matching records. *)
Lemma buildID_loop_trace bids key isK : forall tr res tr',
  buildID_loop4 bids key isK None tr = Ok (res, tr') ->
  exists ext,
    tr' = tr ++ ext
    /\ Forall (fun ev =>
                 exists bid path,
                   bid ∈ bids /\ bid_Filename bid = key
                   /\ buildID_path buildIDDir bid = Ok path
                   /\ ev = cache_event isK path) ext.
Proof.
  induction bids as [|bid rest IH]; intros tr res tr' H.
  - cbn in H. injection H as _ <-. exists []. rewrite app_nil_r.
    split; [reflexivity|constructor].
  - rewrite buildID_loop_cons in H.
    assert (Hweak : forall ext,
              Forall (fun ev => exists b path, b ∈ rest /\ bid_Filename b = key
                        /\ buildID_path buildIDDir b = Ok path
                        /\ ev = cache_event isK path) ext ->
              Forall (fun ev => exists b path, b ∈ bid :: rest
                        /\ bid_Filename b = key
                        /\ buildID_path buildIDDir b = Ok path
                        /\ ev = cache_event isK path) ext).
    { intros ext Hall. eapply Forall_impl; [exact Hall|].
      intros ev (b & p & Hin & Hrest).
      exists b, p. split; [right; exact Hin|exact Hrest]. }
    destruct (String.eqb_spec (bid_Filename bid) key) as [Hk|Hk].
    + destruct (buildID_path buildIDDir bid) as [path|] eqn:Hp; [|discriminate].
      cbn [obind] in H.
      destruct (load_candidate sort_Sort elf_Open os_Open isK path)
        as [[e|err]|]; cbn [obind] in H; [| |discriminate].
      * injection H as _ <-. exists [cache_event isK path].
        split; [reflexivity|]. constructor; [|constructor].
        exists bid, path. split; [left|auto].
      * destruct (IH _ _ _ H) as (ext & -> & Hall).
        exists (cache_event isK path :: ext). rewrite <- app_assoc.
        split; [reflexivity|]. constructor; [|apply Hweak; exact Hall].
        exists bid, path. split; [left|auto].
    + destruct (IH _ _ _ H) as (ext & -> & Hall).
      exists ext. split; [reflexivity|apply Hweak; exact Hall].
Qed.

(** X11: a request depends on the file name only through its memo key:
    every name that starts with [[kernel.kallsyms]] is served as
    [[kernel.kallsyms]] itself, by [getSymbolicExtra] and by
    [Symbolize]. *)
Theorem kallsyms_name_normalised
    (session : Session) (filename : string) (addr off ip : Z) (out : Symbolic) :
  getSymbolicExtra4 session filename
  = getSymbolicExtra4 session (memo_key filename)
  /\ Symbolize4 session (mkMmap filename addr off) ip out
     = Symbolize4 session (mkMmap (memo_key filename) addr off) ip out
  /\ (String.prefix kallsyms_name filename = true ->
      memo_key filename = kallsyms_name)
  /\ (String.prefix kallsyms_name filename = false ->
      memo_key filename = filename).
Proof.
  assert (Hget : getSymbolicExtra4 session filename
                 = getSymbolicExtra4 session (memo_key filename)).
  { unfold getSymbolicExtra, memo_key.
    destruct (String.prefix kallsyms_name filename) eqn:E.
    - rewrite prefix_kallsyms_name. reflexivity.
    - rewrite E. reflexivity. }
  split; [exact Hget|]. split; [|split].
  - unfold Symbolize. cbn [Filename].
    rewrite <- Hget, memo_key_idempotent. reflexivity.
  - unfold memo_key. intros ->. reflexivity.
  - unfold memo_key. intros ->. reflexivity.
Qed.

(** What a request for a table leaves alone. *)
Lemma getSymbolicExtra_frame session filename r session' :
  getSymbolicExtra4 session filename = Ok (r, session') ->
  BuildIDs session' = BuildIDs session
  /\ (exists ext, trace session' = trace session ++ ext)
  /\ (forall k, k <> memo_key filename ->
        tables_of session' !! k = tables_of session !! k).
Proof.
  intros H.
  destruct (tables_of session !! memo_key filename) as [v|] eqn:Hv.
  - rewrite (getSymbolicExtra_hit _ _ _ _ _ _ _ Hv) in H.
    injection H as _ <-. cbn. split; [reflexivity|].
    split; [exists []; rewrite app_nil_r; reflexivity|]. reflexivity.
  - rewrite (getSymbolicExtra_miss _ _ _ _ _ _ Hv) in H.
    destruct (buildID_loop4 _ _ _ _ _) as [[extra tr]|] eqn:Hloop;
      [|discriminate].
    destruct (buildID_loop_trace _ _ _ _ _ _ Hloop) as (ext & -> & _).
    cbn [obind] in H.
    assert (Hfin : forall extra' ext',
              Ok (extra',
                  mkSession (BuildIDs session)
                    (Some (<[memo_key filename := extra']>
                             (<[memo_key filename := None]> (tables_of session))))
                    ((trace session ++ ext) ++ ext')) = Ok (r, session') ->
              BuildIDs session' = BuildIDs session
              /\ (exists ext0, trace session' = trace session ++ ext0)
              /\ (forall k, k <> memo_key filename ->
                    tables_of session' !! k = tables_of session !! k)).
    { intros extra' ext' [= _ <-]. cbn. split; [reflexivity|].
      split; [exists (ext ++ ext'); rewrite app_assoc; reflexivity|].
      intros k Hk. rewrite !lookup_insert_ne by done. reflexivity. }
    destruct extra as [e|]; cbn [obind] in H.
    + apply (Hfin (Some e) []). rewrite app_nil_r. exact H.
    + destruct (newSymbolicExtra sort_Sort elf_Open (memo_key filename))
        as [[e|err]|]; cbn [obind] in H; [| |discriminate];
        eapply Hfin; exact H.
Qed.

(** X12: the build-ID cache goes first: when the memo table has no
    entry for the file name and the cache path of one of the session's
    matching build-ID records loads, a request that returns returns a
    table, appends to the trace only loads of cache paths of matching
    records, and so neither opens the original path nor logs
    anything. *)
Theorem buildID_cache_first
    (session : Session) (filename : string)
    (r : option symbolicExtra) (session' : Session)
    (Hmiss : tables_of session !! memo_key filename = None)
    (Hcache : cache_loads sort_Sort elf_Open os_Open buildIDDir session filename)
    (Hget : getSymbolicExtra4 session filename = Ok (r, session')) :
  r <> None
  /\ exists ext,
       trace session' = trace session ++ ext
       /\ Forall (fun ev =>
                    exists bid path,
                      bid ∈ BuildIDs session
                      /\ bid_Filename bid = memo_key filename
                      /\ buildID_path buildIDDir bid = Ok path
                      /\ ev = cache_event
                                (String.prefix kallsyms_name filename) path)
                 ext.
Proof.
  rewrite (getSymbolicExtra_miss _ _ _ _ _ _ Hmiss) in Hget.
  destruct (buildID_loop4 _ _ _ _ _) as [[extra tr]|] eqn:Hloop;
    [|discriminate].
  pose proof (buildID_loop_spec _ _ _ _ _ _ _ _ _ _ Hloop) as Hspec.
  destruct (buildID_loop_trace _ _ _ _ _ _ Hloop) as (ext & -> & Hall).
  cbn [obind] in Hget. destruct extra as [e|].
  - cbn [obind] in Hget. injection Hget as <- <-. split; [done|].
    exists ext. split; [reflexivity|exact Hall].
  - exfalso. destruct Hcache as (bid & path & s & Hin & Hk & Hp & Hl).
    destruct (Hspec bid Hin Hk) as (path' & err & Hp' & Hl'). congruence.
Qed.

(** X13: a request for a symbol leaves the build-ID records alone, only
    appends to the trace, leaves the memo entries of all other file
    names exactly as they are, and leaves an entry for its own file
    name. *)
Theorem Symbolize_frame
    (session : Session) (mmap : Mmap) (ip : Z) (out : Symbolic)
    (b : bool) (out' : Symbolic) (session' : Session)
    (Hrun : Symbolize4 session mmap ip out = Ok (b, out', session')) :
  BuildIDs session' = BuildIDs session
  /\ (exists ext, trace session' = trace session ++ ext)
  /\ (forall k, k <> memo_key (Filename mmap) ->
        tables_of session' !! k = tables_of session !! k)
  /\ is_Some (tables_of session' !! memo_key (Filename mmap)).
Proof.
  unfold Symbolize in Hrun.
  destruct (getSymbolicExtra4 session (Filename mmap)) as [[res s1]|] eqn:Hget;
    [|discriminate].
  destruct (getSymbolicExtra_frame _ _ _ _ Hget) as (Hb & Ht & Hk).
  destruct (getSymbolicExtra_stores _ _ _ _ _ _ _ _ Hget)
    as (t1 & Ht1 & Hk1 & _).
  cbn [obind] in Hrun. destruct res as [s|].
  - injection Hrun as _ _ <-. cbn [BuildIDs trace].
    split; [exact Hb|]. split; [exact Ht|]. split.
    + intros k Hne. unfold tables_of at 1. cbn [Extra_symbolic].
      rewrite lookup_insert_ne by done. apply Hk. exact Hne.
    + unfold tables_of at 1. cbn [Extra_symbolic].
      rewrite lookup_insert_eq. eauto.
  - injection Hrun as _ _ <-.
    split; [exact Hb|]. split; [exact Ht|]. split; [exact Hk|].
    rewrite (tables_of_Some _ _ Ht1), Hk1. eauto.
Qed.

(** X14: a request for a symbol that has returned can be repeated:
    the second call returns the same success flag, function name and
    line, and leaves the session exactly as the first call left it (no
    loader is called, nothing is logged, no name is demangled again). *)
Theorem Symbolize_repeat
    (session : Session) (mmap : Mmap) (ip : Z) (out : Symbolic)
    (b : bool) (out' : Symbolic) (session' : Session)
    (Hrun : Symbolize4 session mmap ip out = Ok (b, out', session')) :
  Symbolize4 session' mmap ip out' = Ok (b, out', session').
Proof.
  unfold Symbolize in Hrun.
  destruct (getSymbolicExtra4 session (Filename mmap)) as [[res s1]|] eqn:Hget;
    [|discriminate].
  destruct (getSymbolicExtra_stores _ _ _ _ _ _ _ _ Hget)
    as (t1 & Ht1 & Hk1 & _).
  cbn [obind] in Hrun. destruct res as [s|].
  - injection Hrun as <- <- <-. unfold Symbolize.
    set (r1 := findIP demangle_Filter s mmap ip).
    set (s2 := mkSession _ _ _).
    assert (Hhit : tables_of s2 !! memo_key (Filename mmap)
                   = Some (Some (fr_table r1)))
      by (subst s2; unfold tables_of at 1; cbn [Extra_symbolic];
          apply lookup_insert_eq).
    rewrite (getSymbolicExtra_hit _ _ _ _ _ _ _ Hhit). cbn [obind].
    assert (Hagain : findIP demangle_Filter (fr_table r1) mmap ip
                     = mkFindIPResult (fr_table r1) (fr_f r1) (fr_l r1) None).
    { subst r1. unfold findIP.
      destruct (findIP_func demangle_Filter s mmap ip) as [[[a t] f] c] eqn:E.
      cbn [fr_table fr_f fr_l].
      rewrite (findIP_func_again demangle_Filter s mmap ip a t f c E).
      reflexivity. }
    rewrite Hagain. unfold fr_func, fr_line. cbn [fr_table fr_f fr_l].
    subst s2. cbn [BuildIDs trace tables_of Extra_symbolic].
    rewrite insert_insert_eq. reflexivity.
  - injection Hrun as <- <- <-. unfold Symbolize.
    assert (Hhit : tables_of s1 !! memo_key (Filename mmap) = Some None)
      by (rewrite (tables_of_Some _ _ Ht1); exact Hk1).
    rewrite (getSymbolicExtra_hit _ _ _ _ _ _ _ Hhit). cbn [obind].
    rewrite (tables_of_Some _ _ Ht1), <- Ht1. destruct s1; reflexivity.
Qed.

(** X15: a file that opens as ELF but is neither an executable nor a
    shared object, or has no symbol section and no usable debug
    information, loads as an image with no tables at all; if no
    build-ID record names it, [Symbolize] then reports success with an
    empty function name and the zero line entry for every address. *)
Theorem empty_image
    (session : Session) (mmap : Mmap) (ip : Z) (out : Symbolic)
    (elff : elfFile)
    (Hmiss : tables_of session !! memo_key (Filename mmap) = None)
    (Hnone : forall bid, bid ∈ BuildIDs session ->
               bid_Filename bid <> memo_key (Filename mmap))
    (Hopen : elf_Open (memo_key (Filename mmap)) = Val elff)
    (Hempty : (elf_Type elff <> ET_EXEC /\ elf_Type elff <> ET_DYN)
              \/ (uses_DWARF elff = false
                  /\ elf_Symbols elff = SymbolsErrNoSymbols)) :
  newSymbolicExtra sort_Sort elf_Open (memo_key (Filename mmap))
  = Ok (Val (mkSymbolicExtra None None false))
  /\ exists session',
       Symbolize4 session mmap ip out
       = Ok (true, mkSymbolic EmptyString LineEntry_zero, session').
Proof.
  assert (Hload : newSymbolicExtra sort_Sort elf_Open (memo_key (Filename mmap))
                  = Ok (Val (mkSymbolicExtra None None false))).
  { rewrite (newSymbolicExtra_opened _ _ _ _ Hopen).
    destruct Hempty as [[Hx Hd]|[Hd Hs]].
    - assert (uses_DWARF elff = false) as ->.
      { unfold uses_DWARF. destruct (elf_Type elff); try reflexivity.
        contradiction. }
      unfold elfFuncTable.
      destruct (elf_Type elff); try reflexivity; contradiction.
    - rewrite Hd. unfold elfFuncTable. rewrite Hs.
      destruct (elf_Type elff); reflexivity. }
  split; [exact Hload|].
  unfold Symbolize. rewrite (getSymbolicExtra_miss _ _ _ _ _ _ Hmiss).
  destruct (buildID_loop_all_fail sort_Sort elf_Open os_Open buildIDDir
              (BuildIDs session) (memo_key (Filename mmap))
              (String.prefix kallsyms_name (Filename mmap)) (trace session))
    as (ext & Hloop & _).
  { intros bid Hin Hk. exfalso. exact (Hnone bid Hin Hk). }
  rewrite Hloop. cbn [obind]. rewrite Hload. cbn [obind].
  eexists. reflexivity.
Qed.

End SessionExtras.

Lemma kallsyms_name_normalised_witness :
  memo_key "[kernel.kallsyms]_text" = kallsyms_name.
Proof.
  apply (kallsyms_name_normalised strip_Z sort_by_lowpc demo_elf_Open
           demo_os_Open demo_buildIDDir demo_session "[kernel.kallsyms]_text"
           0 0 0 (mkSymbolic "" LineEntry_zero)).
  reflexivity.
Defined.

Lemma buildID_cache_first_witness :
  exists r session',
    getSymbolicExtra sort_by_lowpc demo_elf_Open demo_os_Open demo_buildIDDir
                     demo_session "[kernel.kallsyms]_text" = Ok (r, session')
    /\ r <> None.
Proof.
  assert (Hget : exists r session',
            getSymbolicExtra sort_by_lowpc demo_elf_Open demo_os_Open
                             demo_buildIDDir demo_session
                             "[kernel.kallsyms]_text" = Ok (r, session'))
    by (do 2 eexists; vm_compute; reflexivity).
  destruct Hget as (r & session' & Hget).
  assert (Hcache : cache_loads sort_by_lowpc demo_elf_Open demo_os_Open
                     demo_buildIDDir demo_session "[kernel.kallsyms]_text").
  { exists (mkBuildIDInfo "[kernel.kallsyms]" "abcdef"),
           "/home/u/.debug/.build-id/ab/cdef",
           (mkSymbolicExtra (Some demo_kallsyms_tab) None false).
    split; [left|]. split; [reflexivity|]. split; [reflexivity|].
    vm_compute. reflexivity. }
  exists r, session'. split; [exact Hget|].
  apply (buildID_cache_first sort_by_lowpc demo_elf_Open demo_os_Open
           demo_buildIDDir demo_session "[kernel.kallsyms]_text" r session'
           eq_refl Hcache Hget).
Defined.

Lemma Symbolize_frame_witness :
  exists session',
    Symbolize strip_Z sort_by_lowpc demo_elf_Open demo_os_Open demo_buildIDDir
              demo_session (mkMmap "/bin/a.out" 0 0) 4101
              (mkSymbolic "" LineEntry_zero)
    = Ok (true,
          mkSymbolic "foo" (mkLineEntry 4096 (Some "file.c") 10 0 false),
          session')
    /\ BuildIDs session' = BuildIDs demo_session.
Proof.
  assert (Hrun : exists session',
            Symbolize strip_Z sort_by_lowpc demo_elf_Open demo_os_Open
                      demo_buildIDDir demo_session (mkMmap "/bin/a.out" 0 0)
                      4101 (mkSymbolic "" LineEntry_zero)
            = Ok (true,
                  mkSymbolic "foo" (mkLineEntry 4096 (Some "file.c") 10 0 false),
                  session'))
    by (eexists; vm_compute; reflexivity).
  destruct Hrun as (session' & Hrun).
  exists session'. split; [exact Hrun|].
  apply (Symbolize_frame strip_Z sort_by_lowpc demo_elf_Open demo_os_Open
           demo_buildIDDir demo_session (mkMmap "/bin/a.out" 0 0) 4101
           (mkSymbolic "" LineEntry_zero) true _ session' Hrun).
Defined.

Lemma Symbolize_repeat_witness :
  exists session',
    Symbolize strip_Z sort_by_lowpc demo_elf_Open demo_os_Open demo_buildIDDir
              session' (mkMmap "/bin/a.out" 0 0) 4101
              (mkSymbolic "foo" (mkLineEntry 4096 (Some "file.c") 10 0 false))
    = Ok (true,
          mkSymbolic "foo" (mkLineEntry 4096 (Some "file.c") 10 0 false),
          session').
Proof.
  assert (Hrun : exists session',
            Symbolize strip_Z sort_by_lowpc demo_elf_Open demo_os_Open
                      demo_buildIDDir demo_session (mkMmap "/bin/a.out" 0 0)
                      4101 (mkSymbolic "" LineEntry_zero)
            = Ok (true,
                  mkSymbolic "foo" (mkLineEntry 4096 (Some "file.c") 10 0 false),
                  session'))
    by (eexists; vm_compute; reflexivity).
  destruct Hrun as (session' & Hrun).
  exists session'.
  apply (Symbolize_repeat strip_Z sort_by_lowpc demo_elf_Open demo_os_Open
           demo_buildIDDir demo_session (mkMmap "/bin/a.out" 0 0) 4101
           (mkSymbolic "" LineEntry_zero) true _ session' Hrun).
Defined.

Lemma empty_image_witness :
  exists session',
    Symbolize strip_Z sort_by_lowpc object_elf_Open demo_os_Open demo_buildIDDir
              empty_session (mkMmap "/src/f.o" 0 0) 8
              (mkSymbolic "stale" LineEntry_zero)
    = Ok (true, mkSymbolic EmptyString LineEntry_zero, session').
Proof.
  apply (empty_image strip_Z sort_by_lowpc object_elf_Open demo_os_Open
           demo_buildIDDir empty_session (mkMmap "/src/f.o" 0 0) 8
           (mkSymbolic "stale" LineEntry_zero) object_elf eq_refl).
  - intros bid Hin. inversion Hin.
  - reflexivity.
  - left. split; discriminate.
Defined.

Lemma newKallsyms_step_format_witness :
  newKallsyms_step [] "c0de  t init"
  = [mkFuncRange "init" 49374 49374 true].
Proof.
  apply (newKallsyms_step_format "c0de  t init"
           (mkFuncRange "init" 49374 49374 true)).
  exists "c0de", 1%nat, "t"%char, "init".
  split; [reflexivity|]. split; [reflexivity|]. split; [left; reflexivity|].
  reflexivity.
Defined.

(** ** The entries [dwarfLineTable] collects *)

Lemma dwarfLineTable_loop_elem fuel : forall dr out lt l,
  dwarfLineTable_loop fuel dr out = Ok lt -> l ∈ lt ->
  l ∈ out
  \/ exists ent entries,
       ItemEntry ent ∈ r_rest dr /\ e_Tag ent = TagCompileUnit
       /\ e_lines ent = LineReaderOk entries None /\ l ∈ entries.
Proof.
  induction fuel as [|fuel IH]; intros dr out lt l H Hin.
  - cbn in H. injection H as <-. left. exact Hin.
  - cbn [dwarfLineTable_loop] in H.
    destruct (Reader_Next dr) as [res dr'] eqn:Hnext.
    destruct res as [[ent|]|];
      try (injection H as <-; left; exact Hin).
    pose proof (Reader_Next_entry _ _ _ Hnext) as Hrest.
    assert (Hstay : forall out',
              dwarfLineTable_loop fuel dr' out' = Ok lt ->
              l ∈ out' \/ exists ent0 entries, ItemEntry ent0 ∈ r_rest dr
                /\ e_Tag ent0 = TagCompileUnit
                /\ e_lines ent0 = LineReaderOk entries None /\ l ∈ entries).
    { intros out' H'.
      destruct (IH _ _ _ _ H' Hin) as [Ho|(e0 & es & Hi & Ht & Hl & Hm)];
        [left; exact Ho|].
      right. exists e0, es. rewrite Hrest. split; [right; exact Hi|auto]. }
    assert (Hskip : dwarfLineTable_loop fuel (Reader_SkipChildren dr') out = Ok lt ->
              l ∈ out \/ exists ent0 entries, ItemEntry ent0 ∈ r_rest dr
                /\ e_Tag ent0 = TagCompileUnit
                /\ e_lines ent0 = LineReaderOk entries None /\ l ∈ entries).
    { intros H'.
      destruct (IH _ _ _ _ H' Hin) as [Ho|(e0 & es & Hi & Ht & Hl & Hm)];
        [left; exact Ho|].
      right. exists e0, es. rewrite Hrest.
      split; [right; apply Reader_SkipChildren_elem; exact Hi|auto]. }
    destruct (e_Tag ent) eqn:Htag; try (apply Hskip; exact H).
    destruct (e_lines ent) as [e| |entries [e|]] eqn:Hlines; try discriminate.
    + apply Hstay. exact H.
    + destruct (Hstay _ H) as [Ho|Hex]; [|right; exact Hex].
      apply elem_of_app in Ho as [Ho|Ho]; [left; exact Ho|].
      right. exists ent, entries. rewrite Hrest. split; [left|auto].
Qed.

(** X16: [dwarfLineTable] returns a table whenever no compilation unit
    of the data has a line-number program that cannot be opened or
    decoded, and every entry of the table it returns was decoded from
    the line-number program of one of the compilation units. *)
Theorem dwarfLineTable_entries (dwarff : dwarf_Data) :
  ((forall ent msg, ItemEntry ent ∈ dwarff -> ~ bad_line_program ent msg) ->
   exists lt, dwarfLineTable dwarff = Ok lt)
  /\ (forall lt l,
        dwarfLineTable dwarff = Ok lt -> l ∈ lt ->
        exists ent entries,
          ItemEntry ent ∈ dwarff /\ e_Tag ent = TagCompileUnit
          /\ e_lines ent = LineReaderOk entries None /\ l ∈ entries).
Proof.
  split.
  - intros Hgood. destruct (dwarfLineTable dwarff) as [lt|w] eqn:E; [eauto|].
    exfalso. apply dwarfLineTable_loop_abort in E as (ent & msg & Hin & _ & Hbad).
    exact (Hgood ent msg Hin Hbad).
  - intros lt l H Hin.
    destruct (dwarfLineTable_loop_elem _ _ _ _ _ H Hin) as [Ho|Hex];
      [inversion Ho|exact Hex].
Qed.

Lemma dwarfLineTable_entries_witness :
  exists ent entries,
    ItemEntry ent ∈ scenario_A_dwarf /\ e_Tag ent = TagCompileUnit
    /\ e_lines ent = LineReaderOk entries None
    /\ mkLineEntry 4096 (Some "file.c") 10 0 false ∈ entries.
Proof.
  destruct (dwarfLineTable_entries scenario_A_dwarf) as [_ H].
  apply (H [mkLineEntry 4096 (Some "file.c") 10 0 false;
            mkLineEntry 4112 (Some "file.c") 10 0 true]).
  - reflexivity.
  - left.
Defined.
